(** * SpotifySyncWall: the image compositing and colour pipeline

    A shallow embedding of [src/utils/images.py]: the centred resize of
    the album cover, the choice of the text colour, the ordering of two
    palette colours by darkness, the contrast ratio, and the final
    compositing step.

    Numbers.  Python [int] is [Z].  Python [float] is IEEE binary64.
    - Where the source compares a rounded quantity (the brightness
      against 186, one square root against another) the outcome
      depends on the rounding, and binary64 is modelled bit for bit with
      the Standard Library's [SpecFloat] at precision 53 (module [F64]).
    - The two floats the source only truncates, [int(w / h)] and
      [int(w / 2 - c / 2)], are carried as exact rationals [Q]; the
      binary64 computation is proved to truncate to the same ints for
      all ints below 2^52 ([truediv_agrees_with_binary64],
      [center_agrees_with_binary64]).
    - The luminance and the contrast ratio are computed in binary64 as
      well; what is proved of them rests on the closed form of the
      rounding to nearest, from which its monotonicity follows.
    Ints are converted to binary64 without a check of their size: the
    conversion of an int beyond the range of a float raises in Python,
    and the channels of a colour are far below it.

    Pillow.  The library is not part of the repository.  Images are
    modelled by their mode and size, and each primitive the source calls
    by its effect on the size, by the conditions under which it raises,
    and by an entry in a log of the raster operations performed. *)

From Stdlib Require Import ZArith QArith Qround List String Bool Lia.
From Stdlib Require Import Floats.SpecFloat.
Import ListNotations.

Local Open Scope Z_scope.

(* ================================================================== *)
(** * Python values and exceptions *)

Inductive exn : Type :=
| ZeroDivisionError
| ValueError
| IndexError
| OverflowError
| OSError.

Inductive result (A : Type) : Type :=
| Ok (a : A)
| Raise (e : exn).

Arguments Ok {A} a.
Arguments Raise {A} e.

Module Py.

(** [a / b] on two ints: true division, [ZeroDivisionError] on [b = 0]. *)
Definition truediv (a b : Z) : result Q :=
  if b =? 0 then Raise ZeroDivisionError
  else Ok (inject_Z a / inject_Z b)%Q.

(** [int(x)] on a float: truncation toward zero. *)
Definition int (x : Q) : Z := Z.quot (Qnum x) (Zpos (Qden x)).

(** [a // b] on two ints, for a non-zero literal [b]: floor division. *)
Definition floordiv (a b : Z) : Z := a / b.

(** [xs[i]] on a list: [IndexError] when out of range. *)
Definition index {A : Type} (xs : list A) (i : nat) : result A :=
  match nth_error xs i with
  | Some x => Ok x
  | None => Raise IndexError
  end.

End Py.

(* ================================================================== *)
(** * IEEE binary64 *)

Module F64.

Definition t : Type := spec_float.

Definition prec : Z := 53.
Definition emax : Z := 1024.

(** [float(n)] for an int [n]. *)
Definition of_int (n : Z) : t := binary_normalize prec emax n 0 false.

Definition mul : t -> t -> t := SFmul prec emax.
Definition add : t -> t -> t := SFadd prec emax.
Definition sub : t -> t -> t := SFsub prec emax.
Definition div : t -> t -> t := SFdiv prec emax.
Definition sqrt : t -> t := SFsqrt prec emax.

(** [int(x)]: truncation toward zero; an infinity and a NaN raise. *)
Definition to_int (x : t) : result Z :=
  match x with
  | S754_zero _ => Ok 0
  | S754_finite s m e =>
      Ok (cond_Zopp s (match e with
                       | Zneg k => Zpos m / 2 ^ Zpos k
                       | _ => Zpos m * 2 ^ e
                       end))
  | S754_infinity _ => Raise OverflowError
  | S754_nan => Raise ValueError
  end.

(** [x > y]. *)
Definition gtb (x y : t) : bool := SFltb y x.

(** The literals of the source, as the nearest binary64 numbers:
    0.299 = 0x1.322d0e5604189p-2, 0.587 = 0x1.2c8b439581062p-1,
    0.114 = 0x1.d2f1a9fbe76c9p-4. *)
Definition lit_0_299 : t := S754_finite false 0x1322d0e5604189 (-54).
Definition lit_0_587 : t := S754_finite false 0x12c8b439581062 (-53).
Definition lit_0_114 : t := S754_finite false 0x1d2f1a9fbe76c9 (-56).

(** [x >= y]. *)
Definition geb (x y : t) : bool := SFleb y x.

(** The float [1.0]. *)
Definition one : t := of_int 1.

(** The literals of the luminance and of the contrast ratio:
    0.2126 = 0x1.b367a0f9096bcp-3, 0.7152 = 0x1.6e2eb1c432ca5p-1,
    0.0722 = 0x1.27bb2fec56d5dp-4, 0.05 = 0x1.999999999999ap-5. *)
Definition lit_0_2126 : t := S754_finite false 0x1b367a0f9096bc (-55).
Definition lit_0_7152 : t := S754_finite false 0x16e2eb1c432ca5 (-53).
Definition lit_0_0722 : t := S754_finite false 0x127bb2fec56d5d (-56).
Definition lit_0_05 : t := S754_finite false 0x1999999999999a (-57).

End F64.

(* ================================================================== *)
(** * Colours *)

(** A colour object exposes its channels as the triple [rgb]. *)
Record Color : Type := mkColor { rgb : Z * Z * Z }.

Definition red (c : Z * Z * Z) : Z := fst (fst c).
Definition green (c : Z * Z * Z) : Z := snd (fst c).
Definition blue (c : Z * Z * Z) : Z := snd c.

(** The invariant of the data model: every channel is in [0, 255]. *)
Definition channel (x : Z) : Prop := 0 <= x <= 255.

Definition valid_color (c : Color) : Prop :=
  channel (red (rgb c)) /\ channel (green (rgb c)) /\ channel (blue (rgb c)).

(* ================================================================== *)
(** * The world: raster log, files and fonts *)

Inductive Mode : Type := RGB | RGBA.

Module Image.

Record t : Type := mk { mode : Mode; width : Z; height : Z }.

Definition size (im : t) : Z * Z := (width im, height im).

End Image.

(** One entry per raster operation that Pillow carried out. *)
Inductive raster_op : Type :=
| OpNew (m : Mode) (size : Z * Z)
| OpResize (src : Image.t) (size : Z * Z)
| OpCrop (src : Image.t) (box : Z * Z * Z * Z)
| OpPaste (dst src : Image.t) (pos : Z * Z) (mask : option Image.t)
| OpText (dst : Image.t) (pos : Z * Z) (s : string) (size : Z)
         (fill : Z * Z * Z)
| OpSave (im : Image.t) (path : string).

Record world : Type := mkWorld {
  ops : list raster_op;            (* raster work done so far, oldest first *)
  files : list (string * Image.t); (* image files on disk, newest first *)
  fonts : list string              (* typeface files that can be read *)
}.

(** Computations: state passing over the world, with exceptions; the
    world reached when the exception was raised is kept. *)
Definition M (A : Type) : Type := world -> result A * world.

Definition ret {A : Type} (a : A) : M A := fun w => (Ok a, w).

Definition raise {A : Type} (e : exn) : M A := fun w => (Raise e, w).

Definition bind {A B : Type} (m : M A) (k : A -> M B) : M B :=
  fun w => match m w with
           | (Ok a, w') => k a w'
           | (Raise e, w') => (Raise e, w')
           end.

Definition lift {A : Type} (r : result A) : M A := fun w => (r, w).

Definition log (o : raster_op) : M unit :=
  fun w => (Ok tt, mkWorld (ops w ++ [o]) (files w) (fonts w)).

Notation "x <- m ;; k" := (bind m (fun x => k))
  (at level 61, m at next level, right associativity).
Notation "m ;;; k" := (bind m (fun _ => k))
  (at level 61, right associativity).

Definition lookup_file (path : string) (w : world) : option Image.t :=
  match find (fun e => String.eqb (fst e) path) (files w) with
  | Some e => Some (snd e)
  | None => None
  end.

(* ================================================================== *)
(** * The Pillow primitives the source calls *)

Module PIL.

(** [Image.new(mode, size)]: a fresh image of that mode and size;
    [ValueError] when a dimension is negative. *)
Definition new (m : Mode) (size : Z * Z) : M Image.t :=
  if (fst size <? 0) || (snd size <? 0) then raise ValueError
  else log (OpNew m size) ;;; ret (Image.mk m (fst size) (snd size)).

(** [im.resize(size, Image.LANCZOS)]: a copy when [size] is already the
    size of [im]; otherwise [ValueError] when a requested dimension is
    below 1 (height and width must be > 0), and a resampled image of
    exactly the requested size when not. *)
Definition resize (im : Image.t) (size : Z * Z) : M Image.t :=
  if (fst size =? Image.width im) && (snd size =? Image.height im) then ret im
  else if (fst size <? 1) || (snd size <? 1) then raise ValueError
  else log (OpResize im size) ;;;
       ret (Image.mk (Image.mode im) (fst size) (snd size)).

(** [im.crop((left, upper, right, lower))]: the region of that box, of
    size [(right - left, lower - upper)]; [ValueError] when the box is
    turned inside out. *)
Definition crop (im : Image.t) (box : Z * Z * Z * Z) : M Image.t :=
  let '(x0, y0, x1, y1) := box in
  if (x1 <? x0) || (y1 <? y0) then raise ValueError
  else log (OpCrop im box) ;;;
       ret (Image.mk (Image.mode im) (x1 - x0) (y1 - y0)).

(** The extent of [src], pasted at [pos], that falls inside [dst]. *)
Definition clipped (dst src : Image.t) (pos : Z * Z) : Z * Z :=
  (Z.min (fst pos + Image.width src) (Image.width dst) - Z.max (fst pos) 0,
   Z.min (snd pos + Image.height src) (Image.height dst) - Z.max (snd pos) 0).

(** [dst.paste(src, pos)] and [dst.paste(src, pos, mask=mask)]: writes
    into [dst] in place, clipped to it, so the mode and the size of
    [dst] stay what they were.  A mask must have the size of [src]
    ([ValueError] when not).  The region is clipped next, and the call
    returns with nothing written when nothing of it is left; only then
    is the mode of the mask looked at, and a mask without an alpha band
    refused with [ValueError]. *)
Definition paste (dst src : Image.t) (pos : Z * Z) (mask : option Image.t)
  : M unit :=
  match mask with
  | Some m =>
      if negb ((Image.width m =? Image.width src)
               && (Image.height m =? Image.height src))
      then raise ValueError
      else if (fst (clipped dst src pos) <=? 0)
              || (snd (clipped dst src pos) <=? 0)
      then log (OpPaste dst src pos mask)
      else match Image.mode m with
           | RGBA => log (OpPaste dst src pos mask)
           | RGB => raise ValueError
           end
  | None => log (OpPaste dst src pos mask)
  end.

(** [ImageFont.truetype(path, size)]: [OSError] when the file cannot be
    read. *)
Definition truetype (path : string) (size : Z) : M (string * Z) :=
  fun w => if existsb (String.eqb path) (fonts w)
           then (Ok (path, size), w)
           else (Raise OSError, w).

(** [ImageDraw.Draw(im).text(pos, s, font=font, fill=fill)]. *)
Definition text (im : Image.t) (pos : Z * Z) (s : string)
  (font : string * Z) (fill : Z * Z * Z) : M unit :=
  log (OpText im pos s (snd font) fill).

(** [im.save(path)]: the file at [path] now holds [im].  An image with
    a dimension of zero is refused with [ValueError] by the encoder;
    the file has been opened for writing by then, so [path] holds no
    image afterwards. *)
Definition save (im : Image.t) (path : string) : M unit :=
  fun w =>
    if (Image.width im <=? 0) || (Image.height im <=? 0)
    then (Raise ValueError,
          mkWorld (ops w)
                  (filter (fun e => negb (String.eqb (fst e) path)) (files w))
                  (fonts w))
    else (Ok tt, mkWorld (ops w ++ [OpSave im path])
                         ((path, im) :: files w) (fonts w)).

End PIL.

(* ================================================================== *)
(** * src/utils/images.py *)

(** The centre coordinate [int(extent / 2 - inner / 2)] of lines 22-23. *)
Definition center (extent inner : Z) : Z :=
  Py.int (inject_Z extent / 2 - inject_Z inner / 2)%Q.

(** The mathematical floor of the same quantity. *)
Definition center_floor (extent inner : Z) : Z :=
  Qfloor (inject_Z extent / 2 - inject_Z inner / 2)%Q.

Definition paste_and_save_album_image
  (bg cover : Image.t) (display : Z * Z) (text : Image.t) : M unit :=
  let width := fst display in
  let height := snd display in
  let center_x := center width (Image.width cover) in
  let center_y := center height (Image.height cover) in
  PIL.paste bg cover (center_x, center_y) None ;;;
  background <- PIL.new RGB (width, height) ;;
  PIL.paste background bg (0, 0) None ;;;
  PIL.paste background text (0, 0) (Some text) ;;;
  PIL.save background "ImageCache/finalImage.png".

(** [c[0] * 0.299 + c[1] * 0.587 + c[2] * 0.114], in binary64, summed
    left to right. *)
Definition brightness (c : Z * Z * Z) : F64.t :=
  F64.add
    (F64.add (F64.mul (F64.of_int (red c)) F64.lit_0_299)
             (F64.mul (F64.of_int (green c)) F64.lit_0_587))
    (F64.mul (F64.of_int (blue c)) F64.lit_0_114).

(** Lines 59-62: black text on a light colour, white text on a dark one. *)
Definition contrasting_text_color (text_color : Z * Z * Z) : Z * Z * Z :=
  if F64.gtb (brightness text_color) (F64.of_int 186)
  then (0, 0, 0)
  else (255, 255, 255).

Definition newline : string := String (Ascii.ascii_of_nat 10) EmptyString.

Definition generate_text_image
  (song_title artist_name : string) (colors : list Color) (display : Z * Z)
  (position_x position_y : Z) : M Image.t :=
  let width := fst display in
  let height := snd display in
  c0 <- lift (Py.index colors 0) ;;
  let text_color := rgb c0 in
  let text_color := contrasting_text_color text_color in
  text <- PIL.new RGBA (width, height) ;;
  my_font <- PIL.truetype "./fonts/Rubik.ttf" 40 ;;
  PIL.text text (position_x, position_y)
           (song_title ++ newline ++ artist_name) my_font text_color ;;;
  ret text.

(** [0.2126 * r + 0.7152 * g + 0.0722 * b], in binary64, summed left to
    right. *)
Definition calculate_relative_luminance (color : Color) : F64.t :=
  let '(r, g, b) := rgb color in
  F64.add (F64.add (F64.mul F64.lit_0_2126 (F64.of_int r))
                   (F64.mul F64.lit_0_7152 (F64.of_int g)))
          (F64.mul F64.lit_0_0722 (F64.of_int b)).

Definition calculate_contrast_ratio (color1 color2 : Color) : F64.t :=
  let luminance1 := calculate_relative_luminance color1 in
  let luminance2 := calculate_relative_luminance color2 in
  let '(luminance1, luminance2) :=
    if F64.gtb luminance2 luminance1
    then (luminance2, luminance1)
    else (luminance1, luminance2) in
  F64.div (F64.add luminance1 F64.lit_0_05) (F64.add luminance2 F64.lit_0_05).

(** [math.sqrt(c[0]**2 + c[1]**2 + c[2]**2)]: the sum is an exact int,
    converted to binary64 and rooted there. *)
Definition sum_of_squares (c : Z * Z * Z) : Z :=
  red c ^ 2 + green c ^ 2 + blue c ^ 2.

Definition distance_from_black (c : Z * Z * Z) : F64.t :=
  F64.sqrt (F64.of_int (sum_of_squares c)).

Definition find_darkest_color (colors : list Color) : result (list Color) :=
  match Py.index colors 0, Py.index colors 1 with
  | Ok c0, Ok c1 =>
      let distance1 := distance_from_black (rgb c0) in
      let distance2 := distance_from_black (rgb c1) in
      if F64.gtb distance1 distance2 then Ok [c0; c1] else Ok [c1; c0]
  | Raise e, _ => Raise e
  | _, Raise e => Raise e
  end.

(** The width the cover is resized to:
    [int(int(aspect_ratio) * int(new_height))]. *)
Definition scaled_width (aspect_ratio : Q) (new_height : Z) : Z :=
  Py.int aspect_ratio * new_height.

Definition resize_and_center_image
  (image : Image.t) (target_width target_height : Z) : M Image.t :=
  aspect_ratio <- lift (Py.truediv (Image.width image) (Image.height image)) ;;
  let new_height := target_height in
  let new_width := scaled_width aspect_ratio new_height in
  resized_image <- PIL.resize image (new_width, new_height) ;;
  if new_width >? target_width then
    let x_offset := Py.floordiv (new_width - target_width) 2 in
    PIL.crop resized_image (x_offset, 0, x_offset + target_width, new_height)
  else
    ret resized_image.

(** The world before anything ran: no raster work, no file, and the
    typeface of the repository in place. *)
Definition fresh : world := mkWorld [] [] ["./fonts/Rubik.ttf"%string].

(** [a] is not farther from black than [b], on the rounded Euclidean
    distances the code compares. *)
Definition not_farther (a b : Color) : Prop :=
  F64.gtb (distance_from_black (rgb a)) (distance_from_black (rgb b)) = false.

(** The first colour of a result. *)
Definition first_color (r : result (list Color)) : option Color :=
  match r with
  | Ok (c :: _) => Some c
  | _ => None
  end.

Definition cache_path : string := "ImageCache/finalImage.png".

Definition black : Color := mkColor (0, 0, 0).
Definition white : Color := mkColor (255, 255, 255).

(* ================================================================== *)
(** * src/utils/spotify.py

    The client talks to two collaborators outside the repository: the
    token service of spotipy and the HTTP endpoint reached through
    [requests.get].  Both are part of the world: the token service as
    a function of the credentials, the endpoint as a function of the
    number of requests already sent and of the request, answering with
    a response or failing with a [RequestException].  A response
    carries its status code and the value its text decodes to. *)

Module Spotify.

(** Python values, as [json.loads] builds them; numbers are kept to
    ints, the client computing with none of them. *)
#[warnings="-register-all"]
Inductive value : Type :=
| VNone
| VBool (b : bool)
| VInt (n : Z)
| VStr (s : string)
| VList (l : list value)
| VDict (d : list (string * value)).

Inductive error : Type :=
| RequestException (msg : string)
| JSONDecodeError
| AttributeError
| TypeError
| IndexError
| KeyError.

Inductive outcome (A : Type) : Type :=
| Return (a : A)
| Raises (e : error).

Arguments Return {A} a.
Arguments Raises {A} e.

(** [body] is what [json.loads(response.text)] and [response.json()]
    give; [None] when the text is not JSON. *)
Record response : Type := mkResponse { status_code : Z; body : option value }.

Inductive reply : Type :=
| Fails (msg : string)
| Responds (r : response).

Record request : Type := mkRequest {
  url : string;
  headers : list (string * string)
}.

Record net : Type := mkNet {
  grant : string -> string -> string -> string -> string -> option string;
  server : nat -> request -> reply;
  sent : list request;     (* requests sent so far, oldest first *)
  printed : list string    (* lines printed so far, oldest first *)
}.

Definition N (A : Type) : Type := net -> outcome A * net.

Definition ret {A : Type} (a : A) : N A := fun w => (Return a, w).

Definition throw {A : Type} (e : error) : N A := fun w => (Raises e, w).

Definition bind {A B : Type} (m : N A) (k : A -> N B) : N B :=
  fun w => match m w with
           | (Return a, w') => k a w'
           | (Raises e, w') => (Raises e, w')
           end.

Definition lift {A : Type} (o : outcome A) : N A := fun w => (o, w).

(** Sequencing of computations that only raise. *)
Definition andthen {A B : Type} (o : outcome A) (k : A -> outcome B)
  : outcome B :=
  match o with
  | Return a => k a
  | Raises e => Raises e
  end.

(** [print(line)]. *)
Definition print (line : string) : N unit :=
  fun w => (Return tt,
            mkNet (grant w) (server w) (sent w) (printed w ++ [line])).

(** [requests.get(url, headers=headers, timeout=10)]: the request is
    sent, and the endpoint answers or the call raises. *)
Definition requests_get (u : string) (h : list (string * string))
  : N response :=
  fun w =>
    let req := mkRequest u h in
    let w' := mkNet (grant w) (server w) (sent w ++ [req]) (printed w) in
    match server w (List.length (sent w)) req with
    | Fails msg => (Raises (RequestException msg), w')
    | Responds r => (Return r, w')
    end.

(** [json.loads(response.text)] and [response.json()]. *)
Definition json_of (r : response) : outcome value :=
  match body r with
  | Some v => Return v
  | None => Raises JSONDecodeError
  end.

Fixpoint assoc (key : string) (d : list (string * value)) : option value :=
  match d with
  | [] => None
  | (k, v) :: rest => if String.eqb k key then Some v else assoc key rest
  end.

(** [v.get(key)]: only a dict has the method; a missing key gives
    [None]. *)
Definition get (v : value) (key : string) : outcome value :=
  match v with
  | VDict d =>
      match assoc key d with
      | Some x => Return x
      | None => Return VNone
      end
  | _ => Raises AttributeError
  end.

(** [v[0]]. *)
Definition first (v : value) : outcome value :=
  match v with
  | VList (x :: _) => Return x
  | VList [] => Raises IndexError
  | VStr (String c _) => Return (VStr (String c EmptyString))
  | VStr EmptyString => Raises IndexError
  | VDict _ => Raises KeyError
  | VNone | VBool _ | VInt _ => Raises TypeError
  end.

Record client : Type := mkClient {
  client_id : string;
  client_secret : string;
  username : string;
  scope : string;
  token : option string;
  max_tries : Z;
  retry_delay : Z
}.

(** [not self.token]. *)
Definition falsy (t : option string) : bool :=
  match t with
  | None => true
  | Some EmptyString => true
  | Some _ => false
  end.

(** The token inside an f-string. *)
Definition token_text (t : option string) : string :=
  match t with
  | Some s => s
  | None => "None"%string
  end.

(** [authenticate] stores the token on the client; the client after
    the call is returned. *)
Definition authenticate (self : client) : N client :=
  fun w =>
    let t := grant w (username self) (scope self) (client_id self)
                   (client_secret self) "https://www.google.com/" in
    let self := mkClient (client_id self) (client_secret self)
                         (username self) (scope self) t
                         (max_tries self) (retry_delay self) in
    if falsy (token self)
    then (Raises (RequestException "Authentication failed"), w)
    else (Return self, w).

(** [SpotifyClient(client_id, client_secret, username)]. *)
Definition init (client_id client_secret username : string) : N client :=
  authenticate
    (mkClient client_id client_secret username
              "user-read-currently-playing" None 3 5).

Definition currently_playing_url : string :=
  "https://api.spotify.com/v1/me/player/currently-playing".

(** Lines 85-103: the fields read from the decoded content, in the
    order the source reads them, and the dict built from them. *)
Definition song_data (content : value) : outcome value :=
  andthen (get content "is_playing") (fun status =>
  andthen (get content "item") (fun item =>
  andthen (get item "name") (fun name =>
  andthen (get item "album") (fun album =>
  andthen (get album "artists") (fun artists =>
  andthen (first artists) (fun artist =>
  andthen (get artist "name") (fun artist_name =>
  andthen (get item "album") (fun album' =>
  andthen (get album' "images") (fun images =>
  andthen (first images) (fun image =>
  andthen (get image "url") (fun image_url =>
  andthen (get item "id") (fun song_id =>
  andthen (get item "duration_ms") (fun song_length =>
  Return (VDict [("song_title"%string, name);
                 ("artist_name"%string, artist_name);
                 ("image_url"%string, image_url);
                 ("song_id"%string, song_id);
                 ("song_length"%string, song_length);
                 ("playing"%string, status)])))))))))))))).

(** The loop of [get_current_song] with [tries] iterations left.  Only
    a [RequestException] is caught; a response with another status
    than 200 falls through to the next iteration. *)
Fixpoint get_current_song_from (self : client) (tries : nat) : N value :=
  match tries with
  | O => ret VNone
  | S remaining =>
      let header := [("Authorization"%string, ("Bearer " ++ token_text (token self))%string)] in
      fun w =>
        match requests_get currently_playing_url header w with
        | (Raises (RequestException msg), w') =>
            bind (print ("Error while getting current song: " ++ msg)%string)
                 (fun _ => get_current_song_from self remaining) w'
        | (Raises e, w') => (Raises e, w')
        | (Return response, w') =>
            if status_code response =? 200
            then (andthen (json_of response) song_data, w')
            else get_current_song_from self remaining w'
        end
  end.

Definition get_current_song (self : client) : N value :=
  get_current_song_from self (Z.to_nat (max_tries self)).

Definition get_audio_analysis (self : client) (song_id : string) : N value :=
  let url := ("https://api.spotify.com/v1/audio-analysis/" ++ song_id)%string in
  let headers := [("Accept"%string, "application/json"%string);
                  ("Content-Type"%string, "application/json"%string);
                  ("Authorization"%string, ("Bearer " ++ token_text (token self))%string)] in
  bind (requests_get url headers) (fun response =>
  if status_code response =? 200
  then lift (json_of response)
  else bind (print "Error during request") (fun _ => ret VNone)).

(** A reply that makes [get_current_song] try again: a failure of the
    request, or a response whose status is not 200. *)
Definition retried (r : reply) : bool :=
  match r with
  | Fails _ => true
  | Responds resp => negb (status_code resp =? 200)
  end.

(** The content the endpoint sends for a track, reduced to the fields
    the client reads. *)
Definition track (name artist image id : string) (length_ms : Z)
  (playing : bool) : value :=
  VDict [("is_playing"%string, VBool playing);
         ("item"%string,
          VDict [("name"%string, VStr name);
                 ("album"%string,
                  VDict [("artists"%string, VList [VDict [("name"%string, VStr artist)]]);
                         ("images"%string, VList [VDict [("url"%string, VStr image)]])]);
                 ("id"%string, VStr id);
                 ("duration_ms"%string, VInt length_ms)])].

(** The request [get_current_song] sends, each time it tries. *)
Definition current_song_request (self : client) : request :=
  mkRequest currently_playing_url
            [("Authorization"%string,
              ("Bearer " ++ token_text (token self))%string)].

(** The replies the endpoint gives to the next [n] sendings of [req]. *)
Definition replies (w : net) (req : request) (n : nat) : list reply :=
  map (fun i => server w (List.length (sent w) + i)%nat req) (seq 0 n).

(** The lines printed for a run of replies: one per failed request. *)
Fixpoint failure_lines (rs : list reply) : list string :=
  match rs with
  | [] => []
  | Fails msg :: rest =>
      ("Error while getting current song: " ++ msg)%string
      :: failure_lines rest
  | Responds _ :: rest => failure_lines rest
  end.

(** [d.get(key)] as a value: [None] for a missing key. *)
Definition field (key : string) (d : list (string * value)) : value :=
  match assoc key d with
  | Some v => v
  | None => VNone
  end.

End Spotify.

(* ================================================================== *)
(** * Auxiliary definitions for the properties of the pipeline *)

(** A computation that leaves the files and the fonts as they were. *)
Definition keeps_files {A : Type} (m : M A) : Prop :=
  forall w, files (snd (m w)) = files w /\ fonts (snd (m w)) = fonts w.

(** The 256 values of a channel. *)
Definition levels : list Z := map Z.of_nat (seq 0 256).

(** The text colour of a grey and of the three primaries at every
    level, checked against the rule they follow. *)
Definition grey_rule (v : Z) : bool :=
  let expected := if 186 <? v then (0, 0, 0) else (255, 255, 255) in
  let '(r, g, b) := contrasting_text_color (v, v, v) in
  let '(er, eg, eb) := expected in
  (r =? er) && (g =? eg) && (b =? eb).

Definition primary_rule (v : Z) : bool :=
  let white_text c :=
    let '(r, g, b) := contrasting_text_color c in
    (r =? 255) && (g =? 255) && (b =? 255) in
  white_text (v, 0, 0) && white_text (0, v, 0) && white_text (0, 0, v).

(* ================================================================== *)
(** * Auxiliary definitions for the properties of the client *)

(** A client as [init] leaves it, with a token. *)
Definition example_client : Spotify.client :=
  Spotify.mkClient "id" "secret" "user" "user-read-currently-playing"
                   (Some "abc"%string) 3 5.

(** An endpoint that cannot be reached. *)
Definition unreachable : Spotify.net :=
  Spotify.mkNet (fun _ _ _ _ _ => Some "abc"%string)
                (fun _ _ => Spotify.Fails "timed out")
                [] [].

(** An endpoint whose first request fails, whose second is answered
    with 204 and whose later ones are answered with [resp]. *)
Definition flaky (resp : Spotify.response) : Spotify.net :=
  Spotify.mkNet (fun _ _ _ _ _ => Some "abc"%string)
                (fun n _ =>
                   match n with
                   | O => Spotify.Fails "timed out"
                   | S O => Spotify.Responds (Spotify.mkResponse 204 None)
                   | _ => Spotify.Responds resp
                   end)
                [] [].

(** The world after [requests.get] has sent [req]. *)
Definition after_request (w : Spotify.net) (req : Spotify.request)
  : Spotify.net :=
  Spotify.mkNet (Spotify.grant w) (Spotify.server w)
                (Spotify.sent w ++ [req]) (Spotify.printed w).

(** The request [get_audio_analysis] sends. *)
Definition audio_analysis_request (self : Spotify.client) (song_id : string)
  : Spotify.request :=
  Spotify.mkRequest
    ("https://api.spotify.com/v1/audio-analysis/" ++ song_id)%string
    [("Accept"%string, "application/json"%string);
     ("Content-Type"%string, "application/json"%string);
     ("Authorization"%string,
      ("Bearer " ++ Spotify.token_text (Spotify.token self))%string)].

(* ================================================================== *)
(** * Auxiliary definitions for the rounding of binary64 *)

(** [m / 2^n] rounded to the nearest integer, ties to even. *)
Definition nearest (m n : Z) : Z :=
  let q := m / 2 ^ n in
  match 2 * (m mod 2 ^ n) ?= 2 ^ n with
  | Lt => q
  | Eq => if Z.even q then q else q + 1
  | Gt => q + 1
  end.

(** What a shift record holds after [k] shifts of [m0]: the quotient,
    and in its two flags the place of the remainder against the half. *)
Definition shifted (m0 k : Z) (r : shr_record) : Prop :=
  exists rem,
    m0 = shr_m r * 2 ^ k + rem /\ 0 <= rem < 2 ^ k /\ 0 <= shr_m r
    /\ shr_r r = (2 ^ k <=? 2 * rem)
    /\ shr_s r = negb (rem =? 0) && negb (2 * rem =? 2 ^ k).

(** The value of a non-negative number, in units of 2^-1074 (the
    smallest positive binary64 number), so that it is an integer. *)
Definition val (f : spec_float) : Z :=
  match f with
  | S754_finite false m e => Zpos m * 2 ^ (e + 1074)
  | _ => 0
  end.

(** A value rounded to 53 significant bits, ties to even. *)
Definition rnd (X : Z) : Z :=
  let n := Zdigits2 X - 53 in nearest X n * 2 ^ n.

(** The positive normal numbers, and with zero the numbers the
    luminance and the brightness range over. *)
Definition pos53 (f : spec_float) : Prop :=
  exists m e, f = S754_finite false m e
              /\ Zpos (digits2_pos m) = 53 /\ -1074 <= e <= 971.

Definition nonneg (f : spec_float) : Prop := f = S754_zero false \/ pos53 f.

(** A product of a channel by a weight: zero or a normal number below
    256. *)
Definition small_product (p : F64.t) : bool :=
  match p with
  | S754_zero false => true
  | S754_finite false m e =>
      (Zpos (digits2_pos m) =? 53) && (-1074 <=? e) && (e <=? -45)
  | _ => false
  end.

(** A product of a channel [v] by a weight of [w] thousandths: within
    2^-44 of the exact product. *)
Definition close_product (w : Z) (p : F64.t) (v : Z) : bool :=
  small_product p
  && (Z.abs (1000 * val p - w * v * 2 ^ 1074) <=? 1000 * 2 ^ 1030).

Definition luminance_products (v : Z) : bool :=
  small_product (F64.mul F64.lit_0_2126 (F64.of_int v))
  && small_product (F64.mul F64.lit_0_7152 (F64.of_int v))
  && small_product (F64.mul F64.lit_0_0722 (F64.of_int v)).

Definition brightness_products (v : Z) : bool :=
  close_product 299 (F64.mul (F64.of_int v) F64.lit_0_299) v
  && close_product 587 (F64.mul (F64.of_int v) F64.lit_0_587) v
  && close_product 114 (F64.mul (F64.of_int v) F64.lit_0_114) v.

(** The colours whose weighted sum 0.299 R + 0.587 G + 0.114 B is
    exactly 186: for each red and green the one blue, if any, and the
    text colour found there. *)
Definition tie_rule (r g : Z) : bool :=
  let rest := 186000 - 299 * r - 587 * g in
  let b := rest / 114 in
  if (rest mod 114 =? 0) && (0 <=? b) && (b <=? 255)
  then
    let '(x, y, z) := contrasting_text_color (r, g, b) in
    if (r =? 170) && (g =? 226) && (b =? 22)
    then (x =? 0) && (y =? 0) && (z =? 0)
    else (x =? 255) && (y =? 255) && (z =? 255)
  else true.

(* ================================================================== *)
(** * Auxiliary definitions for the binary64 square root *)

(** The number of base-4 digits of [p]: [4^(j-1) <= p < 4^j]. *)
Definition quat_digits (p : positive) : Z := (Zpos (digits2_pos p) + 1) / 2.

(** The 53-bit significand of the correctly rounded square root of an
    int [n] with [j] base-4 digits: the integer square root of [n]
    scaled by [4^(53-j)], rounded to nearest on the remainder. *)
Definition sqrt_mant (n j : Z) : Z :=
  let A := n * 2 ^ (106 - 2 * j) in
  let q := Z.sqrt A in
  let r := A - q * q in
  if r =? 0 then q else if r <=? q then q else q + 1.

(** The float [2.0], and [z / 2] in binary64 for an int [z]. *)
Definition two : F64.t := F64.of_int 2.

Definition half (z : Z) : F64.t := F64.div (F64.of_int z) two.

(** Unfolds the plumbing of [M]. *)
Ltac run_monad :=
  cbv beta iota delta [bind ret raise lift log] in *; cbn [fst snd] in *.

(* ================================================================== *)
(** * Facts about binary64

    The conversion of an int below 2^53 is exact, and the square root
    of an int below 2^50 has a closed form from which its strict
    monotonicity follows: two different radicands never round to the
    same root, so comparing the roots is comparing the radicands. *)

Lemma digits2_bounds (p : positive) :
  2 ^ (Zpos (digits2_pos p) - 1) <= Zpos p < 2 ^ Zpos (digits2_pos p).
Proof.
  induction p as [p IH | p IH | ]; cbn [digits2_pos].
  - rewrite Pos2Z.inj_succ.
    replace (Z.succ (Zpos (digits2_pos p)) - 1) with (Z.succ (Zpos (digits2_pos p) - 1)) by lia.
    rewrite !Z.pow_succ_r by lia. lia.
  - rewrite Pos2Z.inj_succ.
    replace (Z.succ (Zpos (digits2_pos p)) - 1) with (Z.succ (Zpos (digits2_pos p) - 1)) by lia.
    rewrite !Z.pow_succ_r by lia. lia.
  - cbn. lia.
Qed.

Lemma digits2_unique (p : positive) (k : Z) :
  2 ^ (k - 1) <= Zpos p < 2 ^ k -> Zpos (digits2_pos p) = k.
Proof.
  intros [Hlo Hhi].
  pose proof (digits2_bounds p) as [Dlo Dhi].
  assert (0 < k).
  { destruct (Z.ltb_spec 0 k); [assumption|].
    exfalso. assert (2 ^ k <= 2 ^ 0) by (apply Z.pow_le_mono_r; lia).
    change (2 ^ 0) with 1 in *. lia. }
  set (d := Zpos (digits2_pos p)) in *.
  assert (d - 1 < k).
  { apply (Z.pow_lt_mono_r_iff 2); lia. }
  assert (k - 1 < d).
  { apply (Z.pow_lt_mono_r_iff 2); lia. }
  lia.
Qed.

Lemma iter_xO_pow (p k : positive) :
  Zpos (Pos.iter xO p k) = Zpos p * 2 ^ Zpos k.
Proof.
  induction k as [|k IHk] using Pos.peano_ind.
  - cbn. lia.
  - rewrite Pos.iter_succ, Pos2Z.inj_xO, IHk, Pos2Z.inj_succ, Z.pow_succ_r by lia. lia.
Qed.

Lemma fexp_normal (x : Z) : -1021 <= x -> fexp 53 1024 x = x - 53.
Proof. intros H. unfold fexp, emin. lia. Qed.

Lemma loc_of_shr_record_of_loc (m : Z) (l : location) :
  loc_of_shr_record (shr_record_of_loc m l) = l.
Proof. destruct l as [|[| |]]; reflexivity. Qed.

Lemma shr_m_of_loc (m : Z) (l : location) : shr_m (shr_record_of_loc m l) = m.
Proof. destruct l as [|[| |]]; reflexivity. Qed.

Lemma shr_fexp_53 (m : positive) (e : Z) (l : location) :
  Zpos (digits2_pos m) = 53 -> -1074 <= e ->
  shr_fexp 53 1024 (Zpos m) e l = (shr_record_of_loc (Zpos m) l, e).
Proof.
  intros Hd He. unfold shr_fexp. cbn [Zdigits2]. rewrite Hd.
  rewrite fexp_normal by lia.
  replace (53 + e - 53 - e) with 0 by lia. reflexivity.
Qed.

Lemma round_nearest_even_bounds (m : Z) (l : location) :
  m <= round_nearest_even m l <= m + 1.
Proof.
  destruct l as [|[| |]]; cbn; try lia. destruct (Z.even m); lia.
Qed.

Lemma binary_round_aux_53 (s : bool) (m : positive) (e : Z) (l : location) :
  Zpos (digits2_pos m) = 53 -> -1074 <= e <= 971 ->
  round_nearest_even (Zpos m) l < 2 ^ 53 ->
  binary_round_aux 53 1024 s (Zpos m) e l
  = S754_finite s (Z.to_pos (round_nearest_even (Zpos m) l)) e.
Proof.
  intros Hd He Hr. unfold binary_round_aux.
  rewrite shr_fexp_53 by lia.
  rewrite shr_m_of_loc, loc_of_shr_record_of_loc.
  pose proof (round_nearest_even_bounds (Zpos m) l) as Hb.
  pose proof (digits2_bounds m) as Hm. rewrite Hd in Hm.
  change (53 - 1) with 52 in Hm.
  destruct (round_nearest_even (Zpos m) l) as [|M|M] eqn:EM; try lia.
  rewrite shr_fexp_53; try lia.
  - cbn [shr_m shr_record_of_loc]. 
    replace (e <=? 1024 - 53) with true by (symmetry; apply Z.leb_le; lia).
    reflexivity.
  - apply digits2_unique. change (53 - 1) with 52. lia.
Qed.

Lemma scale_bounds (x lo hi s L H : Z) :
  lo <= x < hi -> 0 < s -> lo * s = L -> hi * s = H -> L <= x * s < H.
Proof. intros. nia. Qed.

Lemma pow2_split (a b c : Z) : 0 <= a -> 0 <= b -> a + b = c -> 2 ^ a * 2 ^ b = 2 ^ c.
Proof. intros Ha Hb <-. now rewrite Z.pow_add_r. Qed.

Lemma pow2_pos (a : Z) : 0 <= a -> 0 < 2 ^ a.
Proof. intros. apply Z.pow_pos_nonneg; lia. Qed.

Lemma of_int_pos_normal (p : positive) :
  let d := Zpos (digits2_pos p) in
  d < 53 ->
  F64.of_int (Zpos p) = S754_finite false (Pos.iter xO p (Z.to_pos (53 - d))) (d - 53).
Proof.
  intros d Hd. unfold F64.of_int, F64.prec, F64.emax, binary_normalize, binary_round.
  fold d. rewrite fexp_normal by lia.
  unfold shl_align.
  destruct (d + 0 - 53 - 0) as [|k|k] eqn:Ek; try lia.
  replace (Z.to_pos (53 - d)) with k by lia.
  replace (d + 0 - 53) with (d - 53) by lia.
  assert (Hk : Zpos k = 53 - d) by lia.
  pose proof (digits2_bounds p) as Hb. fold d in Hb.
  assert (Hs : 2 ^ 52 <= Zpos (Pos.iter xO p k) < 2 ^ 53).
  { rewrite iter_xO_pow, Hk.
    apply (scale_bounds _ _ _ _ _ _ Hb); [apply pow2_pos; lia | | ];
      apply pow2_split; lia. }
  rewrite binary_round_aux_53.
  - reflexivity.
  - apply digits2_unique. exact Hs.
  - lia.
  - cbn [round_nearest_even]. lia.
Qed.

Lemma quat_digits_bounds (p : positive) :
  let j := quat_digits p in
  2 ^ (2 * j - 2) <= Zpos p < 2 ^ (2 * j) /\ 1 <= j.
Proof.
  intros j. pose proof (digits2_bounds p) as [Hlo Hhi].
  set (d := Zpos (digits2_pos p)) in *.
  assert (Hd : 1 <= d) by (unfold d; lia).
  assert (Hj : 2 * j <= d + 1 < 2 * j + 2).
  { unfold j, quat_digits. fold d.
    pose proof (Z.div_mod (d + 1) 2 ltac:(lia)).
    pose proof (Z.mod_pos_bound (d + 1) 2 ltac:(lia)). lia. }
  split; [split|lia].
  - apply Z.le_trans with (2 ^ (d - 1)); [|assumption].
    apply Z.pow_le_mono_r; lia.
  - apply Z.lt_le_trans with (2 ^ d); [assumption|].
    apply Z.pow_le_mono_r; lia.
Qed.

Lemma class_T_big (j : Z) : 1 <= j <= 25 -> 2 ^ 56 <= 2 ^ (106 - 2 * j).
Proof. intros Hj. apply Z.pow_le_mono_r; lia. Qed.

Lemma class_A_bounds (n j : Z) :
  1 <= j <= 25 -> 2 ^ (2 * j - 2) <= n < 2 ^ (2 * j) ->
  2 ^ 104 <= n * 2 ^ (106 - 2 * j) <= 2 ^ 106 - 2 ^ (106 - 2 * j).
Proof.
  intros Hj Hn. set (T := 2 ^ (106 - 2 * j)).
  assert (HT : 0 < T) by (apply pow2_pos; lia).
  assert (E1 : 2 ^ (2 * j - 2) * T = 2 ^ 104) by (apply pow2_split; lia).
  assert (E2 : 2 ^ (2 * j) * T = 2 ^ 106) by (apply pow2_split; lia).
  nia.
Qed.

Lemma class_q_bounds (n j : Z) :
  1 <= j <= 25 -> 2 ^ (2 * j - 2) <= n < 2 ^ (2 * j) ->
  2 ^ 52 <= Z.sqrt (n * 2 ^ (106 - 2 * j)) <= 2 ^ 53 - 2.
Proof.
  intros Hj Hn.
  pose proof (class_A_bounds n j Hj Hn) as HA.
  pose proof (class_T_big j Hj) as HT.
  split.
  - apply Z.sqrt_le_square; lia.
  - assert (Z.sqrt (n * 2 ^ (106 - 2 * j)) < 2 ^ 53 - 1); [|lia].
    apply Z.sqrt_lt_square; lia.
Qed.

Lemma class_mant_bounds (n j : Z) :
  Z.sqrt (n * 2 ^ (106 - 2 * j)) <= sqrt_mant n j
  <= Z.sqrt (n * 2 ^ (106 - 2 * j)) + 1.
Proof.
  unfold sqrt_mant. cbv zeta.
  destruct (_ =? 0); [lia|]. destruct (_ <=? _); lia.
Qed.

Lemma sqrt_of_int_closed_form (p : positive) :
  Zpos p < 2 ^ 50 ->
  F64.sqrt (F64.of_int (Zpos p))
  = S754_finite false (Z.to_pos (sqrt_mant (Zpos p) (quat_digits p)))
                (quat_digits p - 53).
Proof.
  intros Hp.
  pose proof (digits2_bounds p) as Hb.
  pose proof (quat_digits_bounds p) as [Hq Hj1]. 
  set (j := quat_digits p) in *.
  assert (Hd : Zpos (digits2_pos p) <= 50).
  { destruct (Z.leb_spec (Zpos (digits2_pos p)) 50); [assumption|exfalso].
    assert (2 ^ 50 <= 2 ^ (Zpos (digits2_pos p) - 1)) by (apply Z.pow_le_mono_r; lia).
    lia. }
  assert (Hjd : 2 * j <= Zpos (digits2_pos p) + 1 < 2 * j + 2).
  { unfold j, quat_digits.
    pose proof (Z.div_mod (Zpos (digits2_pos p) + 1) 2 ltac:(lia)).
    pose proof (Z.mod_pos_bound (Zpos (digits2_pos p) + 1) 2 ltac:(lia)). lia. }
  rewrite of_int_pos_normal by lia.
  set (d := Zpos (digits2_pos p)) in *.
  set (mx := Pos.iter xO p (Z.to_pos (53 - d))).
  assert (Hmx : Zpos mx = Zpos p * 2 ^ (53 - d)).
  { unfold mx. rewrite iter_xO_pow. f_equal. f_equal. lia. }
  assert (Hdm : Zpos (digits2_pos mx) = 53).
  { apply digits2_unique. rewrite Hmx.
    apply (scale_bounds _ _ _ _ _ _ Hb); [apply pow2_pos; lia | | ];
      apply pow2_split; lia. }
  unfold F64.sqrt, F64.prec, F64.emax, SFsqrt, SFsqrt_core_binary. cbn [Zdigits2]. rewrite Hdm.
  replace (53 + (d - 53) + 1) with (d + 1) by lia.
  rewrite !Z.div2_div. change ((d + 1) / 2) with j.
  rewrite fexp_normal by lia.
  assert (Hdiv : (d - 53) / 2 = j - 27).
  { replace (d - 53) with ((d + 1) + (-27) * 2) by lia.
    rewrite Z.div_add by lia. reflexivity. }
  rewrite Hdiv. replace (Z.min (j - 53) (j - 27)) with (j - 53) by lia.
  destruct (d - 53 - 2 * (j - 53)) as [|s|s] eqn:Es; try lia.
  rewrite Z.shiftl_mul_pow2 by lia. rewrite Hmx.
  assert (HA : Zpos p * 2 ^ (53 - d) * 2 ^ Zpos s = Zpos p * 2 ^ (106 - 2 * j)).
  { rewrite <- Z.mul_assoc. f_equal. apply pow2_split; lia. }
  rewrite HA.
  assert (Hcls : 1 <= j <= 25) by lia.
  pose proof (class_q_bounds (Zpos p) j Hcls Hq) as Hqb.
  pose proof (class_mant_bounds (Zpos p) j) as Hmb.
  unfold sqrt_mant in *.
  set (A := Zpos p * 2 ^ (106 - 2 * j)) in *.
  pose proof (Z.sqrtrem_spec A) as Hspec.
  pose proof (Z.sqrtrem_sqrt A) as Hsq.
  destruct (Z.sqrtrem A) as [q r]. cbn [fst] in Hsq. subst q.
  assert (0 <= A) by (unfold A; assert (0 < 2 ^ (106 - 2 * j)) by (apply pow2_pos; lia); nia).
  specialize (Hspec ltac:(assumption)). destruct Hspec as [Hspec Hr].
  replace (A - Z.sqrt A * Z.sqrt A) with r in * by lia.
  destruct (Z.sqrt A) as [|q|q] eqn:Eq; try lia.
  rewrite binary_round_aux_53.
  - f_equal. f_equal. destruct (r =? 0); [reflexivity|].
    destruct (r <=? Zpos q); reflexivity.
  - apply digits2_unique. change (53 - 1) with 52. lia.
  - lia.
  - destruct (r =? 0); [cbn; lia|]. destruct (r <=? Zpos q); cbn; lia.
Qed.

Lemma class_sqrt_gap (a b j : Z) :
  1 <= j <= 25 ->
  2 ^ (2 * j - 2) <= a < 2 ^ (2 * j) ->
  2 ^ (2 * j - 2) <= b < 2 ^ (2 * j) ->
  a < b ->
  sqrt_mant a j < sqrt_mant b j.
Proof.
  intros Hj Ha Hb Hab.
  pose proof (class_mant_bounds a j) as Hma.
  pose proof (class_mant_bounds b j) as Hmb.
  pose proof (class_q_bounds a j Hj Ha) as Hqa.
  pose proof (class_A_bounds a j Hj Ha) as HAa.
  pose proof (class_T_big j Hj) as HT.
  set (T := 2 ^ (106 - 2 * j)) in *.
  set (qa := Z.sqrt (a * T)) in *.
  assert (Hsa : qa * qa <= a * T).
  { destruct (Z.sqrt_spec (a * T) ltac:(lia)) as [H1 _]. exact H1. }
  assert (qa + 2 <= Z.sqrt (b * T)); [|lia].
  apply Z.sqrt_le_square; nia.
Qed.

Lemma SFltb_irrefl (x : spec_float) : SFltb x x = false.
Proof.
  unfold SFltb, SFcompare.
  destruct x as [s|[|]| |[|] m e]; try reflexivity;
    rewrite Z.compare_refl, Pos.compare_cont_refl; reflexivity.
Qed.

Lemma SFltb_asym (x y : spec_float) : SFltb x y = true -> SFltb y x = false.
Proof.
  unfold SFltb, SFcompare.
  destruct x as [sx|[|]| |[|] mx ex], y as [sy|[|]| |[|] my ey];
    try reflexivity; try discriminate;
    change (Pos.compare_cont Eq my mx) with (Pos.compare my mx);
    change (Pos.compare_cont Eq mx my) with (Pos.compare mx my);
    rewrite (Z.compare_antisym ex ey), (Pos.compare_antisym mx my);
    destruct (ex ?= ey); cbn; try discriminate; try reflexivity;
    destruct (mx ?= my)%positive; cbn; try discriminate; reflexivity.
Qed.

Lemma sqrt_of_int_lt_pos (a b : positive) :
  Zpos b < 2 ^ 50 -> (a < b)%positive ->
  SFltb (F64.sqrt (F64.of_int (Zpos a))) (F64.sqrt (F64.of_int (Zpos b))) = true.
Proof.
  intros Hb Hab.
  rewrite !sqrt_of_int_closed_form by lia.
  pose proof (quat_digits_bounds a) as [Ha1 Ha2].
  pose proof (quat_digits_bounds b) as [Hb1 Hb2].
  set (ja := quat_digits a) in *. set (jb := quat_digits b) in *.
  assert (Hjb : jb <= 25).
  { destruct (Z.leb_spec jb 25); [assumption|exfalso].
    assert (2 ^ 50 <= 2 ^ (2 * jb - 2)) by (apply Z.pow_le_mono_r; lia). lia. }
  assert (Hjab : ja <= jb).
  { destruct (Z.leb_spec ja jb); [assumption|exfalso].
    assert (2 ^ (2 * jb) <= 2 ^ (2 * ja - 2)) by (apply Z.pow_le_mono_r; lia). lia. }
  unfold SFltb, SFcompare.
  destruct (Z.compare_spec (ja - 53) (jb - 53)) as [E|L|G]; [|reflexivity|exfalso; lia].
  assert (ja = jb) as Ej by lia.
  pose proof (class_sqrt_gap (Zpos a) (Zpos b) jb ltac:(lia)) as Hgap.
  rewrite Ej in *. specialize (Hgap Ha1 Hb1 ltac:(lia)).
  pose proof (class_mant_bounds (Zpos a) jb) as Hma.
  pose proof (class_q_bounds (Zpos a) jb ltac:(lia) Ha1) as Hqa.
  change (Pos.compare_cont Eq ?x ?y) with (Pos.compare x y).
  pose proof (class_mant_bounds (Zpos b) jb) as Hmb.
  pose proof (class_q_bounds (Zpos b) jb ltac:(lia) Hb1) as Hqb.
  destruct (Pos.compare_spec (Z.to_pos (sqrt_mant (Zpos a) jb))
                             (Z.to_pos (sqrt_mant (Zpos b) jb))) as [E'|L'|G'];
    [exfalso|reflexivity|exfalso]; lia.
Qed.

Lemma sqrt_of_int_ltb (a b : Z) :
  0 <= a < 2 ^ 50 -> 0 <= b < 2 ^ 50 ->
  SFltb (F64.sqrt (F64.of_int a)) (F64.sqrt (F64.of_int b)) = (a <? b).
Proof.
  assert (Hlt : forall x y, 0 <= x < 2 ^ 50 -> 0 <= y < 2 ^ 50 -> x < y ->
                  SFltb (F64.sqrt (F64.of_int x)) (F64.sqrt (F64.of_int y)) = true).
  { intros x y Hx Hy Hxy. destruct y as [|y|y]; try lia.
    destruct x as [|x|x]; try lia.
    - rewrite sqrt_of_int_closed_form by lia. reflexivity.
    - apply sqrt_of_int_lt_pos; lia. }
  intros Ha Hb. destruct (Z.ltb_spec a b) as [L|G].
  - apply Hlt; assumption.
  - destruct (Z.eq_dec a b) as [->|N].
    + apply SFltb_irrefl.
    + apply SFltb_asym. apply Hlt; try assumption. lia.
Qed.


(* ================================================================== *)
(** * Facts about binary64: quotients and halves

    The quotient of two ints below 2^52 truncates to their integer
    quotient: the rounding of the division never reaches the next
    integer.  Halving such an int and subtracting two halves are
    exact. *)

Lemma shr_1_m (m : positive) (l : location) :
  shr_m (shr_1 (shr_record_of_loc (Zpos m) l)) = Zpos m / 2.
Proof.
  destruct l as [|[| |]], m as [m|m|]; cbn [shr_record_of_loc shr_1 shr_m orb];
    try reflexivity.
  all: try (apply Z.div_unique with 1; lia).
  all: try (apply Z.div_unique with 0; lia).
Qed.

(* rounding after one shift: up only when the bit shifted out was set *)
Lemma round_shr_1 (m : positive) (l : location) :
  let r := shr_1 (shr_record_of_loc (Zpos m) l) in
  let M := round_nearest_even (shr_m r) (loc_of_shr_record r) in
  Zpos m / 2 <= M <= Zpos m / 2 + 1
  /\ (M = Zpos m / 2 + 1 -> Z.odd (Zpos m) = true).
Proof.
  intros r M. pose proof (shr_1_m m l) as Hm. fold r in Hm.
  pose proof (round_nearest_even_bounds (shr_m r) (loc_of_shr_record r)) as Hb.
  fold M in Hb. rewrite Hm in Hb. split; [exact Hb|].
  intros HM. subst M r.
  destruct l as [|[| |]], m as [m|m|]; try reflexivity; exfalso;
    cbn [shr_record_of_loc shr_1 shr_m orb loc_of_shr_record round_nearest_even] in *;
    lia.
Qed.

Lemma shr_fexp_54 (m : positive) (e : Z) (l : location) :
  Zpos (digits2_pos m) = 54 -> -1074 <= e ->
  shr_fexp 53 1024 (Zpos m) e l
  = (shr_1 (shr_record_of_loc (Zpos m) l), e + 1).
Proof.
  intros Hd He. unfold shr_fexp. cbn [Zdigits2]. rewrite Hd.
  rewrite fexp_normal by lia.
  replace (54 + e - 53 - e) with 1 by lia. reflexivity.
Qed.

(* a 54-bit significand loses its last bit *)
Lemma binary_round_aux_54 (s : bool) (m : positive) (e : Z) (l : location) :
  Zpos (digits2_pos m) = 54 -> -1074 <= e <= 970 ->
  Zpos m <= 2 ^ 54 - 2 ->
  exists M : positive,
    binary_round_aux 53 1024 s (Zpos m) e l = S754_finite s M (e + 1)
    /\ Zpos m / 2 <= Zpos M <= Zpos m / 2 + 1
    /\ Zpos M < 2 ^ 53.
Proof.
  intros Hd He Hm. unfold binary_round_aux.
  rewrite shr_fexp_54 by lia.
  pose proof (round_shr_1 m l) as [Hb Hodd]. cbv zeta in Hb, Hodd.
  set (r := shr_1 (shr_record_of_loc (Zpos m) l)) in *.
  set (M := round_nearest_even (shr_m r) (loc_of_shr_record r)) in *.
  pose proof (digits2_bounds m) as Hdm. rewrite Hd in Hdm.
  change (54 - 1) with 53 in Hdm.
  assert (Hhalf : 2 ^ 52 <= Zpos m / 2 <= 2 ^ 53 - 1).
  { split.
    - apply Z.div_le_lower_bound; lia.
    - apply Z.div_le_upper_bound; lia. }
  assert (HM : M < 2 ^ 53).
  { destruct (Z.eq_dec M (Zpos m / 2 + 1)) as [E|E]; [|lia].
    specialize (Hodd E).
    assert (Zpos m <> 2 ^ 54 - 2) by (intros E2; rewrite E2 in Hodd; discriminate).
    assert (Zpos m / 2 < 2 ^ 53 - 1); [|lia].
    apply Z.div_lt_upper_bound; lia. }
  destruct M as [|M'|M'] eqn:EM; try lia.
  rewrite shr_fexp_53; [| apply digits2_unique; change (53 - 1) with 52; lia | lia].
  cbn [shr_m shr_record_of_loc].
  replace (e + 1 <=? 1024 - 53) with true by (symmetry; apply Z.leb_le; lia).
  exists M'. repeat split; lia.
Qed.

Lemma digits_lt_53 (p : positive) : Zpos p < 2 ^ 52 -> Zpos (digits2_pos p) < 53.
Proof.
  intros Hp. pose proof (digits2_bounds p) as [Hlo _].
  destruct (Z.ltb_spec (Zpos (digits2_pos p)) 53); [assumption|exfalso].
  assert (2 ^ 52 <= 2 ^ (Zpos (digits2_pos p) - 1)) by (apply Z.pow_le_mono_r; lia).
  lia.
Qed.

(* the integer arithmetic of a quotient of two 53-bit significands *)
Lemma scaled_quotient_bounds (a b k N q : Z) :
  0 < b -> b * k <= a < b * k + b -> 2 * b < N ->
  q * b <= a * N < (q + 1) * b ->
  k * N <= q /\ q + 2 < (k + 1) * N.
Proof.
  intros Hb Hk HN Hq.
  assert (H1 : b * k * N <= a * N) by (apply Z.mul_le_mono_nonneg_r; lia).
  assert (H2 : a * N <= (b * k + b - 1) * N)
    by (apply Z.mul_le_mono_nonneg_r; lia).
  split.
  - apply Z.lt_succ_r. apply Z.mul_lt_mono_pos_l with b; lia.
  - apply Z.mul_lt_mono_pos_l with b; lia.
Qed.

Lemma quotient_of_scaled (a b P Q N ma mb q r : Z) :
  0 < Q -> ma = a * P -> mb = b * Q -> N * Q = P * 2 ^ 53 ->
  ma * 2 ^ 53 = mb * q + r -> 0 <= r < mb ->
  q * b <= a * N < (q + 1) * b.
Proof.
  intros HQ Hma Hmb HNQ Hq Hr.
  assert (E : a * N * Q = ma * 2 ^ 53).
  { rewrite Hma, <- !Z.mul_assoc, HNQ. reflexivity. }
  split.
  - apply Z.mul_le_mono_pos_r with Q; [assumption|]. rewrite E, Hq, Hmb. lia.
  - apply Z.mul_lt_mono_pos_r with Q; [assumption|]. rewrite E, Hq.
    rewrite Hmb in Hr |- *. lia.
Qed.

Lemma quotient_53_54 (ma mb q r : Z) :
  2 ^ 52 <= ma < 2 ^ 53 -> 2 ^ 52 <= mb < 2 ^ 53 ->
  ma * 2 ^ 53 = mb * q + r -> 0 <= r < mb ->
  2 ^ 52 <= q <= 2 ^ 54 - 2.
Proof.
  intros Ha Hb Hq Hr. split.
  - destruct (Z.leb_spec (2 ^ 52) q) as [H|H]; [exact H|exfalso].
    assert (mb * q <= mb * (2 ^ 52 - 1)) by (apply Z.mul_le_mono_nonneg_l; lia).
    lia.
  - destruct (Z.leb_spec q (2 ^ 54 - 2)) as [H|H]; [exact H|exfalso].
    assert (mb * (2 ^ 54 - 1) <= mb * q) by (apply Z.mul_le_mono_nonneg_l; lia).
    lia.
Qed.

Lemma to_int_div_pos (a b : positive) :
  Zpos a < 2 ^ 52 -> Zpos b < 2 ^ 52 ->
  F64.to_int (SFdiv 53 1024 (F64.of_int (Zpos a)) (F64.of_int (Zpos b)))
  = Ok (Zpos a / Zpos b).
Proof.
  intros Ha Hb.
  pose proof (digits_lt_53 a Ha) as Hda. pose proof (digits_lt_53 b Hb) as Hdb.
  pose proof (digits2_bounds a) as Hba. pose proof (digits2_bounds b) as Hbb.
  rewrite !of_int_pos_normal by assumption.
  set (da := Zpos (digits2_pos a)) in *. set (db := Zpos (digits2_pos b)) in *.
  assert (H1a : 1 <= da) by (unfold da; lia).
  assert (H1b : 1 <= db) by (unfold db; lia).
  set (ma := Pos.iter xO a (Z.to_pos (53 - da))).
  set (mb := Pos.iter xO b (Z.to_pos (53 - db))).
  set (P := 2 ^ (53 - da)). set (Q := 2 ^ (53 - db)).
  assert (Hma : Zpos ma = Zpos a * P).
  { unfold ma, P. rewrite iter_xO_pow. f_equal. f_equal. lia. }
  assert (Hmb : Zpos mb = Zpos b * Q).
  { unfold mb, Q. rewrite iter_xO_pow. f_equal. f_equal. lia. }
  assert (HP : 0 < P) by (apply pow2_pos; lia).
  assert (HQ : 0 < Q) by (apply pow2_pos; lia).
  assert (Hra : 2 ^ 52 <= Zpos ma < 2 ^ 53).
  { rewrite Hma. apply (scale_bounds _ _ _ _ _ _ Hba); [assumption | | ];
      apply pow2_split; lia. }
  assert (Hrb : 2 ^ 52 <= Zpos mb < 2 ^ 53).
  { rewrite Hmb. apply (scale_bounds _ _ _ _ _ _ Hbb); [assumption | | ];
      apply pow2_split; lia. }
  assert (Hdma : Zpos (digits2_pos ma) = 53) by (apply digits2_unique; exact Hra).
  assert (Hdmb : Zpos (digits2_pos mb) = 53) by (apply digits2_unique; exact Hrb).
  unfold SFdiv, SFdiv_core_binary. cbn [Zdigits2 xorb]. rewrite Hdma, Hdmb.
  replace (53 + (da - 53) - (53 + (db - 53))) with (da - db) by lia.
  replace (da - 53 - (db - 53)) with (da - db) by lia.
  rewrite fexp_normal by lia.
  replace (Z.min (da - db - 53) (da - db)) with (da - db - 53) by lia.
  replace (da - db - (da - db - 53)) with 53 by lia.
  rewrite Z.shiftl_mul_pow2 by lia.
  (* the scale of the quotient *)
  set (N := 2 ^ (53 - (da - db))).
  assert (HNQ : N * Q = P * 2 ^ 53).
  { unfold N, Q, P. rewrite !pow2_split with (c := 106 - da); lia. }
  assert (HNb : 2 * Zpos b < N).
  { assert (2 ^ (db + 1) <= N) by (apply Z.pow_le_mono_r; lia).
    rewrite Z.pow_add_r, Z.pow_1_r in H by lia. lia. }
  pose proof (Z_div_mod (Zpos ma * 2 ^ 53) (Zpos mb) ltac:(lia)) as Hdiv.
  destruct (Z.div_eucl (Zpos ma * 2 ^ 53) (Zpos mb)) as [q r].
  destruct Hdiv as [Hq Hr].
  set (k := Zpos a / Zpos b).
  pose proof (Z.div_mod (Zpos a) (Zpos b) ltac:(lia)) as Hk.
  pose proof (Z.mod_pos_bound (Zpos a) (Zpos b) ltac:(lia)) as Hk'.
  fold k in Hk.
  assert (Hk0 : 0 <= k) by (apply Z.div_pos; lia).
  assert (HN : 0 < N) by (apply pow2_pos; lia).
  pose proof (quotient_of_scaled _ _ _ _ _ _ _ _ _ HQ Hma Hmb HNQ Hq Hr) as F0.
  destruct (scaled_quotient_bounds (Zpos a) (Zpos b) k N q) as [F1 F2];
    [lia | lia | exact HNb | exact F0 |].
  pose proof (quotient_53_54 _ _ _ _ Hra Hrb Hq Hr) as F3.
  set (l := new_location (Zpos mb) r).
  destruct q as [|q|q]; try lia.
  destruct (Z.ltb_spec (Zpos q) (2 ^ 53)) as [Hlt|Hge].
  - (* 53 bits *)
    pose proof (round_nearest_even_bounds (Zpos q) l) as Hrb'.
    assert (Hq53 : Zpos q <= 2 ^ 53 - 2).
    { assert (Hab : Zpos ma < Zpos mb).
      { assert (Zpos mb * (Zpos q + 1) <= Zpos mb * 2 ^ 53)
          by (apply Z.mul_le_mono_nonneg_l; lia).
        assert (Zpos ma * 2 ^ 53 < Zpos mb * 2 ^ 53) by lia.
        apply Z.mul_lt_mono_pos_r with (2 ^ 53); lia. }
      destruct (Z.leb_spec (Zpos q) (2 ^ 53 - 2)) as [Hle|Hgt]; [exact Hle|exfalso].
      assert (Zpos mb * (2 ^ 53 - 1) <= Zpos mb * Zpos q)
        by (apply Z.mul_le_mono_nonneg_l; lia).
      assert (Zpos ma * 2 ^ 53 <= (Zpos mb - 1) * 2 ^ 53)
        by (apply Z.mul_le_mono_nonneg_r; lia).
      lia. }
    rewrite binary_round_aux_53;
      [| apply digits2_unique; change (53 - 1) with 52; lia | lia | lia].
    unfold F64.to_int, cond_Zopp.
    destruct (da - db - 53) as [|e|e] eqn:Ee; try lia.
    f_equal. symmetry.
    assert (EN : 2 ^ Zpos e = N) by (unfold N; f_equal; lia).
    rewrite EN.
    rewrite Z2Pos.id by lia.
    apply Z.div_unique with (round_nearest_even (Zpos q) l - N * k); lia.
  - (* 54 bits *)
    destruct (binary_round_aux_54 false q (da - db - 53) l) as (M & HM & Hb1 & Hb2);
      [apply digits2_unique; change (54 - 1) with 53; lia | lia | lia |].
    rewrite HM. unfold F64.to_int, cond_Zopp.
    destruct (da - db - 53 + 1) as [|e|e] eqn:Ee; try lia.
    f_equal. symmetry.
    assert (EN : 2 * 2 ^ Zpos e = N).
    { unfold N. rewrite <- Z.pow_succ_r by lia. f_equal. lia. }
    pose proof (Z.div_mod (Zpos q) 2 ltac:(lia)) as Hq2.
    pose proof (Z.mod_pos_bound (Zpos q) 2 ltac:(lia)) as Hq2'.
    rewrite <- EN in F1, F2. clear EN HNQ HNb HN F0.
    set (N' := 2 ^ Zpos e) in *.
    apply Z.div_unique with (Zpos M - N' * k); lia.
Qed.

Lemma iter_shr_1_exact (n m : positive) :
  iter_pos shr_1 n (Build_shr_record (Zpos (Pos.iter xO m n)) false false)
  = Build_shr_record (Zpos m) false false.
Proof.
  revert m. induction n as [n IH|n IH|]; intros m; cbn [iter_pos Pos.iter shr_1 orb].
  - rewrite IH, IH. reflexivity.
  - rewrite IH, IH. reflexivity.
  - reflexivity.
Qed.

(* rounding a number that fits: D * 2^t with D of at most 53 bits *)
Lemma binary_round_exact (s : bool) (D : positive) (t e : Z) (p : positive) :
  let d := Zpos (digits2_pos D) in
  d <= 53 -> 0 <= t -> Zpos p = Zpos D * 2 ^ t ->
  -1074 <= e + t + d - 53 <= 971 ->
  exists M : positive,
    binary_round 53 1024 s p e = S754_finite s M (e + t + d - 53)
    /\ Zpos M = Zpos D * 2 ^ (53 - d).
Proof.
  intros d Hd Ht Hp He.
  pose proof (digits2_bounds D) as HbD. fold d in HbD.
  assert (H1d : 1 <= d) by (unfold d; lia).
  assert (HT : 0 < 2 ^ t) by (apply pow2_pos; lia).
  assert (Hdp : Zpos (digits2_pos p) = d + t).
  { apply digits2_unique. rewrite Hp.
    apply (scale_bounds _ _ _ _ _ _ HbD); [assumption | | ]; apply pow2_split; lia. }
  set (M := Z.to_pos (Zpos D * 2 ^ (53 - d))).
  assert (HS : 0 < 2 ^ (53 - d)) by (apply pow2_pos; lia).
  assert (HM : Zpos M = Zpos D * 2 ^ (53 - d)) by (unfold M; rewrite Z2Pos.id; nia).
  assert (HrM : 2 ^ 52 <= Zpos M < 2 ^ 53).
  { rewrite HM.
    apply (scale_bounds _ _ _ _ _ _ HbD); [assumption | | ]; apply pow2_split; lia. }
  assert (HdM : Zpos (digits2_pos M) = 53) by (apply digits2_unique; exact HrM).
  exists M. split; [|exact HM].
  unfold binary_round. rewrite Hdp. rewrite fexp_normal by lia.
  unfold shl_align.
  destruct (d + t + e - 53 - e) as [|n|k] eqn:En.
  - (* already 53 bits *)
    assert (p = M) as ->.
    { apply Pos2Z.inj. rewrite Hp, HM. f_equal. f_equal. lia. }
    rewrite binary_round_aux_53 by (cbn [round_nearest_even]; lia).
    cbn [round_nearest_even Z.to_pos]. f_equal. lia.
  - (* more than 53 bits: the low bits are zero *)
    assert (p = Pos.iter xO M n) as ->.
    { apply Pos2Z.inj. rewrite iter_xO_pow, Hp, HM, <- Z.mul_assoc.
      f_equal. symmetry. apply pow2_split; lia. }
    assert (Hshr : shr_fexp 53 1024 (Zpos (Pos.iter xO M n)) e loc_Exact
                   = (Build_shr_record (Zpos M) false false, e + Zpos n)).
    { unfold shr_fexp. cbn [Zdigits2]. rewrite Hdp, fexp_normal by lia.
      replace (d + t + e - 53 - e) with (Zpos n) by lia.
      cbn [shr shr_record_of_loc]. rewrite iter_shr_1_exact. reflexivity. }
    unfold binary_round_aux. rewrite Hshr.
    cbn [shr_m loc_of_shr_record round_nearest_even].
    rewrite shr_fexp_53 by lia.
    cbn [shr_m shr_record_of_loc].
    replace (e + Zpos n <=? 1024 - 53) with true by (symmetry; apply Z.leb_le; lia).
    f_equal. lia.
  - (* fewer than 53 bits: shift left *)
    assert (Pos.iter xO p k = M) as ->.
    { apply Pos2Z.inj. rewrite iter_xO_pow, Hp, HM, <- Z.mul_assoc.
      f_equal. apply pow2_split; lia. }
    rewrite binary_round_aux_53 by (cbn [round_nearest_even]; lia).
    cbn [round_nearest_even Z.to_pos]. f_equal. lia.
Qed.

Lemma of_int_signed (z : Z) :
  z <> 0 -> Z.abs z < 2 ^ 52 ->
  exists M : positive,
    F64.of_int z = S754_finite (z <? 0) M (Zdigits2 z - 53)
    /\ Zpos M = Z.abs z * 2 ^ (53 - Zdigits2 z)
    /\ Zpos (digits2_pos M) = 53
    /\ 1 <= Zdigits2 z <= 52.
Proof.
  intros Hz Hlt.
  assert (Hgen : forall (s : bool) (p : positive), Zpos p < 2 ^ 52 ->
            exists M : positive,
              binary_round 53 1024 s p 0
              = S754_finite s M (Zpos (digits2_pos p) - 53)
              /\ Zpos M = Zpos p * 2 ^ (53 - Zpos (digits2_pos p))
              /\ Zpos (digits2_pos M) = 53
              /\ 1 <= Zpos (digits2_pos p) <= 52).
  { intros s p Hp. pose proof (digits_lt_53 p Hp) as Hd.
    destruct (binary_round_exact s p 0 0 p) as (M & HM & HMv);
      try lia; try (cbn; lia).
    exists M. rewrite HM. split; [f_equal; lia|]. split; [exact HMv|].
    split; [|lia].
    apply digits2_unique. rewrite HMv.
    apply (scale_bounds _ _ _ _ _ _ (digits2_bounds p));
      [apply pow2_pos; lia | | ]; apply pow2_split; lia. }
  destruct z as [|p|p]; [congruence| |].
  - exact (Hgen false p Hlt).
  - exact (Hgen true p Hlt).
Qed.

Lemma div_two (s : bool) (M : positive) (e : Z) :
  Zpos (digits2_pos M) = 53 -> -1000 <= e <= 900 ->
  SFdiv 53 1024 (S754_finite s M e) two = S754_finite s M (e - 1).
Proof.
  intros Hd He.
  change two with (S754_finite false 4503599627370496 (-51)).
  unfold SFdiv, SFdiv_core_binary. cbn [Zdigits2]. rewrite Hd.
  change (Zpos (digits2_pos 4503599627370496)) with 53.
  replace (53 + e - (53 + -51)) with (e + 51) by lia.
  rewrite fexp_normal by lia.
  replace (Z.min (e + 51 - 53) (e - -51)) with (e - 2) by lia.
  replace (e - -51 - (e - 2)) with 53 by lia.
  rewrite Z.shiftl_mul_pow2 by lia.
  pose proof (Z_div_mod (Zpos M * 2 ^ 53) 4503599627370496 ltac:(lia)) as Hdiv.
  destruct (Z.div_eucl (Zpos M * 2 ^ 53) 4503599627370496) as [q r].
  destruct Hdiv as [Hq Hr].
  assert (q = Zpos M~0) by lia. assert (r = 0) by lia. subst q r.
  change (new_location 4503599627370496 0) with loc_Exact.
  rewrite xorb_false_r.
  assert (Hd54 : Zpos (digits2_pos M~0) = 54).
  { cbn [digits2_pos]. rewrite Pos2Z.inj_succ, Hd. reflexivity. }
  unfold binary_round_aux.
  rewrite shr_fexp_54 by lia.
  cbn [shr_record_of_loc shr_1 orb shr_m loc_of_shr_record round_nearest_even].
  rewrite shr_fexp_53 by lia.
  cbn [shr_m shr_record_of_loc].
  replace (e - 2 + 1 <=? 1024 - 53) with true by (symmetry; apply Z.leb_le; lia).
  f_equal. lia.
Qed.

Lemma half_signed (z : Z) :
  z <> 0 -> Z.abs z < 2 ^ 52 ->
  exists M : positive,
    SFdiv 53 1024 (F64.of_int z) two = S754_finite (z <? 0) M (Zdigits2 z - 54)
    /\ Zpos M = Z.abs z * 2 ^ (53 - Zdigits2 z)
    /\ 1 <= Zdigits2 z <= 52.
Proof.
  intros Hz Hlt.
  destruct (of_int_signed z Hz Hlt) as (M & HM & HMv & HMd & Hd).
  exists M. rewrite HM, div_two by lia. repeat split; try lia.
  f_equal. lia.
Qed.

Lemma half_zero : SFdiv 53 1024 (F64.of_int 0) two = S754_zero false.
Proof. reflexivity. Qed.


Lemma digits_le_53 (p : positive) : Zpos p < 2 ^ 53 -> Zpos (digits2_pos p) <= 53.
Proof.
  intros Hp. pose proof (digits2_bounds p) as [Hlo _].
  destruct (Z.leb_spec (Zpos (digits2_pos p)) 53); [assumption|exfalso].
  assert (2 ^ 53 <= 2 ^ (Zpos (digits2_pos p) - 1)) by (apply Z.pow_le_mono_r; lia).
  lia.
Qed.

(* truncating the canonical float of D / 2 *)
Lemma to_int_half_form (s : bool) (M D : positive) :
  let d := Zpos (digits2_pos D) in
  d <= 53 -> Zpos M = Zpos D * 2 ^ (53 - d) ->
  F64.to_int (S754_finite s M (d - 54)) = Ok (cond_Zopp s (Zpos D / 2)).
Proof.
  intros d Hd HM. unfold F64.to_int.
  assert (H1 : 1 <= d) by (unfold d; lia).
  destruct (d - 54) as [|k|k] eqn:Ek; try lia.
  f_equal. f_equal. rewrite HM.
  replace (2 ^ Zpos k) with (2 * 2 ^ (53 - d)).
  - apply Z.div_mul_cancel_r; [lia|]. apply Z.pow_nonzero; lia.
  - rewrite <- Z.pow_succ_r by lia. f_equal. lia.
Qed.

Lemma quot_2_signed (s : bool) (D : positive) (z : Z) :
  z = cond_Zopp s (Zpos D) -> cond_Zopp s (Zpos D / 2) = Z.quot z 2.
Proof.
  intros ->. destruct s; cbn [cond_Zopp].
  - rewrite Z.quot_opp_l by lia. rewrite Z.quot_div_nonneg by lia. reflexivity.
  - rewrite Z.quot_div_nonneg by lia. reflexivity.
Qed.

Lemma shl_align_fst (m : positive) (e e' : Z) :
  e' <= e -> Zpos (fst (shl_align m e e')) = Zpos m * 2 ^ (e - e').
Proof.
  intros He. unfold shl_align.
  destruct (e' - e) as [|k|k] eqn:Ek; cbn [fst]; try lia.
  - replace (e - e') with 0 by lia. lia.
  - rewrite iter_xO_pow. f_equal. f_equal. lia.
Qed.

Lemma to_int_half (z : Z) :
  Z.abs z < 2 ^ 52 -> F64.to_int (half z) = Ok (Z.quot z 2).
Proof.
  intros Hz. destruct (Z.eq_dec z 0) as [->|Hnz]; [reflexivity|].
  unfold half, F64.div, F64.prec, F64.emax. destruct (half_signed z Hnz Hz) as (M & HM & HMv & Hd).
  rewrite HM.
  destruct z as [|p|p]; [congruence| |]; cbn [Zdigits2 Z.abs Z.ltb Z.compare] in *.
  - rewrite (to_int_half_form false M p) by (assumption || lia).
    f_equal. apply quot_2_signed. reflexivity.
  - rewrite (to_int_half_form true M p) by (assumption || lia).
    f_equal. apply quot_2_signed. reflexivity.
Qed.

Lemma to_int_sub_halves (w c : Z) :
  Z.abs w < 2 ^ 52 -> Z.abs c < 2 ^ 52 ->
  F64.to_int (SFsub 53 1024 (half w) (half c)) = Ok (Z.quot (w - c) 2).
Proof.
  intros Hw Hc.
  destruct (Z.eq_dec c 0) as [->|Hcnz].
  { (* x - 0.0 *)
    rewrite Z.sub_0_r. rewrite <- to_int_half by assumption.
    change (half 0) with (S754_zero false).
    destruct (Z.eq_dec w 0) as [->|Hwnz]; [reflexivity|].
    unfold half, F64.div, F64.prec, F64.emax. destruct (half_signed w Hwnz Hw) as (M & HM & _).
    rewrite HM. reflexivity. }
  destruct (half_signed c Hcnz Hc) as (Mc & HMc & HMcv & Hdc).
  destruct (Z.eq_dec w 0) as [->|Hwnz].
  { (* 0.0 - y *)
    change (half 0) with (S754_zero false). unfold half, F64.div, F64.prec, F64.emax. rewrite HMc.
    cbn [SFsub]. 
    destruct c as [|p|p]; [congruence| |]; cbn [Zdigits2 Z.abs Z.ltb Z.compare negb] in *.
    - rewrite (to_int_half_form true Mc p) by (assumption || lia).
      f_equal. apply quot_2_signed. reflexivity.
    - rewrite (to_int_half_form false Mc p) by (assumption || lia).
      f_equal. apply quot_2_signed. reflexivity. }
  destruct (half_signed w Hwnz Hw) as (Mw & HMw & HMwv & Hdw).
  unfold half, F64.div, F64.prec, F64.emax. rewrite HMw, HMc. cbn [SFsub].
  set (ew := Zdigits2 w - 54) in *. set (ec := Zdigits2 c - 54) in *.
  set (ez := Z.min ew ec).
  rewrite !shl_align_fst by lia.
  set (T := 2 ^ (-1 - ez)).
  assert (HT : 0 < T) by (apply pow2_pos; lia).
  assert (HW : cond_Zopp (w <? 0) (Zpos Mw * 2 ^ (ew - ez)) = w * T).
  { rewrite HMwv, <- Z.mul_assoc.
    rewrite pow2_split with (c := -1 - ez) by lia. fold T.
    destruct (Z.ltb_spec w 0); cbn [cond_Zopp]; lia. }
  assert (HC : cond_Zopp (c <? 0) (Zpos Mc * 2 ^ (ec - ez)) = c * T).
  { rewrite HMcv, <- Z.mul_assoc.
    rewrite pow2_split with (c := -1 - ez) by lia. fold T.
    destruct (Z.ltb_spec c 0); cbn [cond_Zopp]; lia. }
  rewrite HW, HC.
  replace (w * T - c * T) with ((w - c) * T) by lia.
  assert (Hround : forall (s : bool) (D p : positive),
             Zpos D < 2 ^ 53 -> Zpos p = Zpos D * T ->
             F64.to_int (binary_round 53 1024 s p ez)
             = Ok (cond_Zopp s (Zpos D / 2))).
  { intros s D p HD Hp. pose proof (digits_le_53 D HD) as HdD.
    destruct (binary_round_exact s D (-1 - ez) ez p) as (M & HM & HMv);
      [lia | lia | exact Hp | lia |].
    rewrite HM.
    replace (ez + (-1 - ez) + Zpos (digits2_pos D) - 53)
      with (Zpos (digits2_pos D) - 54) by lia.
    apply to_int_half_form; assumption. }
  unfold binary_normalize.
  destruct ((w - c) * T) as [|p|p] eqn:Ep.
  - assert (w - c = 0) by (apply Z.mul_eq_0 in Ep; lia).
    replace (w - c) with 0 by lia. reflexivity.
  - assert (Hpos : 0 < w - c) by (apply (Z.mul_pos_cancel_r _ T); lia).
    rewrite (Hround false (Z.to_pos (w - c)) p)
      by (rewrite Z2Pos.id by lia; lia).
    f_equal. apply quot_2_signed. cbn [cond_Zopp]. rewrite Z2Pos.id; lia.
  - assert (Hneg : w - c < 0).
    { destruct (Z.ltb_spec (w - c) 0) as [H|H]; [exact H|exfalso].
      pose proof (Z.mul_nonneg_nonneg (w - c) T H ltac:(lia)). lia. }
    rewrite (Hround true (Z.to_pos (c - w)) p)
      by (rewrite Z2Pos.id by lia; lia).
    f_equal. apply quot_2_signed. cbn [cond_Zopp]. rewrite Z2Pos.id; lia.
Qed.

(* ================================================================== *)
(** * Facts about binary64: rounding to nearest

    A significand of 53 bits or more is rounded to the nearest 53-bit
    one, ties to even; the value of the result is a function [rnd] of
    the exact value, monotone and within one part in 2^53 of it.  The
    sum of two non-negative numbers is the rounding of the exact sum,
    comparing two of them is comparing their values, and a quotient of
    a number by a smaller one is at least one. *)

Lemma shifted_0 (m0 : Z) :
  0 <= m0 -> shifted m0 0 (Build_shr_record m0 false false).
Proof.
  intros H. exists 0. cbn [shr_m shr_r shr_s]. change (2 ^ 0) with 1.
  repeat split; try lia; reflexivity.
Qed.

Lemma shifted_step (m0 k : Z) (r : shr_record) :
  0 <= k -> shifted m0 k r -> shifted m0 (k + 1) (shr_1 r).
Proof.
  intros Hk (rem & Hm & Hrem & Hpos & Hr & Hs).
  assert (HP : 0 < 2 ^ k) by (apply Z.pow_pos_nonneg; lia).
  assert (E : 2 ^ (k + 1) = 2 * 2 ^ k) by (rewrite Z.pow_add_r by lia; lia).
  destruct r as [m r s]. cbn [shr_m shr_r shr_s] in *.
  assert (Hrs : r || s = negb (rem =? 0)).
  { rewrite Hr, Hs.
    destruct (Z.leb_spec (2 ^ k) (2 * rem)), (Z.eqb_spec rem 0),
      (Z.eqb_spec (2 * rem) (2 ^ k)); cbn; try reflexivity; lia. }
  destruct m as [|[p|p|]|]; try lia; unfold shifted;
    cbn [shr_1 shr_m shr_r shr_s]; rewrite Hrs, E.
  - exists rem. repeat split; lia.
  - exists (2 ^ k + rem). rewrite Pos2Z.inj_xI in Hm. repeat split; lia.
  - exists rem. rewrite Pos2Z.inj_xO in Hm. repeat split; lia.
  - exists (2 ^ k + rem). repeat split; lia.
Qed.

Lemma shifted_iter (m0 : Z) (n : positive) :
  forall (k : Z) (r : shr_record),
    0 <= k -> shifted m0 k r -> shifted m0 (k + Zpos n) (iter_pos shr_1 n r).
Proof.
  induction n as [n IH|n IH|]; intros k r Hk H; cbn [iter_pos].
  - replace (k + Zpos n~1) with (k + 1 + Zpos n + Zpos n) by lia.
    apply IH; [lia|]. apply IH; [lia|]. apply shifted_step; assumption.
  - replace (k + Zpos n~0) with (k + Zpos n + Zpos n) by lia.
    apply IH; [lia|]. apply IH; assumption.
  - apply shifted_step; assumption.
Qed.

Lemma shifted_round (m0 k : Z) (r : shr_record) :
  0 <= k -> shifted m0 k r ->
  shr_m r = m0 / 2 ^ k
  /\ round_nearest_even (shr_m r) (loc_of_shr_record r) = nearest m0 k.
Proof.
  intros Hk (rem & Hm & Hrem & Hpos & Hr & Hs).
  assert (HP : 0 < 2 ^ k) by (apply Z.pow_pos_nonneg; lia).
  assert (Hq : m0 / 2 ^ k = shr_m r).
  { symmetry. apply Z.div_unique with rem; lia. }
  assert (Hmod : m0 mod 2 ^ k = rem).
  { symmetry. apply Z.mod_unique with (shr_m r); lia. }
  split; [auto|]. unfold nearest. rewrite Hq, Hmod.
  destruct r as [m r s]. cbn [shr_m shr_r shr_s] in *. subst r s.
  destruct (Z.leb_spec (2 ^ k) (2 * rem)), (Z.eqb_spec rem 0),
    (Z.eqb_spec (2 * rem) (2 ^ k)); cbn [negb andb loc_of_shr_record round_nearest_even];
    try lia.
  - replace (2 * rem ?= 2 ^ k) with Eq by (symmetry; apply Z.compare_eq_iff; lia).
    reflexivity.
  - replace (2 * rem ?= 2 ^ k) with Gt by (symmetry; apply Z.compare_gt_iff; lia).
    reflexivity.
  - replace (2 * rem ?= 2 ^ k) with Lt by (symmetry; apply Z.compare_lt_iff; lia).
    reflexivity.
  - replace (2 * rem ?= 2 ^ k) with Lt by (symmetry; apply Z.compare_lt_iff; lia).
    reflexivity.
Qed.

Lemma Zdigits2_bounds (x : Z) :
  0 < x -> 2 ^ (Zdigits2 x - 1) <= x < 2 ^ Zdigits2 x.
Proof. destruct x; try lia. intros _. apply digits2_bounds. Qed.

Lemma Zdigits2_unique (x k : Z) :
  0 < x -> 2 ^ (k - 1) <= x < 2 ^ k -> Zdigits2 x = k.
Proof. destruct x; try lia. intros _. apply digits2_unique. Qed.

Lemma Zdigits2_scale (x k : Z) :
  0 < x -> 0 <= k -> Zdigits2 (x * 2 ^ k) = Zdigits2 x + k.
Proof.
  intros Hx Hk. pose proof (Zdigits2_bounds x Hx) as Hb.
  assert (1 <= Zdigits2 x) by (destruct x; cbn; lia).
  assert (0 < 2 ^ k) by (apply pow2_pos; lia).
  apply Zdigits2_unique; [lia|].
  apply (scale_bounds _ _ _ _ _ _ Hb); [assumption | | ]; apply pow2_split; lia.
Qed.

Lemma Zdigits2_mono (x y : Z) : 0 < x -> x <= y -> Zdigits2 x <= Zdigits2 y.
Proof.
  intros Hx Hxy.
  pose proof (Zdigits2_bounds x Hx) as [Hlo _].
  pose proof (Zdigits2_bounds y ltac:(lia)) as [_ Hhi].
  assert (Zdigits2 x - 1 < Zdigits2 y); [|lia].
  assert (1 <= Zdigits2 y) by (destruct y; cbn; lia).
  apply (Z.pow_lt_mono_r_iff 2); lia.
Qed.

Lemma nearest_bounds (m n : Z) : m / 2 ^ n <= nearest m n <= m / 2 ^ n + 1.
Proof.
  unfold nearest. destruct (_ ?= _); [destruct (Z.even _)| |]; lia.
Qed.

Lemma nearest_0 (m : Z) : nearest m 0 = m.
Proof.
  unfold nearest. change (2 ^ 0) with 1. rewrite Z.mod_1_r, Z.div_1_r.
  reflexivity.
Qed.

Lemma nearest_scale (m n j : Z) :
  0 <= n -> 0 <= j -> nearest (m * 2 ^ j) (n + j) = nearest m n.
Proof.
  intros Hn Hj. unfold nearest.
  assert (0 < 2 ^ n) by (apply pow2_pos; lia).
  assert (0 < 2 ^ j) by (apply pow2_pos; lia).
  rewrite Z.pow_add_r by lia.
  rewrite Z.div_mul_cancel_r by lia.
  rewrite Z.mul_mod_distr_r by lia.
  rewrite Z.mul_assoc, <- Zmult_compare_compat_r by lia.
  reflexivity.
Qed.

Lemma nearest_error (m n : Z) :
  0 <= n -> 2 * Z.abs (nearest m n * 2 ^ n - m) <= 2 ^ n.
Proof.
  intros Hn. assert (HP : 0 < 2 ^ n) by (apply pow2_pos; lia).
  pose proof (Z.div_mod m (2 ^ n) ltac:(lia)) as Hd.
  pose proof (Z.mod_pos_bound m (2 ^ n) HP) as Hr.
  unfold nearest.
  destruct (Z.compare_spec (2 * (m mod 2 ^ n)) (2 ^ n));
    [destruct (Z.even _)| |]; lia.
Qed.

Lemma nearest_mono (a b n : Z) :
  0 <= n -> a <= b -> nearest a n <= nearest b n.
Proof.
  intros Hn Hab. assert (HP : 0 < 2 ^ n) by (apply pow2_pos; lia).
  pose proof (Z.div_le_mono a b (2 ^ n) HP Hab) as Hq.
  destruct (Z.eq_dec (a / 2 ^ n) (b / 2 ^ n)) as [E|E].
  - pose proof (Z.div_mod a (2 ^ n) ltac:(lia)) as Ha.
    pose proof (Z.div_mod b (2 ^ n) ltac:(lia)) as Hb.
    assert (Hr : a mod 2 ^ n <= b mod 2 ^ n) by (rewrite E in Ha; lia).
    unfold nearest. rewrite E.
    destruct (Z.compare_spec (2 * (a mod 2 ^ n)) (2 ^ n)),
      (Z.compare_spec (2 * (b mod 2 ^ n)) (2 ^ n));
      try destruct (Z.even _); lia.
  - pose proof (nearest_bounds a n). pose proof (nearest_bounds b n). lia.
Qed.

Lemma rnd_0 : rnd 0 = 0.
Proof. reflexivity. Qed.

Lemma rnd_spec (X : Z) :
  2 ^ 52 <= X ->
  let d := Zdigits2 X in
  53 <= d
  /\ 2 ^ (d - 1) <= rnd X <= 2 ^ d
  /\ 2 * Z.abs (rnd X - X) <= 2 ^ (d - 53)
  /\ 2 ^ (d - 53) * 2 ^ 52 <= X.
Proof.
  intros HX d. pose proof (Zdigits2_bounds X ltac:(lia)) as Hb. fold d in Hb.
  assert (Hd : 53 <= d).
  { assert (52 < d); [|lia]. apply (Z.pow_lt_mono_r_iff 2); [lia| |lia].
    destruct X; cbn in *; lia. }
  set (n := d - 53).
  assert (HP : 0 < 2 ^ n) by (apply pow2_pos; lia).
  assert (E1 : 2 ^ 52 * 2 ^ n = 2 ^ (d - 1)) by (apply pow2_split; lia).
  assert (E2 : 2 ^ 53 * 2 ^ n = 2 ^ d) by (apply pow2_split; lia).
  pose proof (nearest_bounds X n) as HN.
  pose proof (nearest_error X n ltac:(lia)) as HE.
  assert (Hq : 2 ^ 52 <= X / 2 ^ n <= 2 ^ 53 - 1).
  { split.
    - apply Z.div_le_lower_bound; lia.
    - assert (X / 2 ^ n < 2 ^ 53); [|lia].
      apply Z.div_lt_upper_bound; lia. }
  unfold rnd. fold d. fold n.
  split; [exact Hd|]. split; [|split; [exact HE | lia]].
  split.
  - rewrite <- E1. apply Z.mul_le_mono_nonneg_r; lia.
  - rewrite <- E2. apply Z.mul_le_mono_nonneg_r; lia.
Qed.

Lemma rnd_mono (X Y : Z) : 2 ^ 52 <= X -> X <= Y -> rnd X <= rnd Y.
Proof.
  intros HX HXY.
  pose proof (rnd_spec X HX) as (HdX & HrX & _).
  pose proof (rnd_spec Y ltac:(lia)) as (HdY & HrY & _).
  cbv zeta in *.
  pose proof (Zdigits2_mono X Y ltac:(lia) HXY) as Hd.
  destruct (Z.eq_dec (Zdigits2 X) (Zdigits2 Y)) as [E|E].
  - unfold rnd. rewrite E.
    apply Z.mul_le_mono_nonneg_r; [apply Z.pow_nonneg; lia|].
    apply nearest_mono; lia.
  - assert (2 ^ Zdigits2 X <= 2 ^ (Zdigits2 Y - 1))
      by (apply Z.pow_le_mono_r; lia).
    lia.
Qed.

Lemma rnd_error (X : Z) : 2 ^ 52 <= X -> 2 ^ 53 * Z.abs (rnd X - X) <= X.
Proof.
  intros HX. pose proof (rnd_spec X HX) as (_ & _ & HE & HB). cbv zeta in *.
  assert (2 ^ 52 * (2 * Z.abs (rnd X - X)) <= 2 ^ 52 * 2 ^ (Zdigits2 X - 53))
    by (apply Z.mul_le_mono_nonneg_l; lia).
  change (2 ^ 53) with (2 ^ 52 * 2). lia.
Qed.

Lemma val_pos53 (f : spec_float) :
  pos53 f ->
  exists m e, f = S754_finite false m e /\ -1074 <= e <= 971
              /\ 2 ^ 52 <= Zpos m < 2 ^ 53
              /\ val f = Zpos m * 2 ^ (e + 1074)
              /\ 2 ^ (e + 1126) <= val f < 2 ^ (e + 1127).
Proof.
  intros (m & e & -> & Hd & He). exists m, e.
  pose proof (digits2_bounds m) as Hb. rewrite Hd in Hb.
  change (53 - 1) with 52 in Hb.
  split; [reflexivity|]. split; [exact He|]. split; [exact Hb|].
  split; [reflexivity|]. cbn [val].
  apply (scale_bounds _ _ _ _ _ _ Hb); [apply pow2_pos; lia | | ];
    apply pow2_split; lia.
Qed.

Lemma val_pos53_lower (f : spec_float) : pos53 f -> 2 ^ 52 <= val f.
Proof.
  intros H. destruct (val_pos53 f H) as (m & e & _ & He & _ & _ & Hv).
  assert (2 ^ 52 <= 2 ^ (e + 1126)) by (apply Z.pow_le_mono_r; lia). lia.
Qed.

Lemma rnd_val (f : spec_float) : pos53 f -> rnd (val f) = val f.
Proof.
  intros (m & e & -> & Hd & He). cbn [val]. unfold rnd.
  rewrite Zdigits2_scale by lia. cbn [Zdigits2]. rewrite Hd.
  replace (53 + (e + 1074) - 53) with (0 + (e + 1074)) by lia.
  rewrite nearest_scale by lia. rewrite nearest_0. reflexivity.
Qed.

Lemma shr_fexp_shifted (m : positive) (e : Z) :
  let D := Zpos (digits2_pos m) in
  53 <= D -> -1074 <= e ->
  exists r,
    shr_fexp 53 1024 (Zpos m) e loc_Exact = (r, e + (D - 53))
    /\ shifted (Zpos m) (D - 53) r.
Proof.
  intros D HD He. unfold shr_fexp. cbn [Zdigits2]. fold D.
  rewrite fexp_normal by lia.
  replace (D + e - 53 - e) with (D - 53) by lia.
  cbn [shr_record_of_loc].
  destruct (D - 53) as [|n|n] eqn:En; try lia; cbn [shr].
  - eexists. split; [f_equal; lia|]. apply shifted_0. lia.
  - eexists. split; [reflexivity|].
    apply (shifted_iter (Zpos m) n 0); [lia|]. apply shifted_0. lia.
Qed.

(** The rounding of a significand of at least 53 bits, in closed form. *)
Lemma binary_round_aux_closed (s : bool) (m : positive) (e : Z) :
  let D := Zpos (digits2_pos m) in
  let M := nearest (Zpos m) (D - 53) in
  53 <= D -> -1074 <= e -> e + D <= 1023 ->
  2 ^ 52 <= M <= 2 ^ 53
  /\ binary_round_aux 53 1024 s (Zpos m) e loc_Exact
     = if M <? 2 ^ 53 then S754_finite s (Z.to_pos M) (e + (D - 53))
       else S754_finite s 4503599627370496 (e + (D - 53) + 1).
Proof.
  intros D M HD He Hmax.
  destruct (shr_fexp_shifted m e HD He) as (r & Hshr & Hr). fold D in Hshr, Hr.
  destruct (shifted_round (Zpos m) (D - 53) r ltac:(lia) Hr) as [Hq HN]. fold M in HN.
  pose proof (digits2_bounds m) as Hb. fold D in Hb.
  set (n := D - 53) in *.
  assert (HP : 0 < 2 ^ n) by (apply pow2_pos; lia).
  assert (E1 : 2 ^ 52 * 2 ^ n = 2 ^ (D - 1)) by (apply pow2_split; lia).
  assert (E2 : 2 ^ 53 * 2 ^ n = 2 ^ D) by (apply pow2_split; lia).
  assert (Hqb : 2 ^ 52 <= Zpos m / 2 ^ n <= 2 ^ 53 - 1).
  { split.
    - apply Z.div_le_lower_bound; lia.
    - assert (Zpos m / 2 ^ n < 2 ^ 53); [|lia].
      apply Z.div_lt_upper_bound; lia. }
  pose proof (nearest_bounds (Zpos m) n) as HNb. fold M in HNb.
  split; [lia|].
  unfold binary_round_aux. rewrite Hshr, HN.
  destruct (Z.ltb_spec M (2 ^ 53)) as [L|G].
  - destruct M as [|M'|M'] eqn:EM; try lia.
    rewrite shr_fexp_53; [| apply digits2_unique; change (53 - 1) with 52; lia | lia].
    cbn [shr_m shr_record_of_loc Z.to_pos].
    replace (e + n <=? 1024 - 53) with true by (symmetry; apply Z.leb_le; lia).
    reflexivity.
  - assert (EM : M = 2 ^ 53) by lia. rewrite EM.
    change (2 ^ 53) with (Zpos 9007199254740992).
    rewrite shr_fexp_54; [| reflexivity | lia].
    cbn [shr_record_of_loc shr_1 shr_m orb].
    replace (e + n + 1 <=? 1024 - 53) with true by (symmetry; apply Z.leb_le; lia).
    reflexivity.
Qed.

(** The value of a rounded significand. *)
Lemma val_round (m : positive) (e : Z) :
  53 <= Zpos (digits2_pos m) -> -1074 <= e -> e + Zpos (digits2_pos m) <= 1023 ->
  pos53 (binary_round_aux 53 1024 false (Zpos m) e loc_Exact)
  /\ val (binary_round_aux 53 1024 false (Zpos m) e loc_Exact)
     = rnd (Zpos m * 2 ^ (e + 1074)).
Proof.
  intros HD He Hmax.
  destruct (binary_round_aux_closed false m e HD He Hmax) as [HM Hr].
  cbv zeta in *. set (D := Zpos (digits2_pos m)) in *.
  set (M := nearest (Zpos m) (D - 53)) in *.
  assert (Hrnd : rnd (Zpos m * 2 ^ (e + 1074)) = M * 2 ^ (D - 53 + (e + 1074))).
  { unfold rnd. rewrite Zdigits2_scale by lia. cbn [Zdigits2]. fold D.
    replace (D + (e + 1074) - 53) with (D - 53 + (e + 1074)) by lia.
    rewrite nearest_scale by lia. reflexivity. }
  rewrite Hr, Hrnd. destruct (Z.ltb_spec M (2 ^ 53)) as [L|G].
  - split.
    + exists (Z.to_pos M), (e + (D - 53)). split; [reflexivity|].
      split; [|lia]. apply digits2_unique. rewrite Z2Pos.id by lia.
      change (53 - 1) with 52. lia.
    + cbn [val]. rewrite Z2Pos.id by lia. f_equal. f_equal. lia.
  - split.
    + exists 4503599627370496%positive, (e + (D - 53) + 1).
      split; [reflexivity|]. split; [reflexivity|lia].
    + cbn [val]. assert (EM : M = 2 ^ 53) by lia. rewrite EM.
      change (2 ^ 53) with (4503599627370496 * 2 ^ 1).
      rewrite <- Z.mul_assoc. f_equal.
      rewrite <- Z.pow_add_r by lia. f_equal. lia.
Qed.

(** Comparison of two non-negative numbers is comparison of their values. *)
Lemma SFcompare_val (x y : spec_float) :
  nonneg x -> nonneg y -> SFcompare x y = Some (val x ?= val y).
Proof.
  intros [->|Hx] [->|Hy].
  - reflexivity.
  - pose proof (val_pos53_lower y Hy) as Hl.
    destruct Hy as (m & e & -> & _). cbn [SFcompare].
    cbn [val] in *. symmetry. f_equal. apply Z.compare_lt_iff. lia.
  - pose proof (val_pos53_lower x Hx) as Hl.
    destruct Hx as (m & e & -> & _). cbn [SFcompare].
    cbn [val] in *. symmetry. f_equal. apply Z.compare_gt_iff. lia.
  - destruct (val_pos53 x Hx) as (m1 & e1 & -> & He1 & Hm1 & _ & Hv1).
    destruct (val_pos53 y Hy) as (m2 & e2 & -> & He2 & Hm2 & _ & Hv2).
    cbn [SFcompare]. f_equal.
    destruct (Z.compare_spec e1 e2) as [E|L|G].
    + subst e2. cbn [val].
      change (Pos.compare_cont Eq m1 m2) with (Zpos m1 ?= Zpos m2).
      apply Zmult_compare_compat_r.
      assert (0 < 2 ^ (e1 + 1074)) by (apply pow2_pos; lia). lia.
    + symmetry. apply Z.compare_lt_iff.
      assert (2 ^ (e1 + 1127) <= 2 ^ (e2 + 1126)) by (apply Z.pow_le_mono_r; lia).
      lia.
    + symmetry. apply Z.compare_gt_iff.
      assert (2 ^ (e2 + 1127) <= 2 ^ (e1 + 1126)) by (apply Z.pow_le_mono_r; lia).
      lia.
Qed.

Lemma SFltb_val (x y : spec_float) :
  nonneg x -> nonneg y -> SFltb x y = (val x <? val y).
Proof.
  intros Hx Hy. unfold SFltb, Z.ltb. rewrite SFcompare_val by assumption.
  reflexivity.
Qed.

Lemma SFleb_val (x y : spec_float) :
  nonneg x -> nonneg y -> SFleb x y = (val x <=? val y).
Proof.
  intros Hx Hy. unfold SFleb, Z.leb. rewrite SFcompare_val by assumption.
  destruct (val x ?= val y); reflexivity.
Qed.

(** Two non-negative numbers of the same value are the same number. *)
Lemma val_inj (x y : spec_float) : nonneg x -> nonneg y -> val x = val y -> x = y.
Proof.
  intros [->|Hx] [->|Hy] E.
  - reflexivity.
  - pose proof (val_pos53_lower y Hy). cbn [val] in E. lia.
  - pose proof (val_pos53_lower x Hx). cbn [val] in E. lia.
  - destruct (val_pos53 x Hx) as (m1 & e1 & -> & He1 & Hm1 & Ev1 & Hv1).
    destruct (val_pos53 y Hy) as (m2 & e2 & -> & He2 & Hm2 & Ev2 & Hv2).
    assert (e1 = e2).
    { destruct (Z.compare_spec e1 e2) as [E'|L|G]; [assumption|exfalso ..].
      - assert (2 ^ (e1 + 1127) <= 2 ^ (e2 + 1126)) by (apply Z.pow_le_mono_r; lia).
        lia.
      - assert (2 ^ (e2 + 1127) <= 2 ^ (e1 + 1126)) by (apply Z.pow_le_mono_r; lia).
        lia. }
    subst e2. cbn [val] in E.
    assert (0 < 2 ^ (e1 + 1074)) by (apply pow2_pos; lia).
    apply Z.mul_cancel_r in E; [|lia]. congruence.
Qed.

(** The sum of two non-negative numbers is the rounding of the sum of
    their values. *)
Lemma add_val (x y : spec_float) :
  nonneg x -> nonneg y -> val x + val y < 2 ^ 2000 ->
  nonneg (SFadd 53 1024 x y) /\ val (SFadd 53 1024 x y) = rnd (val x + val y).
Proof.
  intros [->|Hx] [->|Hy] Hsum.
  - split; [left; reflexivity | reflexivity].
  - pose proof (rnd_val y Hy) as E. pose proof Hy as Hy'.
    destruct Hy as (m & e & -> & _). cbn [SFadd].
    split; [right; exact Hy'|]. cbn [val] in *. rewrite Z.add_0_l, E. reflexivity.
  - pose proof (rnd_val x Hx) as E. pose proof Hx as Hx'.
    destruct Hx as (m & e & -> & _). cbn [SFadd].
    split; [right; exact Hx'|]. cbn [val] in *. rewrite Z.add_0_r, E. reflexivity.
  - destruct (val_pos53 x Hx) as (m1 & e1 & -> & He1 & Hm1 & Ev1 & Hv1).
    destruct (val_pos53 y Hy) as (m2 & e2 & -> & He2 & Hm2 & Ev2 & Hv2).
    rewrite Ev1, Ev2 in *. cbn [SFadd cond_Zopp].
    set (ez := Z.min e1 e2).
    pose proof (shl_align_fst m1 e1 ez ltac:(lia)) as Ha.
    pose proof (shl_align_fst m2 e2 ez ltac:(lia)) as Hb.
    set (a := fst (shl_align m1 e1 ez)) in *.
    set (b := fst (shl_align m2 e2 ez)) in *.
    change (Zpos a + Zpos b) with (Zpos (a + b)).
    cbn [binary_normalize]. unfold binary_round.
    assert (Hsplit : forall m e, ez <= e ->
               Zpos m * 2 ^ (e - ez) * 2 ^ (ez + 1074) = Zpos m * 2 ^ (e + 1074)).
    { intros m e Hle. rewrite <- Z.mul_assoc. f_equal. apply pow2_split; lia. }
    assert (Hab : Zpos (a + b) * 2 ^ (ez + 1074)
                  = Zpos m1 * 2 ^ (e1 + 1074) + Zpos m2 * 2 ^ (e2 + 1074)).
    { rewrite Pos2Z.inj_add, Z.mul_add_distr_r, Ha, Hb, !Hsplit by lia.
      reflexivity. }
    assert (HPz : 0 < 2 ^ (ez + 1074)) by (apply pow2_pos; lia).
    assert (Hge : 2 ^ 52 <= Zpos (a + b)).
    { rewrite Pos2Z.inj_add.
      assert (0 < 2 ^ (e1 - ez)) by (apply pow2_pos; lia).
      assert (Zpos m1 * 1 <= Zpos a)
        by (rewrite Ha; apply Z.mul_le_mono_nonneg_l; lia).
      lia. }
    assert (HD : 53 <= Zpos (digits2_pos (a + b))).
    { pose proof (digits2_bounds (a + b)) as [_ Hhi].
      assert (52 < Zpos (digits2_pos (a + b))); [|lia].
      apply (Z.pow_lt_mono_r_iff 2); lia. }
    assert (Hmax : ez + Zpos (digits2_pos (a + b)) <= 1023).
    { pose proof (digits2_bounds (a + b)) as [Hlo _].
      set (D := Zpos (digits2_pos (a + b))) in *.
      assert (2 ^ (D - 1) * 2 ^ (ez + 1074) <= Zpos (a + b) * 2 ^ (ez + 1074))
        by (apply Z.mul_le_mono_nonneg_r; lia).
      rewrite (pow2_split (D - 1) (ez + 1074) (D + ez + 1073)) in H by lia.
      assert (D + ez + 1073 < 2000); [|lia].
      apply (Z.pow_lt_mono_r_iff 2); lia. }
    rewrite fexp_normal by lia.
    assert (Hshl : shl_align (a + b) ez (Zpos (digits2_pos (a + b)) + ez - 53)
                   = (a + b, ez)%positive).
    { unfold shl_align.
      destruct (Zpos (digits2_pos (a + b)) + ez - 53 - ez) as [|k|k] eqn:Ek;
        try lia; reflexivity. }
    rewrite Hshl.
    destruct (val_round (a + b) ez HD ltac:(lia) Hmax) as [Hp Hv].
    split; [right; exact Hp|]. rewrite Hv, Hab. reflexivity.
Qed.

Lemma one_eq : F64.one = S754_finite false 4503599627370496 (-52).
Proof. reflexivity. Qed.

Lemma rnd_error_nn (X : Z) :
  X = 0 \/ 2 ^ 52 <= X -> 2 ^ 53 * Z.abs (rnd X - X) <= X.
Proof.
  intros [->|H]; [rewrite rnd_0; cbn; lia | apply rnd_error; assumption].
Qed.

Lemma rnd_le_pow (X k : Z) :
  X = 0 \/ 2 ^ 52 <= X -> 0 <= k -> X < 2 ^ k -> rnd X <= 2 ^ k.
Proof.
  intros [->|H] Hk HX.
  - rewrite rnd_0. apply Z.pow_nonneg. lia.
  - pose proof (rnd_spec X H) as (Hd & Hr & _). cbv zeta in *.
    pose proof (Zdigits2_bounds X ltac:(lia)) as [Hlo _].
    assert (Zdigits2 X - 1 < k) by (apply (Z.pow_lt_mono_r_iff 2); lia).
    assert (2 ^ Zdigits2 X <= 2 ^ k) by (apply Z.pow_le_mono_r; lia).
    lia.
Qed.

Lemma val_nonneg (f : spec_float) : nonneg f -> val f = 0 \/ 2 ^ 52 <= val f.
Proof.
  intros [->|H]; [left; reflexivity | right; apply val_pos53_lower; exact H].
Qed.

Lemma nonneg_pos (f : spec_float) : nonneg f -> 0 < val f -> pos53 f.
Proof. intros [->|H] Hv; [cbn in Hv; lia | exact H]. Qed.

Lemma binary_round_aux_53_carry (s : bool) (m : positive) (e : Z) (l : location) :
  Zpos (digits2_pos m) = 53 -> -1074 <= e <= 970 ->
  round_nearest_even (Zpos m) l = 2 ^ 53 ->
  binary_round_aux 53 1024 s (Zpos m) e l
  = S754_finite s 4503599627370496 (e + 1).
Proof.
  intros Hd He Hr. unfold binary_round_aux.
  rewrite shr_fexp_53 by lia.
  rewrite shr_m_of_loc, loc_of_shr_record_of_loc, Hr.
  change (2 ^ 53) with (Zpos 9007199254740992).
  rewrite shr_fexp_54; [| reflexivity | lia].
  cbn [shr_record_of_loc shr_1 shr_m orb].
  replace (e + 1 <=? 1024 - 53) with true by (symmetry; apply Z.leb_le; lia).
  reflexivity.
Qed.

(** A quotient of a number by itself is one. *)
Lemma div_self (x : spec_float) : pos53 x -> SFdiv 53 1024 x x = F64.one.
Proof.
  intros (m & e & -> & Hd & He).
  unfold SFdiv, SFdiv_core_binary. cbn [Zdigits2 xorb]. rewrite Hd.
  replace (53 + e - (53 + e)) with 0 by lia.
  replace (e - e) with 0 by lia.
  change (Z.min (fexp 53 1024 0) 0) with (-53).
  change (0 - -53) with 53.
  rewrite Z.shiftl_mul_pow2 by lia.
  assert (Hdiv : Z.div_eucl (Zpos m * 2 ^ 53) (Zpos m) = (2 ^ 53, 0)).
  { pose proof (Z.div_mul (2 ^ 53) (Zpos m) ltac:(lia)) as Hq.
    pose proof (Z.mod_mul (2 ^ 53) (Zpos m) ltac:(lia)) as Hr.
    rewrite (Z.mul_comm (2 ^ 53)) in Hq, Hr.
    unfold Z.div, Z.modulo in Hq, Hr.
    destruct (Z.div_eucl (Zpos m * 2 ^ 53) (Zpos m)) as [q r]. congruence. }
  rewrite Hdiv.
  assert (Hl : new_location (Zpos m) 0 = loc_Exact).
  { unfold new_location. destruct (Z.even (Zpos m)); reflexivity. }
  rewrite Hl. reflexivity.
Qed.

(** A quotient of a number by a smaller one is at least one. *)
Lemma div_ge_one (x y : spec_float) :
  pos53 x -> pos53 y -> val y <= val x -> val x <= 2 ^ 900 * val y ->
  SFleb F64.one (SFdiv 53 1024 x y) = true.
Proof.
  intros Hx Hy Hle Hbig.
  destruct (val_pos53 x Hx) as (m1 & e1 & -> & He1 & Hm1 & Ev1 & Hv1).
  destruct (val_pos53 y Hy) as (m2 & e2 & -> & He2 & Hm2 & Ev2 & Hv2).
  destruct Hx as (? & ? & [= <- <-] & Hd1 & _).
  destruct Hy as (? & ? & [= <- <-] & Hd2 & _).
  rewrite Ev1, Ev2 in *.
  assert (Hee : e2 <= e1 <= e2 + 901).
  { split.
    - destruct (Z.le_gt_cases e2 e1) as [L|G]; [assumption|exfalso].
      assert (2 ^ (e1 + 1127) <= 2 ^ (e2 + 1126)) by (apply Z.pow_le_mono_r; lia).
      lia.
    - destruct (Z.le_gt_cases e1 (e2 + 901)) as [L|G]; [assumption|exfalso].
      assert (2 ^ (e2 + 2027) <= 2 ^ (e1 + 1126)) by (apply Z.pow_le_mono_r; lia).
      assert (2 ^ 900 * 2 ^ (e2 + 1127) = 2 ^ (e2 + 2027)) by (apply pow2_split; lia).
      assert (2 ^ 900 * (Zpos m2 * 2 ^ (e2 + 1074)) < 2 ^ 900 * 2 ^ (e2 + 1127))
        by (apply Z.mul_lt_mono_pos_l; lia).
      lia. }
  assert (Hsame : e1 = e2 -> Zpos m2 <= Zpos m1).
  { intros ->. assert (0 < 2 ^ (e2 + 1074)) by (apply pow2_pos; lia).
    apply Z.mul_le_mono_pos_r with (2 ^ (e2 + 1074)); assumption. }
  unfold SFdiv, SFdiv_core_binary. cbn [Zdigits2 xorb]. rewrite Hd1, Hd2.
  replace (53 + e1 - (53 + e2)) with (e1 - e2) by lia.
  rewrite fexp_normal by lia.
  replace (Z.min (e1 - e2 - 53) (e1 - e2)) with (e1 - e2 - 53) by lia.
  replace (e1 - e2 - (e1 - e2 - 53)) with 53 by lia.
  rewrite Z.shiftl_mul_pow2 by lia.
  pose proof (Z_div_mod (Zpos m1 * 2 ^ 53) (Zpos m2) ltac:(lia)) as Hdiv.
  destruct (Z.div_eucl (Zpos m1 * 2 ^ 53) (Zpos m2)) as [q r].
  destruct Hdiv as [Hq Hr].
  pose proof (quotient_53_54 _ _ _ _ Hm1 Hm2 Hq Hr) as Hqb.
  set (l := new_location (Zpos m2) r).
  set (e' := e1 - e2 - 53).
  assert (Hres : exists M e'',
             binary_round_aux 53 1024 false q e' l = S754_finite false M e''
             /\ (-52 < e'' \/ (e'' = -52 /\ 2 ^ 52 <= Zpos M))).
  { destruct q as [|q|q]; try lia.
    destruct (Z.ltb_spec (Zpos q) (2 ^ 53)) as [Hlt|Hge].
    - assert (e2 < e1).
      { destruct (Z.eq_dec e1 e2) as [E|E]; [exfalso|lia].
        specialize (Hsame E).
        assert (Zpos m2 * (Zpos q + 1) <= Zpos m2 * 2 ^ 53)
          by (apply Z.mul_le_mono_nonneg_l; lia).
        assert (Zpos m2 * 2 ^ 53 <= Zpos m1 * 2 ^ 53)
          by (apply Z.mul_le_mono_nonneg_r; lia).
        lia. }
      assert (Hdq : Zpos (digits2_pos q) = 53)
        by (apply digits2_unique; change (53 - 1) with 52; lia).
      pose proof (round_nearest_even_bounds (Zpos q) l) as Hrb.
      destruct (Z.ltb_spec (round_nearest_even (Zpos q) l) (2 ^ 53)) as [L|G].
      + rewrite binary_round_aux_53 by (assumption || (unfold e'; lia)).
        eexists. eexists. split; [reflexivity|].
        destruct (Z.eq_dec e' (-52)) as [E|E]; [right | left; unfold e' in *; lia].
        split; [exact E|]. rewrite Z2Pos.id by lia. lia.
      + rewrite binary_round_aux_53_carry
          by (assumption || (unfold e'; lia) || lia).
        eexists. eexists. split; [reflexivity|]. left. unfold e'. lia.
    - destruct (binary_round_aux_54 false q e' l) as (M & HM & Hb1 & Hb2);
        [apply digits2_unique; change (54 - 1) with 53; lia
        | unfold e'; lia | lia |].
      exists M, (e' + 1). split; [exact HM|].
      assert (2 ^ 52 <= Zpos q / 2) by (apply Z.div_le_lower_bound; lia).
      destruct (Z.eq_dec (e' + 1) (-52)) as [E|E]; [right | left; unfold e' in *; lia].
      split; [exact E | lia]. }
  destruct Hres as (M & e'' & -> & Hcmp).
  rewrite one_eq. unfold SFleb. cbn [SFcompare].
  destruct Hcmp as [L|[-> HM]].
  - replace (-52 ?= e'') with Lt by (symmetry; apply Z.compare_lt_iff; lia).
    reflexivity.
  - rewrite Z.compare_refl.
    change (Pos.compare_cont Eq 4503599627370496 M)
      with (Zpos 4503599627370496 ?= Zpos M).
    destruct (Z.compare_spec (Zpos 4503599627370496) (Zpos M)); try reflexivity.
    change (Zpos 4503599627370496) with (2 ^ 52) in *. lia.
Qed.

Lemma small_product_spec (p : F64.t) :
  small_product p = true -> nonneg p /\ val p < 2 ^ 1082.
Proof.
  destruct p as [[|]| | |[|] m e]; try discriminate.
  - intros _. split; [left; reflexivity | cbn; lia].
  - cbn [small_product]. intros H.
    apply andb_prop in H as [H H3]. apply andb_prop in H as [H1 H2].
    apply Z.eqb_eq in H1. apply Z.leb_le in H2, H3.
    assert (Hp : pos53 (S754_finite false m e)).
    { exists m, e. split; [reflexivity|]. split; [assumption | lia]. }
    split; [right; exact Hp|].
    destruct (val_pos53 _ Hp) as (m' & e' & [= <- <-] & _ & _ & _ & Hv).
    assert (2 ^ (e + 1127) <= 2 ^ 1082) by (apply Z.pow_le_mono_r; lia).
    lia.
Qed.

Lemma close_product_spec (w : Z) (p : F64.t) (v : Z) :
  close_product w p v = true ->
  nonneg p /\ val p < 2 ^ 1082
  /\ Z.abs (1000 * val p - w * v * 2 ^ 1074) <= 1000 * 2 ^ 1030.
Proof.
  unfold close_product. intros H. apply andb_prop in H as [H1 H2].
  apply small_product_spec in H1 as [Hn Hv]. apply Z.leb_le in H2. auto.
Qed.

Lemma add_close (x y : F64.t) (k : Z) :
  nonneg x -> nonneg y -> 1074 <= k <= 1900 -> val x + val y < 2 ^ k ->
  nonneg (F64.add x y)
  /\ val (F64.add x y) <= 2 ^ k
  /\ Z.abs (val (F64.add x y) - (val x + val y)) <= 2 ^ (k - 53).
Proof.
  intros Hx Hy Hk Hs. unfold F64.add, F64.prec, F64.emax.
  assert (H2000 : 2 ^ k < 2 ^ 2000) by (apply Z.pow_lt_mono_r; lia).
  destruct (add_val x y Hx Hy ltac:(lia)) as [Hn Hv].
  assert (H0 : val x + val y = 0 \/ 2 ^ 52 <= val x + val y).
  { destruct (val_nonneg x Hx), (val_nonneg y Hy); lia. }
  split; [exact Hn|]. rewrite Hv. split.
  - apply rnd_le_pow; [assumption | lia | assumption].
  - pose proof (rnd_error_nn _ H0) as He.
    assert (E : 2 ^ 53 * 2 ^ (k - 53) = 2 ^ k) by (apply pow2_split; lia).
    assert (0 < 2 ^ (k - 53)) by (apply pow2_pos; lia).
    destruct (Z.le_gt_cases (Z.abs (rnd (val x + val y) - (val x + val y)))
                (2 ^ (k - 53))) as [L|G]; [exact L|exfalso].
    assert (2 ^ 53 * 2 ^ (k - 53)
            <= 2 ^ 53 * Z.abs (rnd (val x + val y) - (val x + val y)))
      by (apply Z.mul_le_mono_nonneg_l; lia).
    lia.
Qed.

Lemma gtb_val (x y : F64.t) : nonneg x -> nonneg y -> F64.gtb x y = (val y <? val x).
Proof. intros Hx Hy. unfold F64.gtb. apply SFltb_val; assumption. Qed.

(* ================================================================== *)
(** * Facts about the exact arithmetic *)

(** Truncating the quotient of two ints is their integer quotient
    rounded toward zero. *)
Lemma int_truediv (a b : Z) :
  b <> 0 -> Py.int (inject_Z a / inject_Z b) = Z.quot a b.
Proof.
  intros Hb. unfold Py.int.
  destruct b as [|b|b]; [congruence| |]; cbn.
  - rewrite Z.mul_1_r. reflexivity.
  - change (Z.neg b) with (- Z.pos b).
    rewrite Z.quot_opp_r, <- Z.quot_opp_l by discriminate.
    f_equal. lia.
Qed.

Lemma int_truediv_nonneg (a b : Z) :
  0 <= a -> 0 < b -> Py.int (inject_Z a / inject_Z b) = a / b.
Proof.
  intros Ha Hb. rewrite int_truediv by lia. apply Z.quot_div_nonneg; lia.
Qed.

Lemma center_quot (extent inner : Z) :
  center extent inner = Z.quot (extent - inner) 2.
Proof.
  unfold center, Py.int. cbn.
  replace (extent * 1 * 2 + - (inner * 1) * 2) with (2 * (extent - inner)) by lia.
  change 4 with (2 * 2). apply Z.quot_mul_cancel_l; discriminate.
Qed.

Lemma center_floor_div (extent inner : Z) :
  center_floor extent inner = (extent - inner) / 2.
Proof.
  unfold center_floor, Qfloor. cbn.
  replace (extent * 1 * 2 + - (inner * 1) * 2) with ((extent - inner) * 2) by lia.
  change 4 with (2 * 2). apply Z.div_mul_cancel_r; discriminate.
Qed.

(** Truncation and floor of a half agree exactly on the non-negative
    and on the even numbers. *)
Lemma quot_2_eq_div_2 (x : Z) :
  Z.quot x 2 = x / 2 <-> 0 <= x \/ Z.even x = true.
Proof.
  destruct (Z.leb_spec 0 x) as [Hx|Hx].
  - rewrite Z.quot_div_nonneg by lia. tauto.
  - pose proof (Z.quot_rem x 2 ltac:(lia)) as Hq.
    pose proof (Z.rem_bound_pos_neg x 2 ltac:(lia) ltac:(lia)) as Hr.
    pose proof (Z.div_mod x 2 ltac:(lia)) as Hd.
    pose proof (Z.mod_pos_bound x 2 ltac:(lia)) as Hm.
    rewrite (Zeven_mod x). 
    destruct (Z.eqb_spec (x mod 2) 0) as [E|E]; split; intros H; lia.
Qed.

(* ================================================================== *)
(** * Agreement of the exact arithmetic with binary64

    The two truncations the source takes of a float, [int(w / h)] and
    [int(w / 2 - c / 2)], computed in binary64 on ints below 2^52, are
    what the exact model computes. *)

Lemma truediv_agrees_with_binary64 (a b : Z) :
  0 <= a < 2 ^ 52 -> 0 < b < 2 ^ 52 ->
  F64.to_int (F64.div (F64.of_int a) (F64.of_int b))
  = Ok (Py.int (inject_Z a / inject_Z b)).
Proof.
  intros Ha Hb. rewrite int_truediv_nonneg by lia.
  destruct b as [|b|b]; try lia.
  destruct a as [|a|a]; try lia.
  - rewrite of_int_pos_normal by (apply digits_lt_53; lia). reflexivity.
  - apply to_int_div_pos; lia.
Qed.

Lemma center_agrees_with_binary64 (extent inner : Z) :
  Z.abs extent < 2 ^ 52 -> Z.abs inner < 2 ^ 52 ->
  F64.to_int (F64.sub (half extent) (half inner)) = Ok (center extent inner).
Proof.
  intros He Hi. rewrite center_quot. apply to_int_sub_halves; assumption.
Qed.

(* ================================================================== *)
(** * The resizer *)

Lemma scaled_width_quotient (W H th : Z) :
  0 <= W -> 0 < H ->
  scaled_width (inject_Z W / inject_Z H) th = W / H * th.
Proof.
  intros HW HH. unfold scaled_width. now rewrite int_truediv_nonneg.
Qed.

(** What [resized_image] is when the resize goes through. *)
Lemma resize_size (im : Image.t) (size : Z * Z) (w : world) :
  1 <= fst size -> 1 <= snd size ->
  exists out w',
    PIL.resize im size w = (Ok out, w')
    /\ Image.size out = size /\ Image.mode out = Image.mode im
    /\ files w' = files w /\ fonts w' = fonts w.
Proof.
  intros Hw Hh. unfold PIL.resize.
  destruct ((fst size =? Image.width im) && (snd size =? Image.height im)) eqn:E.
  - apply andb_prop in E as [E1 E2]. apply Z.eqb_eq in E1, E2.
    exists im, w. run_monad. unfold Image.size. rewrite <- E1, <- E2.
    destruct size; auto.
  - replace ((fst size <? 1) || (snd size <? 1)) with false
      by (symmetry; apply orb_false_iff; split; apply Z.ltb_ge; lia).
    eexists. eexists. run_monad. split; [reflexivity|].
    destruct size; auto.
Qed.

(** A source taller than wide: the truncated ratio is 0, so a width of
    0 is requested and Pillow refuses it; nothing has been done yet. *)
Lemma resize_portrait_raises (image : Image.t) (tw th : Z) (w : world) :
  0 < Image.width image < Image.height image -> 0 < th ->
  resize_and_center_image image tw th w = (Raise ValueError, w).
Proof.
  intros HW Hth. unfold resize_and_center_image, Py.truediv.
  destruct (Z.eqb_spec (Image.height image) 0) as [E|E]; [lia|].
  run_monad. rewrite scaled_width_quotient by lia.
  rewrite Z.div_small by lia. cbn [Z.mul].
  unfold PIL.resize. cbn [fst snd].
  destruct (Z.eqb_spec 0 (Image.width image)) as [E0|E0]; [lia|].
  reflexivity.
Qed.

Lemma resize_landscape_returns (image : Image.t) (tw th : Z) (w : world) :
  0 < Image.height image <= Image.width image -> 0 < tw -> 0 < th ->
  exists out w',
    resize_and_center_image image tw th w = (Ok out, w')
    /\ Image.height out = th
    /\ Image.width out
       = Z.min (Image.width image / Image.height image * th) tw.
Proof.
  intros HW Htw Hth. unfold resize_and_center_image, Py.truediv.
  destruct (Z.eqb_spec (Image.height image) 0) as [E|E]; [lia|].
  run_monad. rewrite scaled_width_quotient by lia.
  set (nw := Image.width image / Image.height image * th).
  assert (Hq : 1 <= Image.width image / Image.height image).
  { apply Z.div_le_lower_bound; lia. }
  assert (Hnw : 1 <= nw) by (unfold nw; nia).
  destruct (resize_size image (nw, th) w) as (r & w1 & Hr & Hs & _);
    [cbn; lia .. |].
  rewrite Hr. unfold Image.size in Hs. injection Hs as Hrw Hrh.
  rewrite Z.gtb_ltb. destruct (Z.ltb_spec tw nw) as [L|G].
  - unfold PIL.crop, Py.floordiv.
    set (x := (nw - tw) / 2).
    replace ((x + tw <? x) || (th <? 0)) with false
      by (symmetry; apply orb_false_iff; split; apply Z.ltb_ge; lia).
    run_monad. eexists. eexists. split; [reflexivity|]. cbn. lia.
  - exists r, w1. split; [reflexivity|]. lia.
Qed.

(** C1, as stated, fails on a square 300x300 source with a 300x300
    target: the image comes back 300 wide, equal to the target width,
    although the truncated ratio times the target height (300) does
    not exceed the target width. *)
Lemma resize_width_only_when_exceeding_counterexample :
  ~ (exists out,
       fst (resize_and_center_image (Image.mk RGB 300 300) 300 300 fresh) = Ok out
       /\ Image.height out = 300
       /\ (Image.width out = 300
           <-> 300 < scaled_width (inject_Z 300 / inject_Z 300) 300)).
Proof.
  intros (out & Hrun & _ & Hiff).
  vm_compute in Hrun. injection Hrun as <-.
  destruct Hiff as [Hiff _]. specialize (Hiff eq_refl).
  vm_compute in Hiff. discriminate.
Qed.

(** C1 (amended): for a source with positive width and height that
    is at least as wide as it is high, and positive target dimensions,
    the image returned by [resize_and_center_image] has height exactly
    [target_height] and width the smaller of [target_width] and the
    truncated ratio times [target_height]; so its width equals
    [target_width] exactly when that product is at least
    [target_width] (a product equal to it is returned uncropped), and
    is the narrower product, with no padding, otherwise. *)
Theorem resize_and_center_image_size
  (image : Image.t) (target_width target_height : Z) (w : world) :
  0 < Image.height image <= Image.width image ->
  0 < target_width -> 0 < target_height ->
  let new_width :=
    scaled_width (inject_Z (Image.width image) / inject_Z (Image.height image))
                 target_height in
  new_width = Image.width image / Image.height image * target_height
  /\ exists out w',
       resize_and_center_image image target_width target_height w = (Ok out, w')
       /\ Image.height out = target_height
       /\ Image.width out = Z.min new_width target_width
       /\ (Image.width out = target_width <-> target_width <= new_width).
Proof.
  intros HW Htw Hth new_width.
  assert (Hnw : new_width
                = Image.width image / Image.height image * target_height)
    by (apply scaled_width_quotient; lia).
  split; [exact Hnw|].
  destruct (resize_landscape_returns image target_width target_height w)
    as (out & w' & Hrun & Hh & Hwd); [lia .. |].
  exists out, w'. rewrite Hnw. repeat split; try assumption; lia.
Qed.

Lemma resize_and_center_image_size_witness :
  let image := Image.mk RGB 640 480 in
  exists out w',
    resize_and_center_image image 200 300 fresh = (Ok out, w')
    /\ Image.height out = 300
    /\ Image.width out = Z.min 300 200
    /\ (Image.width out = 200 <-> 200 <= 300).
Proof.
  intros image.
  exact (proj2 (resize_and_center_image_size image 200 300 fresh
                  ltac:(cbn; lia) ltac:(lia) ltac:(lia))).
Defined.

(** C2: on a 400x300 source with target width 200 and target height
    300 the ratio 400/300 truncates to 1, the new width is 1 * 300 =
    300, and since 300 > 200 the resized image is cropped around its
    centre: the result is exactly 200x300. *)
Theorem resize_400x300_to_200x300 (m : Mode) (w : world) :
  Py.int (inject_Z 400 / inject_Z 300) = 1
  /\ scaled_width (inject_Z 400 / inject_Z 300) 300 = 300
  /\ resize_and_center_image (Image.mk m 400 300) 200 300 w
     = (Ok (Image.mk m 200 300),
        mkWorld ((ops w ++ [OpResize (Image.mk m 400 300) (300, 300)])
                 ++ [OpCrop (Image.mk m 300 300) (50, 0, 250, 300)])
                (files w) (fonts w)).
Proof.
  split; [reflexivity|]. split; [reflexivity|].
  destruct w as [o f t]. reflexivity.
Qed.

(** C10 (a defect of the code): on a 300x400 source with target
    200x300 the ratio 300/400 = 0.75 is truncated to 0 by
    [int(aspect_ratio)], the new width is 0 * 300 = 0, and the resize
    to width 0 is refused: the call raises [ValueError] before any
    raster work and returns no image, of width 0 or other.  The same
    happens on every source higher than wide
    ([resize_portrait_raises]), although the function is documented to
    return the resized image with its aspect ratio preserved. *)
Theorem resize_portrait_300x400_raises :
  Py.int (inject_Z 300 / inject_Z 400) = 0
  /\ scaled_width (inject_Z 300 / inject_Z 400) 300 = 0
  /\ resize_and_center_image (Image.mk RGB 300 400) 200 300 fresh
     = (Raise ValueError, fresh)
  /\ ~ (exists out,
          fst (resize_and_center_image (Image.mk RGB 300 400) 200 300 fresh)
          = Ok out).
Proof.
  split; [reflexivity|]. split; [reflexivity|].
  assert (H : resize_and_center_image (Image.mk RGB 300 400) 200 300 fresh
              = (Raise ValueError, fresh)).
  { apply resize_portrait_raises; cbn; lia. }
  split; [exact H|]. rewrite H. intros (out & Hout). discriminate.
Qed.

(* ================================================================== *)
(** * The darkest of two colours *)

Lemma sum_of_squares_bounds (c : Color) :
  valid_color c -> 0 <= sum_of_squares (rgb c) <= 195075.
Proof.
  unfold valid_color, channel, sum_of_squares.
  intros (Hr & Hg & Hb). rewrite !Z.pow_2_r. nia.
Qed.

(** On colours the comparison of the two rounded distances is the
    comparison of the two sums of squares. *)
Lemma distance_gtb (a b : Color) :
  valid_color a -> valid_color b ->
  F64.gtb (distance_from_black (rgb a)) (distance_from_black (rgb b))
  = (sum_of_squares (rgb b) <? sum_of_squares (rgb a)).
Proof.
  intros Ha Hb. unfold F64.gtb, distance_from_black.
  pose proof (sum_of_squares_bounds a Ha).
  pose proof (sum_of_squares_bounds b Hb).
  apply sqrt_of_int_ltb; lia.
Qed.

Lemma find_darkest_color_pair (a b : Color) (rest : list Color) :
  valid_color a -> valid_color b ->
  find_darkest_color (a :: b :: rest)
  = Ok (if sum_of_squares (rgb b) <? sum_of_squares (rgb a)
        then [a; b] else [b; a]).
Proof.
  intros Ha Hb. unfold find_darkest_color. cbn [Py.index nth_error].
  rewrite distance_gtb by assumption.
  destruct (_ <? _); reflexivity.
Qed.

(** C3 (a defect of the code): on black and white
    [find_darkest_color] returns white first.  Black is the colour
    closer to black (distance 0 against sqrt(3 * 255^2)), so the
    colour the function is named and documented to find comes second:
    the test [distance1 > distance2] keeps the order of the arguments
    when the first is the farther one and swaps them otherwise. *)
Theorem find_darkest_color_black_white :
  find_darkest_color [black; white] = Ok [white; black]
  /\ find_darkest_color [white; black] = Ok [white; black]
  /\ sum_of_squares (rgb black) < sum_of_squares (rgb white)
  /\ not_farther black white
  /\ ~ not_farther white black.
Proof.
  repeat split; try (vm_compute; reflexivity).
  intros H. vm_compute in H. discriminate.
Qed.

(** C4, as stated, fails on (1,0,0) and (0,1,0), both at distance 1
    from black: each order of the arguments puts its second argument
    first. *)
Lemma find_darkest_color_swap_counterexample :
  first_color (find_darkest_color [mkColor (1, 0, 0); mkColor (0, 1, 0)])
  <> first_color (find_darkest_color [mkColor (0, 1, 0); mkColor (1, 0, 0)]).
Proof. vm_compute. discriminate. Qed.

(** C4 (amended): for every pair of colours at different distances
    from black (different R^2+G^2+B^2), the first element of the result is the same for the
    order (a, b) and the order (b, a); at equal distances the first
    element is the second argument, whichever order is given. *)
Theorem find_darkest_color_swap (a b : Color) :
  valid_color a -> valid_color b ->
  (sum_of_squares (rgb a) <> sum_of_squares (rgb b) ->
   first_color (find_darkest_color [a; b])
   = first_color (find_darkest_color [b; a]))
  /\ (sum_of_squares (rgb a) = sum_of_squares (rgb b) ->
      first_color (find_darkest_color [a; b]) = Some b
      /\ first_color (find_darkest_color [b; a]) = Some a).
Proof.
  intros Ha Hb. rewrite !find_darkest_color_pair by assumption.
  split; intros H.
  - destruct (Z.ltb_spec (sum_of_squares (rgb b)) (sum_of_squares (rgb a)));
      destruct (Z.ltb_spec (sum_of_squares (rgb a)) (sum_of_squares (rgb b)));
      try reflexivity; lia.
  - rewrite H, Z.ltb_irrefl. split; reflexivity.
Qed.

Lemma find_darkest_color_swap_witness :
  (sum_of_squares (rgb black) <> sum_of_squares (rgb white) ->
   first_color (find_darkest_color [black; white])
   = first_color (find_darkest_color [white; black]))
  /\ (sum_of_squares (rgb black) = sum_of_squares (rgb white) ->
      first_color (find_darkest_color [black; white]) = Some white
      /\ first_color (find_darkest_color [white; black]) = Some black).
Proof.
  apply (find_darkest_color_swap black white);
    unfold valid_color, channel; cbn; lia.
Defined.

(* ================================================================== *)
(** * The text colour *)

Lemma truetype_present (path : string) (size : Z) (w : world) :
  In path (fonts w) -> PIL.truetype path size w = (Ok (path, size), w).
Proof.
  intros Hin. unfold PIL.truetype.
  replace (existsb (String.eqb path) (fonts w)) with true; [reflexivity|].
  symmetry. apply existsb_exists. exists path. split; [assumption|].
  apply String.eqb_refl.
Qed.

Lemma new_nonneg (m : Mode) (size : Z * Z) (w : world) :
  0 <= fst size -> 0 <= snd size ->
  PIL.new m size w
  = (Ok (Image.mk m (fst size) (snd size)),
     mkWorld (ops w ++ [OpNew m size]) (files w) (fonts w)).
Proof.
  intros Hw Hh. unfold PIL.new.
  replace ((fst size <? 0) || (snd size <? 0)) with false
    by (symmetry; apply orb_false_iff; split; apply Z.ltb_ge; lia).
  reflexivity.
Qed.

Lemma new_negative (m : Mode) (size : Z * Z) (w : world) :
  fst size < 0 \/ snd size < 0 -> PIL.new m size w = (Raise ValueError, w).
Proof.
  intros H. unfold PIL.new.
  replace ((fst size <? 0) || (snd size <? 0)) with true; [reflexivity|].
  symmetry. apply orb_true_iff.
  destruct H; [left|right]; apply Z.ltb_lt; assumption.
Qed.

(** The 256 values of a channel, one by one. *)
Lemma channel_in_levels (v : Z) : channel v -> In v levels.
Proof.
  intros [Hlo Hhi]. unfold levels. apply in_map_iff.
  exists (Z.to_nat v). split; [lia|]. apply in_seq. lia.
Qed.

Lemma levels_all (P : Z -> bool) (v : Z) :
  forallb P levels = true -> channel v -> P v = true.
Proof.
  intros H Hv. rewrite forallb_forall in H. apply H.
  apply channel_in_levels. exact Hv.
Qed.

Lemma brightness_products_all : forallb brightness_products levels = true.
Proof. vm_compute. reflexivity. Qed.

Lemma tie_rule_all :
  forallb (fun r => forallb (tie_rule r) levels) levels = true.
Proof. vm_compute. reflexivity. Qed.

(** The brightness of a colour, against the exact weighted sum. *)
Lemma brightness_close (r g b : Z) :
  channel r -> channel g -> channel b ->
  nonneg (brightness (r, g, b))
  /\ Z.abs (1000 * val (brightness (r, g, b))
            - (299 * r + 587 * g + 114 * b) * 2 ^ 1074)
     <= 1000 * 2 ^ 1033.
Proof.
  intros Hr Hg Hb.
  pose proof (levels_all _ r brightness_products_all Hr) as Tr.
  pose proof (levels_all _ g brightness_products_all Hg) as Tg.
  pose proof (levels_all _ b brightness_products_all Hb) as Tb.
  unfold brightness_products in Tr, Tg, Tb.
  apply andb_prop in Tr as [Tr _]. apply andb_prop in Tr as [Tr _].
  apply andb_prop in Tg as [Tg _]. apply andb_prop in Tg as [_ Tg].
  apply andb_prop in Tb as [_ Tb].
  apply close_product_spec in Tr as (Nr & Br & Er).
  apply close_product_spec in Tg as (Ng & Bg & Eg).
  apply close_product_spec in Tb as (Nb & Bb & Eb).
  unfold brightness, red, green, blue. cbn [fst snd].
  set (pr := F64.mul (F64.of_int r) F64.lit_0_299) in *.
  set (pg := F64.mul (F64.of_int g) F64.lit_0_587) in *.
  set (pb := F64.mul (F64.of_int b) F64.lit_0_114) in *.
  assert (P83 : 2 ^ 1083 = 2 * 2 ^ 1082) by reflexivity.
  assert (P84 : 2 ^ 1084 = 4 * 2 ^ 1082) by reflexivity.
  destruct (add_close pr pg 1083 Nr Ng ltac:(lia) ltac:(lia)) as (N1 & B1 & E1).
  assert (Hx : val (F64.add pr pg) + val pb < 2 ^ 1084).
  { lia. }
  destruct (add_close (F64.add pr pg) pb 1084 N1 Nb ltac:(lia) Hx)
    as (N2 & B2 & E2).
  split; [exact N2|].
  change (2 ^ (1083 - 53)) with (2 ^ 1030) in E1.
  change (2 ^ (1084 - 53)) with (2 * 2 ^ 1030) in E2.
  change (2 ^ 1033) with (8 * 2 ^ 1030).
  set (S := 2 ^ 1074) in *. set (U := 2 ^ 1030) in *.
  clearbody S U. clear P83 P84 B1 B2 Br Bg Bb.
  lia.
Qed.

Lemma val_186 : val (F64.of_int 186) = 186 * 2 ^ 1074.
Proof. reflexivity. Qed.

Lemma nonneg_186 : nonneg (F64.of_int 186).
Proof.
  right. exists 6544293208522752%positive, (-45).
  split; [reflexivity|]. split; [reflexivity|lia].
Qed.

(** The text colour, from the exact weighted sum in thousandths. *)
Lemma text_color_exact (r g b : Z) :
  channel r -> channel g -> channel b ->
  contrasting_text_color (r, g, b)
  = if (186000 <? 299 * r + 587 * g + 114 * b)
       || ((r =? 170) && (g =? 226) && (b =? 22))
    then (0, 0, 0) else (255, 255, 255).
Proof.
  intros Hr Hg Hb.
  destruct (brightness_close r g b Hr Hg Hb) as [Nt Et].
  set (T := 299 * r + 587 * g + 114 * b) in *.
  destruct (Z.eq_dec T 186000) as [E|E].
  - (* the exact sum is 186: one colour per red and green *)
    pose proof (levels_all _ r tie_rule_all Hr) as H.
    pose proof (levels_all _ g H Hg) as H'. clear H.
    unfold tie_rule in H'.
    assert (Hrest : 186000 - 299 * r - 587 * g = b * 114) by (unfold T in E; lia).
    rewrite Hrest, Z.mod_mul, Z.div_mul in H' by lia.
    unfold channel in Hb.
    replace (0 <=? b) with true in H' by (symmetry; apply Z.leb_le; lia).
    replace (b <=? 255) with true in H' by (symmetry; apply Z.leb_le; lia).
    cbn [Z.eqb andb] in H'.
    rewrite E. cbn [Z.ltb Z.compare Pos.compare Pos.compare_cont orb].
    destruct (contrasting_text_color (r, g, b)) as [[x y] z].
    destruct ((r =? 170) && (g =? 226) && (b =? 22)).
    + apply andb_prop in H' as [H1 H3]. apply andb_prop in H1 as [H1 H2].
      apply Z.eqb_eq in H1, H2, H3. congruence.
    + apply andb_prop in H' as [H1 H3]. apply andb_prop in H1 as [H1 H2].
      apply Z.eqb_eq in H1, H2, H3. congruence.
  - assert (Hne : (r =? 170) && (g =? 226) && (b =? 22) = false).
    { destruct (Z.eqb_spec r 170), (Z.eqb_spec g 226), (Z.eqb_spec b 22);
        try reflexivity. exfalso. unfold T in E. lia. }
    rewrite Hne, orb_false_r.
    unfold contrasting_text_color, F64.gtb.
    rewrite SFltb_val by (exact nonneg_186 || exact Nt). rewrite val_186.
    change (2 ^ 1033) with (2 ^ 1074 / 2 ^ 41) in Et.
    set (S := 2 ^ 1074) in *.
    assert (HS : S = 2 ^ 41 * (S / 2 ^ 41)) by reflexivity.
    assert (0 < S / 2 ^ 41) by reflexivity.
    clearbody S.
    destruct (Z.ltb_spec 186000 T) as [L|G].
    + assert (186001 * S <= T * S) by (apply Z.mul_le_mono_nonneg_r; lia).
      replace (186 * S <? val (brightness (r, g, b))) with true;
        [reflexivity|]. symmetry. apply Z.ltb_lt. lia.
    + assert (T * S <= 185999 * S) by (apply Z.mul_le_mono_nonneg_r; lia).
      replace (186 * S <? val (brightness (r, g, b))) with false;
        [reflexivity|]. symmetry. apply Z.ltb_ge. lia.
Qed.

(** C5, as stated, fails on a first entry (170, 226, 22): its weighted
    sum 0.299 * 170 + 0.587 * 226 + 0.114 * 22 is 186 exactly, which
    does not exceed 186, so the text should be white; it is drawn in
    black, the binary64 sum being the next number above 186. *)
Lemma generate_text_image_fill_counterexample :
  let c := mkColor (170, 226, 22) in
  let claimed :=
    if 186000 <? 299 * 170 + 587 * 226 + 114 * 22
    then (0, 0, 0) else (255, 255, 255) in
  ~ (exists text w',
       generate_text_image "Song" "Artist" [c] (480, 320) 50 50 fresh
       = (Ok text, w')
       /\ In (OpText text (50, 50) ("Song" ++ newline ++ "Artist") 40 claimed)
             (ops w')).
Proof.
  intros c claimed (text & w' & Hrun & Hin).
  vm_compute in Hrun. injection Hrun as <- <-.
  cbn [ops] in Hin. destruct Hin as [E|[E|[]]]; vm_compute in E; discriminate.
Qed.

(** C5 (amended): for every palette whose first entry has its channels
    in [0, 255] the fill of the text drawn by [generate_text_image] is
    decided by that entry alone: opaque black when 0.299 R + 0.587 G +
    0.114 B exceeds 186, and also on (170, 226, 22), where that sum is
    exactly 186; opaque white otherwise.  The weighted sum is taken
    here in thousandths, as the int 299 R + 587 G + 114 B.  The code
    compares the binary64 sum with 186, and on colours the rounding
    changes the outcome at that one entry only.  A first entry
    (255,255,255) gives black and a first entry (0,0,0) gives white. *)
Theorem generate_text_image_fill
  (song_title artist_name : string) (c : Color) (rest : list Color)
  (display : Z * Z) (x y : Z) (w : world) :
  valid_color c ->
  0 <= fst display -> 0 <= snd display ->
  In "./fonts/Rubik.ttf"%string (fonts w) ->
  let r := red (rgb c) in
  let g := green (rgb c) in
  let b := blue (rgb c) in
  let fill :=
    if (186000 <? 299 * r + 587 * g + 114 * b)
       || ((r =? 170) && (g =? 226) && (b =? 22))
    then (0, 0, 0) else (255, 255, 255) in
  let text := Image.mk RGBA (fst display) (snd display) in
  generate_text_image song_title artist_name (c :: rest) display x y w
  = (Ok text,
     mkWorld ((ops w ++ [OpNew RGBA (fst display, snd display)])
              ++ [OpText text (x, y) (song_title ++ newline ++ artist_name)
                         40 fill])
             (files w) (fonts w))
  /\ (rgb c = (255, 255, 255) -> fill = (0, 0, 0))
  /\ (rgb c = (0, 0, 0) -> fill = (255, 255, 255)).
Proof.
  intros Hc Hw Hh Hfont r g b fill text. split; [|split].
  - unfold generate_text_image. cbn [Py.index nth_error]. run_monad.
    rewrite (new_nonneg RGBA (fst display, snd display) w) by assumption.
    cbn [fst snd].
    rewrite truetype_present by assumption.
    destruct Hc as (Hr & Hg & Hb).
    replace (rgb c) with (r, g, b)
      by (unfold r, g, b, red, green, blue; destruct (rgb c) as [[? ?] ?];
          reflexivity).
    rewrite text_color_exact by assumption.
    reflexivity.
  - intros E. unfold fill, r, g, b. rewrite E. reflexivity.
  - intros E. unfold fill, r, g, b. rewrite E. reflexivity.
Qed.

Lemma generate_text_image_fill_witness :
  let text := Image.mk RGBA 480 320 in
  generate_text_image "Song" "Artist" [white; black] (480, 320) 50 50 fresh
  = (Ok text,
     mkWorld [OpNew RGBA (480, 320);
              OpText text (50, 50) ("Song" ++ newline ++ "Artist") 40 (0, 0, 0)]
             [] ["./fonts/Rubik.ttf"%string]).
Proof.
  intros text.
  exact (proj1 (generate_text_image_fill "Song" "Artist" white [black]
                  (480, 320) 50 50 fresh
                  ltac:(unfold valid_color, channel; cbn; lia)
                  ltac:(cbn; lia) ltac:(cbn; lia) ltac:(cbn; auto))).
Defined.

(** The rounding decides the colour on the boundary: for (170, 226, 22)
    the exact weighted sum is 186, which does not exceed 186, but the
    binary64 sum is the next number above 186, and the text is black.
    On (186, 186, 186), another colour whose exact sum is 186, the
    binary64 sum does not exceed 186 and the text is white. *)
Example brightness_on_the_boundary :
  299 * 170 + 587 * 226 + 114 * 22 = 186 * 1000
  /\ brightness (170, 226, 22) = S754_finite false 0x17400000000001 (-45)
  /\ F64.of_int 186 = S754_finite false 0x17400000000000 (-45)
  /\ contrasting_text_color (170, 226, 22) = (0, 0, 0)
  /\ contrasting_text_color (186, 186, 186) = (255, 255, 255).
Proof. repeat split; vm_compute; reflexivity. Qed.

(* ================================================================== *)
(** * Luminance and contrast *)

Lemma luminance_products_all : forallb luminance_products levels = true.
Proof. vm_compute. reflexivity. Qed.

Lemma luminance_small (c : Color) :
  valid_color c -> nonneg (calculate_relative_luminance c) /\ val (calculate_relative_luminance c) <= 2 ^ 1084.
Proof.
  destruct c as [[[r g] b]]. unfold valid_color, red, green, blue.
  cbn [rgb fst snd]. intros (Hr & Hg & Hb).
  pose proof (levels_all _ r luminance_products_all Hr) as Tr.
  pose proof (levels_all _ g luminance_products_all Hg) as Tg.
  pose proof (levels_all _ b luminance_products_all Hb) as Tb.
  unfold luminance_products in Tr, Tg, Tb.
  apply andb_prop in Tr as [Tr _]. apply andb_prop in Tr as [Tr _].
  apply andb_prop in Tg as [Tg _]. apply andb_prop in Tg as [_ Tg].
  apply andb_prop in Tb as [_ Tb].
  apply small_product_spec in Tr as (Nr & Br).
  apply small_product_spec in Tg as (Ng & Bg).
  apply small_product_spec in Tb as (Nb & Bb).
  unfold calculate_relative_luminance. cbn [rgb].
  set (pr := F64.mul F64.lit_0_2126 (F64.of_int r)) in *.
  set (pg := F64.mul F64.lit_0_7152 (F64.of_int g)) in *.
  set (pb := F64.mul F64.lit_0_0722 (F64.of_int b)) in *.
  assert (P83 : 2 ^ 1083 = 2 * 2 ^ 1082) by reflexivity.
  assert (P84 : 2 ^ 1084 = 4 * 2 ^ 1082) by reflexivity.
  destruct (add_close pr pg 1083 Nr Ng ltac:(lia) ltac:(lia)) as (N1 & B1 & _).
  assert (Hx : val (F64.add pr pg) + val pb < 2 ^ 1084) by lia.
  destruct (add_close (F64.add pr pg) pb 1084 N1 Nb ltac:(lia) Hx)
    as (N2 & B2 & _).
  split; assumption.
Qed.

Lemma pos53_lit_0_05 : pos53 F64.lit_0_05.
Proof.
  exists 0x1999999999999a%positive, (-57).
  split; [reflexivity|]. split; [reflexivity|lia].
Qed.

(** A luminance shifted by 0.05. *)
Lemma shifted_luminance (l : F64.t) :
  nonneg l -> val l <= 2 ^ 1084 ->
  pos53 (F64.add l F64.lit_0_05)
  /\ val (F64.add l F64.lit_0_05) = rnd (val l + val F64.lit_0_05)
  /\ 2 ^ 1069 <= val (F64.add l F64.lit_0_05) <= 2 ^ 1085.
Proof.
  intros Hl Hb.
  assert (Hc : val F64.lit_0_05 < 2 ^ 1084) by reflexivity.
  assert (Hc1 : 2 ^ 1069 <= val F64.lit_0_05) by (apply Z.leb_le; reflexivity).
  assert (P52 : 2 ^ 52 <= 2 ^ 1069) by (apply Z.pow_le_mono_r; lia).
  assert (Hc0 : 2 ^ 52 <= val F64.lit_0_05) by (apply val_pos53_lower, pos53_lit_0_05).
  assert (P85 : 2 ^ 1085 = 2 * 2 ^ 1084) by reflexivity.
  assert (P2000 : 2 ^ 1085 < 2 ^ 2000) by reflexivity.
  assert (H0 : 0 <= val l) by (destruct (val_nonneg l Hl); lia).
  unfold F64.add, F64.prec, F64.emax.
  destruct (add_val l F64.lit_0_05 Hl (or_intror pos53_lit_0_05) ltac:(lia))
    as [Hn Hv].
  pose proof (rnd_mono (val F64.lit_0_05) (val l + val F64.lit_0_05) Hc0 ltac:(lia)) as Hm.
  rewrite (rnd_val _ pos53_lit_0_05) in Hm.
  pose proof (rnd_le_pow (val l + val F64.lit_0_05) 1085 ltac:(right; lia)
                ltac:(lia) ltac:(lia)) as Hu.
  rewrite <- Hv in Hm, Hu.
  split; [apply nonneg_pos; [exact Hn | lia]|].
  split; [exact Hv | lia].
Qed.

(** The ratio of a larger shifted luminance to a smaller one. *)
Lemma ratio_ge_1 (hi lo : F64.t) :
  nonneg hi -> nonneg lo -> val lo <= val hi -> val hi <= 2 ^ 1084 ->
  F64.geb (F64.div (F64.add hi F64.lit_0_05) (F64.add lo F64.lit_0_05)) F64.one = true.
Proof.
  intros Hhi Hlo Hle Hb.
  destruct (shifted_luminance hi Hhi Hb) as (Ph & Vh & Bh).
  destruct (shifted_luminance lo Hlo ltac:(lia)) as (Pl & Vl & Bl).
  assert (H0 : 0 <= val lo) by (destruct (val_nonneg lo Hlo); lia).
  assert (Hc0 : 2 ^ 52 <= val F64.lit_0_05) by (apply val_pos53_lower, pos53_lit_0_05).
  unfold F64.geb, F64.div, F64.prec, F64.emax. apply div_ge_one; try assumption.
  - rewrite Vh, Vl. apply rnd_mono; lia.
  - assert (2 ^ 900 * 2 ^ 1069 = 2 ^ 1969) by (apply pow2_split; lia).
    assert (2 ^ 1085 <= 2 ^ 1969) by (apply Z.pow_le_mono_r; lia).
    assert (2 ^ 900 * 2 ^ 1069 <= 2 ^ 900 * val (F64.add lo F64.lit_0_05))
      by (apply Z.mul_le_mono_nonneg_l; [apply Z.pow_nonneg; lia | lia]).
    lia.
Qed.

(** C6: for colours with channels in [0, 255] the contrast ratio, as
    the binary64 number the code returns, does not depend on the order
    of its two arguments, is at least 1.0, and is 1.0 for a colour
    against itself. *)
Theorem calculate_contrast_ratio_symmetric (a b : Color) :
  valid_color a -> valid_color b ->
  calculate_contrast_ratio a b = calculate_contrast_ratio b a
  /\ F64.geb (calculate_contrast_ratio a b) F64.one = true
  /\ calculate_contrast_ratio a a = F64.one.
Proof.
  intros Ha Hb.
  destruct (luminance_small a Ha) as [Na Ba].
  destruct (luminance_small b Hb) as [Nb Bb].
  unfold calculate_contrast_ratio.
  set (la := calculate_relative_luminance a) in *. set (lb := calculate_relative_luminance b) in *.
  rewrite !gtb_val by assumption. rewrite Z.ltb_irrefl.
  split; [|split].
  - destruct (Z.ltb_spec (val la) (val lb)) as [L|G],
      (Z.ltb_spec (val lb) (val la)) as [L'|G']; try reflexivity; try lia.
    assert (E : la = lb) by (apply val_inj; [assumption .. | lia]).
    rewrite E. reflexivity.
  - destruct (Z.ltb_spec (val la) (val lb)) as [L|G].
    + apply ratio_ge_1; [assumption .. | lia | assumption].
    + apply ratio_ge_1; assumption.
  - unfold F64.div, F64.prec, F64.emax. apply div_self.
    apply (shifted_luminance la Na Ba).
Qed.

Lemma calculate_contrast_ratio_symmetric_witness :
  calculate_contrast_ratio black white = calculate_contrast_ratio white black
  /\ F64.geb (calculate_contrast_ratio black white) F64.one = true
  /\ calculate_contrast_ratio black black = F64.one.
Proof.
  apply (calculate_contrast_ratio_symmetric black white);
    unfold valid_color, channel; cbn; lia.
Defined.

(** Black against white: the luminance of white is 254.99999999999997
    (0x1.fdfffffffffffp+7), not 255, and the ratio is 5100.999999999999
    (0x1.3ecffffffffffp+12), not 5101. *)
Example contrast_black_white :
  calculate_relative_luminance white = S754_finite false 0x1fdfffffffffff (-45)
  /\ calculate_contrast_ratio black white = S754_finite false 0x13ecffffffffff (-40)
  /\ calculate_contrast_ratio white black = S754_finite false 0x13ecffffffffff (-40)
  /\ calculate_contrast_ratio white white = F64.one.
Proof. repeat split; vm_compute; reflexivity. Qed.

(* ================================================================== *)
(** * The compositor *)

Lemma paste_no_mask (dst src : Image.t) (pos : Z * Z) (w : world) :
  PIL.paste dst src pos None w
  = (Ok tt, mkWorld (ops w ++ [OpPaste dst src pos None]) (files w) (fonts w)).
Proof. reflexivity. Qed.

(** A layer with an alpha band, pasted through itself. *)
Lemma paste_own_mask_rgba (dst text : Image.t) (pos : Z * Z) (w : world) :
  Image.mode text = RGBA ->
  PIL.paste dst text pos (Some text) w
  = (Ok tt,
     mkWorld (ops w ++ [OpPaste dst text pos (Some text)]) (files w) (fonts w)).
Proof.
  intros Hm. unfold PIL.paste. rewrite !Z.eqb_refl. cbn [andb negb].
  rewrite Hm. destruct (_ || _); reflexivity.
Qed.

(** A layer pasted through itself where nothing of it falls inside the
    destination: the mode of the mask is never looked at. *)
Lemma paste_own_mask_empty (dst text : Image.t) (pos : Z * Z) (w : world) :
  fst (PIL.clipped dst text pos) <= 0 \/ snd (PIL.clipped dst text pos) <= 0 ->
  PIL.paste dst text pos (Some text) w
  = (Ok tt,
     mkWorld (ops w ++ [OpPaste dst text pos (Some text)]) (files w) (fonts w)).
Proof.
  intros He. unfold PIL.paste. rewrite !Z.eqb_refl. cbn [andb negb].
  replace ((fst (PIL.clipped dst text pos) <=? 0)
           || (snd (PIL.clipped dst text pos) <=? 0)) with true; [reflexivity|].
  symmetry. apply orb_true_iff.
  destruct He; [left | right]; apply Z.leb_le; assumption.
Qed.

(** A layer without an alpha band, pasted through itself where part of
    it falls inside the destination. *)
Lemma paste_own_mask_rgb (dst text : Image.t) (pos : Z * Z) (w : world) :
  Image.mode text = RGB ->
  0 < fst (PIL.clipped dst text pos) -> 0 < snd (PIL.clipped dst text pos) ->
  PIL.paste dst text pos (Some text) w = (Raise ValueError, w).
Proof.
  intros Hm Hx Hy. unfold PIL.paste. rewrite !Z.eqb_refl. cbn [andb negb].
  replace ((fst (PIL.clipped dst text pos) <=? 0)
           || (snd (PIL.clipped dst text pos) <=? 0)) with false.
  - rewrite Hm. reflexivity.
  - symmetry. apply orb_false_iff. split; apply Z.leb_gt; assumption.
Qed.

Lemma save_nonempty (im : Image.t) (path : string) (w : world) :
  0 < Image.width im -> 0 < Image.height im ->
  PIL.save im path w
  = (Ok tt, mkWorld (ops w ++ [OpSave im path]) ((path, im) :: files w)
                    (fonts w)).
Proof.
  intros Hw Hh. unfold PIL.save.
  replace ((Image.width im <=? 0) || (Image.height im <=? 0)) with false;
    [reflexivity|].
  symmetry. apply orb_false_iff. split; apply Z.leb_gt; assumption.
Qed.

Lemma save_empty (im : Image.t) (path : string) (w : world) :
  Image.width im <= 0 \/ Image.height im <= 0 ->
  PIL.save im path w
  = (Raise ValueError,
     mkWorld (ops w)
             (filter (fun e => negb (String.eqb (fst e) path)) (files w))
             (fonts w)).
Proof.
  intros He. unfold PIL.save.
  replace ((Image.width im <=? 0) || (Image.height im <=? 0)) with true;
    [reflexivity|].
  symmetry. apply orb_true_iff.
  destruct He; [left | right]; apply Z.leb_le; assumption.
Qed.

(** The run of the compositor, step by step: the cover is pasted, then
    the canvas is allocated, filled and saved. *)
Lemma paste_and_save_run
  (bg cover : Image.t) (display : Z * Z) (text : Image.t) (w : world) :
  0 < fst display -> 0 < snd display -> Image.mode text = RGBA ->
  let pos := (center (fst display) (Image.width cover),
              center (snd display) (Image.height cover)) in
  let background := Image.mk RGB (fst display) (snd display) in
  paste_and_save_album_image bg cover display text w
  = (Ok tt,
     mkWorld (ops w ++ [OpPaste bg cover pos None;
                        OpNew RGB (fst display, snd display);
                        OpPaste background bg (0, 0) None;
                        OpPaste background text (0, 0) (Some text);
                        OpSave background cache_path])
             ((cache_path, background) :: files w) (fonts w)).
Proof.
  intros Hw Hh Hm pos background.
  unfold paste_and_save_album_image. run_monad.
  rewrite paste_no_mask, new_nonneg by (cbn [fst snd]; lia).
  cbn [fst snd]. rewrite paste_no_mask, paste_own_mask_rgba by assumption.
  rewrite save_nonempty by (cbn [Image.width Image.height]; assumption).
  cbn [ops files fonts]. rewrite <- !app_assoc. reflexivity.
Qed.

(** The run on a display with a dimension of zero: every paste goes
    through, the text layer included whatever its mode, and the save is
    refused. *)
Lemma paste_and_save_empty_canvas
  (bg cover : Image.t) (display : Z * Z) (text : Image.t) (w : world) :
  0 <= fst display -> 0 <= snd display ->
  fst display = 0 \/ snd display = 0 ->
  let pos := (center (fst display) (Image.width cover),
              center (snd display) (Image.height cover)) in
  let background := Image.mk RGB (fst display) (snd display) in
  paste_and_save_album_image bg cover display text w
  = (Raise ValueError,
     mkWorld (ops w ++ [OpPaste bg cover pos None;
                        OpNew RGB (fst display, snd display);
                        OpPaste background bg (0, 0) None;
                        OpPaste background text (0, 0) (Some text)])
             (filter (fun e => negb (String.eqb (fst e) cache_path)) (files w))
             (fonts w)).
Proof.
  intros Hw Hh Hz pos background.
  unfold paste_and_save_album_image. run_monad.
  rewrite paste_no_mask, new_nonneg by (cbn [fst snd]; lia).
  cbn [fst snd]. rewrite paste_no_mask.
  rewrite paste_own_mask_empty
    by (unfold PIL.clipped; cbn [fst snd Image.width Image.height]; lia).
  rewrite save_empty by (cbn [Image.width Image.height]; lia).
  cbn [ops files fonts]. rewrite <- !app_assoc. reflexivity.
Qed.

Lemma paste_and_save_negative
  (bg cover : Image.t) (display : Z * Z) (text : Image.t) (w : world) :
  fst display < 0 \/ snd display < 0 ->
  let pos := (center (fst display) (Image.width cover),
              center (snd display) (Image.height cover)) in
  paste_and_save_album_image bg cover display text w
  = (Raise ValueError,
     mkWorld (ops w ++ [OpPaste bg cover pos None]) (files w) (fonts w)).
Proof.
  intros Hneg pos.
  unfold paste_and_save_album_image. run_monad.
  rewrite paste_no_mask, new_negative by assumption. reflexivity.
Qed.

(** The first raster operation is the paste of the cover, whatever
    happens afterwards. *)
Lemma paste_and_save_first_op
  (bg cover : Image.t) (display : Z * Z) (text : Image.t) (w : world) :
  exists rest,
    ops (snd (paste_and_save_album_image bg cover display text w))
    = ops w ++ OpPaste bg cover (center (fst display) (Image.width cover),
                                 center (snd display) (Image.height cover))
                       None :: rest.
Proof.
  unfold paste_and_save_album_image, PIL.paste, PIL.new, PIL.save.
  run_monad. rewrite !Z.eqb_refl. cbn [andb negb].
  destruct ((fst display <? 0) || (snd display <? 0)).
  - exists []. reflexivity.
  - cbn [ops snd fst].
    destruct (_ || _); [|destruct (Image.mode text)];
      cbn [ops snd fst]; try destruct (_ || _);
      cbn [ops snd]; rewrite <- ?app_assoc; eexists; reflexivity.
Qed.

(** C7, as stated, fails for a 101x101 cover on a 100x100 display: the
    floor of 100/2 - 101/2 is -1, but the cover is pasted at (0, 0). *)
Lemma paste_offset_floor_counterexample :
  let bg := Image.mk RGB 500 500 in
  let cover := Image.mk RGB 101 101 in
  let text := Image.mk RGBA 100 100 in
  ~ (exists rest,
       ops (snd (paste_and_save_album_image bg cover (100, 100) text fresh))
       = OpPaste bg cover (center_floor 100 101, center_floor 100 101) None
         :: rest).
Proof.
  intros bg cover text (rest & H). vm_compute in H. discriminate.
Qed.

(** C7 (amended): for every display size and cover size the cover is
    pasted at the offset obtained by truncating display_width/2 -
    cover_width/2 and display_height/2 - cover_height/2 toward zero.
    Each coordinate equals the mathematical floor exactly when the
    cover does not exceed the display in that direction or the
    difference of the two extents is even; on a negative odd difference
    it is one more than the floor. *)
Theorem paste_offset_truncates
  (bg cover : Image.t) (display : Z * Z) (text : Image.t) (w : world) :
  let dx := fst display - Image.width cover in
  let dy := snd display - Image.height cover in
  (exists rest,
     ops (snd (paste_and_save_album_image bg cover display text w))
     = ops w ++ OpPaste bg cover (Z.quot dx 2, Z.quot dy 2) None :: rest)
  /\ (Z.quot dx 2 = center_floor (fst display) (Image.width cover)
      <-> (Image.width cover <= fst display \/ Z.even dx = true))
  /\ (Z.quot dy 2 = center_floor (snd display) (Image.height cover)
      <-> (Image.height cover <= snd display \/ Z.even dy = true))
  /\ (dx < 0 -> Z.even dx = false ->
      Z.quot dx 2 = center_floor (fst display) (Image.width cover) + 1).
Proof.
  intros dx dy. split; [|split; [|split]].
  - destruct (paste_and_save_first_op bg cover display text w) as [rest H].
    exists rest. rewrite H, !center_quot. reflexivity.
  - rewrite center_floor_div. fold dx. rewrite quot_2_eq_div_2.
    split; (intros [H|H]; [left; unfold dx in *; lia | right; exact H]).
  - rewrite center_floor_div. fold dy. rewrite quot_2_eq_div_2.
    split; (intros [H|H]; [left; unfold dy in *; lia | right; exact H]).
  - intros Hneg Hodd. rewrite center_floor_div. fold dx.
    pose proof (Z.quot_rem dx 2 ltac:(lia)) as Hq.
    pose proof (Z.rem_bound_pos_neg dx 2 ltac:(lia) ltac:(lia)) as Hr.
    pose proof (Z.div_mod dx 2 ltac:(lia)) as Hd.
    pose proof (Z.mod_pos_bound dx 2 ltac:(lia)) as Hm.
    rewrite Zeven_mod in Hodd. apply Z.eqb_neq in Hodd. lia.
Qed.

(** C8: for every background, cover and text layer, whatever their
    sizes, the image saved by [paste_and_save_album_image] has exactly
    the dimensions of the display and mode RGB. *)
Theorem paste_and_save_output_size
  (bg cover : Image.t) (display : Z * Z) (text : Image.t) (w : world) :
  0 < fst display -> 0 < snd display -> Image.mode text = RGBA ->
  exists w',
    paste_and_save_album_image bg cover display text w = (Ok tt, w')
    /\ lookup_file cache_path w'
       = Some (Image.mk RGB (fst display) (snd display)).
Proof.
  intros Hw Hh Hm. eexists. split.
  - apply paste_and_save_run; [lia | lia | assumption].
  - reflexivity.
Qed.

Lemma paste_and_save_output_size_witness :
  exists w',
    paste_and_save_album_image (Image.mk RGB 1920 1080) (Image.mk RGB 900 640)
                               (480, 320) (Image.mk RGBA 37 11) fresh
    = (Ok tt, w')
    /\ lookup_file cache_path w' = Some (Image.mk RGB 480 320).
Proof.
  exact (paste_and_save_output_size
           (Image.mk RGB 1920 1080) (Image.mk RGB 900 640)
           (480, 320) (Image.mk RGBA 37 11) fresh
           ltac:(cbn; lia) ltac:(cbn; lia) eq_refl).
Defined.

Lemma paste_offset_truncates_witness :
  let bg := Image.mk RGB 500 500 in
  let cover := Image.mk RGB 101 101 in
  let text := Image.mk RGBA 100 100 in
  (exists rest,
     ops (snd (paste_and_save_album_image bg cover (100, 100) text fresh))
     = OpPaste bg cover (0, 0) None :: rest)
  /\ Z.quot (100 - 101) 2 = center_floor 100 101 + 1.
Proof.
  intros bg cover text.
  pose proof (paste_offset_truncates bg cover (100, 100) text fresh) as H.
  cbv zeta in H. destruct H as (Hops & _ & _ & Hodd).
  split.
  - exact Hops.
  - exact (Hodd ltac:(cbn; lia) eq_refl).
Defined.

(* ================================================================== *)
(** * Invalid geometry *)

(** A target height of zero or less, for a source of positive height:
    the resize is refused before anything is done. *)
Lemma resize_nonpositive_height_raises
  (image : Image.t) (target_width target_height : Z) (w : world) :
  0 < Image.height image -> target_height <= 0 ->
  resize_and_center_image image target_width target_height w
  = (Raise ValueError, w).
Proof.
  intros Hh Hth. unfold resize_and_center_image, Py.truediv.
  destruct (Z.eqb_spec (Image.height image) 0) as [E|E]; [lia|].
  run_monad. unfold PIL.resize. cbn [fst snd].
  destruct (Z.eqb_spec target_height (Image.height image)) as [E1|E1]; [lia|].
  rewrite andb_false_r.
  replace (target_height <? 1) with true by (symmetry; apply Z.ltb_lt; lia).
  rewrite orb_true_r. reflexivity.
Qed.






(* ================================================================== *)
(** * Further properties of the pipeline *)

(** X1 ([paste_and_save_album_image], lines 18-26).  The cover is pasted
    centred to within one pixel: the margin on the right (bottom)
    differs from the margin on the left (top) by at most one.  A cover
    that fits the display lies inside it; a cover at least as large as
    the display covers it from edge to edge. *)
Theorem paste_box_is_centered
  (bg cover : Image.t) (display : Z * Z) (text : Image.t) (w : world) :
  exists x y rest,
    ops (snd (paste_and_save_album_image bg cover display text w))
    = ops w ++ OpPaste bg cover (x, y) None :: rest
    /\ (let d := fst display in
        let c := Image.width cover in
        -1 <= (d - c - x) - x <= 1
        /\ (c <= d -> 0 <= x /\ x + c <= d /\ 0 <= (d - c - x) - x)
        /\ (d <= c -> x <= 0 /\ d <= x + c))
    /\ (let d := snd display in
        let c := Image.height cover in
        -1 <= (d - c - y) - y <= 1
        /\ (c <= d -> 0 <= y /\ y + c <= d /\ 0 <= (d - c - y) - y)
        /\ (d <= c -> y <= 0 /\ d <= y + c)).
Proof.
  destruct (paste_and_save_first_op bg cover display text w) as [rest H].
  exists (center (fst display) (Image.width cover)),
         (center (snd display) (Image.height cover)), rest.
  split; [exact H|].
  assert (Hhalf : forall z, z = 2 * Z.quot z 2 + Z.rem z 2
                            /\ (0 <= z -> 0 <= Z.rem z 2 < 2)
                            /\ (z <= 0 -> -2 < Z.rem z 2 <= 0)).
  { intros z. split; [apply Z.quot_rem; lia|]. split; intros Hz.
    - apply Z.rem_bound_pos; lia.
    - pose proof (Z.rem_bound_pos_neg z 2 ltac:(lia) Hz). lia. }
  split; cbv zeta; rewrite center_quot.
  - destruct (Hhalf (fst display - Image.width cover)) as (E & P & Q). lia.
  - destruct (Hhalf (snd display - Image.height cover)) as (E & P & Q). lia.
Qed.

Lemma paste_box_is_centered_witness :
  let bg := Image.mk RGB 800 480 in
  let cover := Image.mk RGB 301 300 in
  exists x y rest,
    ops (snd (paste_and_save_album_image bg cover (800, 480)
                                         (Image.mk RGBA 800 480) fresh))
    = OpPaste bg cover (x, y) None :: rest
    /\ (0 <= x /\ x + 301 <= 800 /\ 0 <= (800 - 301 - x) - x <= 1)
    /\ (0 <= y /\ y + 300 <= 480 /\ 0 <= (480 - 300 - y) - y <= 1).
Proof.
  intros bg cover.
  destruct (paste_box_is_centered bg cover (800, 480) (Image.mk RGBA 800 480)
              fresh) as (x & y & rest & Hops & Hx & Hy).
  exists x, y, rest. cbv zeta in Hx, Hy.
  cbn [fst snd Image.width Image.height cover] in Hx, Hy.
  split; [exact Hops|]. split.
  - destruct Hx as (B & In & _). specialize (In ltac:(lia)). lia.
  - destruct Hy as (B & In & _). specialize (In ltac:(lia)). lia.
Defined.

(** X2 ([paste_and_save_album_image], lines 26-33).  A text layer
    without an alpha band cannot serve as its own mask: when the
    display and the text layer have positive dimensions, so that part
    of the layer falls on the canvas, the call raises when it pastes
    the text, after the cover and the background have been pasted, and
    nothing is saved. *)
Theorem paste_and_save_text_without_alpha
  (bg cover : Image.t) (display : Z * Z) (text : Image.t) (w : world) :
  0 < fst display -> 0 < snd display ->
  0 < Image.width text -> 0 < Image.height text ->
  Image.mode text = RGB ->
  let background := Image.mk RGB (fst display) (snd display) in
  exists w',
    paste_and_save_album_image bg cover display text w = (Raise ValueError, w')
    /\ files w' = files w
    /\ ops w'
       = ops w ++ [OpPaste bg cover
                     (center (fst display) (Image.width cover),
                      center (snd display) (Image.height cover)) None;
                   OpNew RGB (fst display, snd display);
                   OpPaste background bg (0, 0) None].
Proof.
  intros Hw Hh Htw Hth Hm background.
  unfold paste_and_save_album_image. run_monad.
  rewrite paste_no_mask, new_nonneg by (cbn [fst snd]; lia).
  cbn [fst snd]. rewrite paste_no_mask.
  rewrite paste_own_mask_rgb;
    [| assumption
     | unfold PIL.clipped; cbn [fst snd Image.width Image.height]; lia
     | unfold PIL.clipped; cbn [fst snd Image.width Image.height]; lia].
  eexists. split; [reflexivity|]. cbn [ops files].
  split; [reflexivity|]. rewrite <- !app_assoc. reflexivity.
Qed.

Lemma paste_and_save_text_without_alpha_witness :
  let bg := Image.mk RGB 800 480 in
  let cover := Image.mk RGB 300 300 in
  let text := Image.mk RGB 800 480 in
  exists w',
    paste_and_save_album_image bg cover (800, 480) text fresh
    = (Raise ValueError, w')
    /\ files w' = []
    /\ ops w' = [OpPaste bg cover (250, 90) None;
                 OpNew RGB (800, 480);
                 OpPaste (Image.mk RGB 800 480) bg (0, 0) None].
Proof.
  intros bg cover text.
  exact (paste_and_save_text_without_alpha bg cover (800, 480) text fresh
           ltac:(cbn; lia) ltac:(cbn; lia) ltac:(cbn; lia) ltac:(cbn; lia)
           eq_refl).
Defined.

Lemma lookup_file_other (path : string) (im : Image.t) (w : world)
  (o : list raster_op) (f : list string) :
  path <> cache_path ->
  lookup_file path (mkWorld o ((cache_path, im) :: files w) f)
  = lookup_file path w.
Proof.
  intros Hne. unfold lookup_file. cbn [files find fst].
  destruct (String.eqb_spec cache_path path) as [E|E]; [congruence|].
  reflexivity.
Qed.

Lemma lookup_file_removed (path : string) (w : world)
  (o : list raster_op) (f : list string) :
  path <> cache_path ->
  lookup_file path
    (mkWorld o (filter (fun e => negb (String.eqb (fst e) cache_path)) (files w))
             f)
  = lookup_file path w.
Proof.
  intros Hne. unfold lookup_file. cbn [files].
  induction (files w) as [|[p im] l IH]; [reflexivity|].
  cbn [filter find fst].
  destruct (String.eqb_spec p cache_path) as [E|E]; cbn [negb].
  - destruct (String.eqb_spec p path) as [E'|E']; [congruence|]. exact IH.
  - cbn [find fst]. destruct (String.eqb_spec p path); [reflexivity|exact IH].
Qed.

(** X3 ([paste_and_save_album_image], line 33).  A successful run
    writes the cache file and nothing else: every other file holds
    what it held before, and the fonts are as they were. *)
Theorem paste_and_save_keeps_other_files
  (bg cover : Image.t) (display : Z * Z) (text : Image.t) (w : world)
  (path : string) :
  0 <= fst display -> 0 <= snd display -> Image.mode text = RGBA ->
  path <> cache_path ->
  let w' := snd (paste_and_save_album_image bg cover display text w) in
  lookup_file path w' = lookup_file path w /\ fonts w' = fonts w.
Proof.
  intros Hw Hh Hm Hne w'. unfold w'.
  destruct (Z.eq_dec (fst display) 0) as [E1|E1];
    [|destruct (Z.eq_dec (snd display) 0) as [E2|E2]].
  - rewrite paste_and_save_empty_canvas by auto. cbn [snd fonts].
    split; [apply lookup_file_removed; assumption | reflexivity].
  - rewrite paste_and_save_empty_canvas by auto. cbn [snd fonts].
    split; [apply lookup_file_removed; assumption | reflexivity].
  - rewrite paste_and_save_run by (assumption || lia). cbn [snd fonts].
    split; [apply lookup_file_other; assumption | reflexivity].
Qed.

Lemma paste_and_save_keeps_other_files_witness :
  let old := Image.mk RGB 10 10 in
  let w := mkWorld [] [("ImageCache/albumImage.png"%string, old)] [] in
  let w' := snd (paste_and_save_album_image
                   (Image.mk RGB 800 480) (Image.mk RGB 300 300) (800, 480)
                   (Image.mk RGBA 800 480) w) in
  lookup_file "ImageCache/albumImage.png" w' = Some old /\ fonts w' = [].
Proof.
  intros old w.
  exact (paste_and_save_keeps_other_files
           (Image.mk RGB 800 480) (Image.mk RGB 300 300) (800, 480)
           (Image.mk RGBA 800 480) w "ImageCache/albumImage.png"
           ltac:(cbn; lia) ltac:(cbn; lia) eq_refl ltac:(discriminate)).
Defined.

(** X4 ([generate_text_image], lines 56-69).  The palette is read
    first: an empty palette raises [IndexError] before anything else
    happens, whatever the display and the fonts.  The typeface is read
    last: when it cannot be read the call raises [OSError] after the
    canvas has been allocated, no text is drawn and no image is
    returned. *)
Theorem generate_text_image_failures
  (song_title artist_name : string) (c : Color) (rest : list Color)
  (display : Z * Z) (x y : Z) (w : world) :
  generate_text_image song_title artist_name [] display x y w
  = (Raise IndexError, w)
  /\ (0 <= fst display -> 0 <= snd display ->
      ~ In "./fonts/Rubik.ttf"%string (fonts w) ->
      generate_text_image song_title artist_name (c :: rest) display x y w
      = (Raise OSError,
         mkWorld (ops w ++ [OpNew RGBA (fst display, snd display)])
                 (files w) (fonts w))).
Proof.
  split; [reflexivity|].
  intros Hw Hh Hfont.
  unfold generate_text_image. cbn [Py.index nth_error]. run_monad.
  rewrite (new_nonneg RGBA (fst display, snd display) w) by assumption.
  cbn [fst snd]. unfold PIL.truetype. cbn [fonts].
  replace (existsb (String.eqb "./fonts/Rubik.ttf") (fonts w)) with false;
    [reflexivity|].
  symmetry. apply not_true_is_false. intros He.
  apply existsb_exists in He as (p & Hin & Heq).
  apply String.eqb_eq in Heq. subst p. exact (Hfont Hin).
Qed.

Lemma generate_text_image_failures_witness :
  let w := mkWorld [] [] [] in
  generate_text_image "Song" "Artist" [white] (480, 320) 50 50 w
  = (Raise OSError, mkWorld [OpNew RGBA (480, 320)] [] []).
Proof.
  intros w.
  exact (proj2 (generate_text_image_failures "Song" "Artist" white []
                  (480, 320) 50 50 w)
               ltac:(cbn; lia) ltac:(cbn; lia) ltac:(cbn; tauto)).
Defined.

(** X5 ([resize_and_center_image], lines 159-162).  When the resized
    cover is wider than the target the crop box lies inside it and is
    centred to within one pixel, and the image returned has the mode of
    the source and exactly the target size. *)
Theorem resize_crop_is_centered
  (image : Image.t) (target_width target_height : Z) (w : world) :
  0 < Image.height image <= Image.width image ->
  0 < target_width -> 0 < target_height ->
  let new_width :=
    Image.width image / Image.height image * target_height in
  target_width < new_width ->
  exists before x w',
    resize_and_center_image image target_width target_height w
    = (Ok (Image.mk (Image.mode image) target_width target_height), w')
    /\ ops w'
       = before
         ++ [OpCrop (Image.mk (Image.mode image) new_width target_height)
                    (x, 0, x + target_width, target_height)]
    /\ 0 <= x /\ x + target_width <= new_width
    /\ 0 <= (new_width - target_width - x) - x <= 1.
Proof.
  intros HW Htw Hth new_width Hlt.
  unfold resize_and_center_image, Py.truediv.
  destruct (Z.eqb_spec (Image.height image) 0) as [E|E]; [lia|].
  run_monad. rewrite scaled_width_quotient by lia. fold new_width.
  rewrite Z.gtb_ltb.
  replace (target_width <? new_width) with true
    by (symmetry; apply Z.ltb_lt; assumption).
  set (x := Py.floordiv (new_width - target_width) 2).
  assert (Hx : 0 <= x /\ x + target_width <= new_width
               /\ 0 <= (new_width - target_width - x) - x <= 1).
  { unfold x, Py.floordiv.
    pose proof (Z.div_mod (new_width - target_width) 2 ltac:(lia)).
    pose proof (Z.mod_pos_bound (new_width - target_width) 2 ltac:(lia)).
    lia. }
  assert (Hcrop : forall (r : Image.t) (w1 : world),
             Image.mode r = Image.mode image ->
             Image.width r = new_width -> Image.height r = target_height ->
             PIL.crop r (x, 0, x + target_width, target_height) w1
             = (Ok (Image.mk (Image.mode image) target_width target_height),
                mkWorld (ops w1
                         ++ [OpCrop (Image.mk (Image.mode image) new_width
                                              target_height)
                                    (x, 0, x + target_width, target_height)])
                        (files w1) (fonts w1))).
  { intros [m rw rh] w1 Hm Hrw Hrh. cbn in Hm, Hrw, Hrh. subst m rw rh.
    unfold PIL.crop.
    replace ((x + target_width <? x) || (target_height <? 0)) with false
      by (symmetry; apply orb_false_iff; split; apply Z.ltb_ge; lia).
    run_monad. cbn [Image.mode]. repeat f_equal; lia. }
  unfold PIL.resize. cbn [fst snd].
  destruct ((new_width =? Image.width image)
            && (target_height =? Image.height image)) eqn:Esame.
  - apply andb_prop in Esame as [E1 E2]. apply Z.eqb_eq in E1, E2.
    run_monad. rewrite Hcrop by (reflexivity || lia).
    exists (ops w), x. eexists. split; [reflexivity|].
    split; [reflexivity|]. exact Hx.
  - replace ((new_width <? 1) || (target_height <? 1)) with false
      by (symmetry; apply orb_false_iff; split; apply Z.ltb_ge; lia).
    run_monad. rewrite Hcrop by reflexivity.
    eexists. exists x. eexists. split; [reflexivity|].
    split; [reflexivity|]. exact Hx.
Qed.

Lemma resize_crop_is_centered_witness :
  let image := Image.mk RGBA 640 300 in
  exists before x w',
    resize_and_center_image image 251 300 fresh
    = (Ok (Image.mk RGBA 251 300), w')
    /\ ops w' = before ++ [OpCrop (Image.mk RGBA 600 300) (x, 0, x + 251, 300)]
    /\ 0 <= x /\ x + 251 <= 600 /\ 0 <= (600 - 251 - x) - x <= 1.
Proof.
  intros image.
  exact (resize_crop_is_centered image 251 300 fresh
           ltac:(cbn; lia) ltac:(lia) ltac:(lia) ltac:(cbn; lia)).
Defined.

(** X6 ([resize_and_center_image], lines 152-154).  The aspect ratio
    is not kept: every source at least as wide as it is high but less
    than twice as wide, a square cover among them, is resized to a
    square of side [target_height] before the crop, so the result is
    [min(target_height, target_width)] wide whatever the exact width
    of the source. *)
Theorem resize_near_square_source
  (image : Image.t) (target_width target_height : Z) (w : world) :
  0 < Image.height image ->
  Image.height image <= Image.width image < 2 * Image.height image ->
  0 < target_width -> 0 < target_height ->
  exists out w',
    resize_and_center_image image target_width target_height w = (Ok out, w')
    /\ Image.size out = (Z.min target_height target_width, target_height).
Proof.
  intros HH HW Htw Hth.
  destruct (resize_landscape_returns image target_width target_height w)
    as (out & w' & Hrun & Hh & Hwd); [lia .. |].
  exists out, w'. split; [exact Hrun|].
  assert (Hq : Image.width image / Image.height image = 1).
  { symmetry. apply Z.div_unique with (Image.width image - Image.height image);
      lia. }
  unfold Image.size. rewrite Hh, Hwd, Hq. f_equal. lia.
Qed.

Lemma resize_near_square_source_witness :
  exists out w',
    resize_and_center_image (Image.mk RGB 599 300) 200 300 fresh = (Ok out, w')
    /\ Image.size out = (Z.min 300 200, 300).
Proof.
  exact (resize_near_square_source (Image.mk RGB 599 300) 200 300 fresh
           ltac:(cbn; lia) ltac:(cbn; lia) ltac:(lia) ltac:(lia)).
Defined.

(** X7 ([resize_and_center_image], lines 152-155).  A target height
    of zero or less is refused by the resize: for a source of positive
    height the call raises [ValueError] and no raster work is done,
    whatever the widths. *)
Theorem resize_nonpositive_target_height
  (image : Image.t) (target_width target_height : Z) (w : world) :
  0 < Image.height image -> target_height <= 0 ->
  resize_and_center_image image target_width target_height w
  = (Raise ValueError, w).
Proof. apply resize_nonpositive_height_raises. Qed.

Lemma resize_nonpositive_target_height_witness :
  resize_and_center_image (Image.mk RGB 640 480) 200 0 fresh
  = (Raise ValueError, fresh).
Proof.
  exact (resize_nonpositive_target_height (Image.mk RGB 640 480) 200 0 fresh
           ltac:(cbn; lia) ltac:(lia)).
Defined.

Lemma keeps_files_ret {A : Type} (a : A) : keeps_files (ret a).
Proof. intros w. split; reflexivity. Qed.

Lemma keeps_files_raise {A : Type} (e : exn) : keeps_files (@raise A e).
Proof. intros w. split; reflexivity. Qed.

Lemma keeps_files_lift {A : Type} (r : result A) : keeps_files (lift r).
Proof. intros w. split; reflexivity. Qed.

Lemma keeps_files_log (o : raster_op) : keeps_files (log o).
Proof. intros w. split; reflexivity. Qed.

Lemma keeps_files_bind {A B : Type} (m : M A) (k : A -> M B) :
  keeps_files m -> (forall a, keeps_files (k a)) -> keeps_files (bind m k).
Proof.
  intros Hm Hk w. unfold bind. specialize (Hm w).
  destruct (m w) as [[a|e] w1]; cbn [snd] in *.
  - destruct (Hk a w1) as [F1 F2]. destruct Hm as [G1 G2].
    split; congruence.
  - exact Hm.
Qed.

Lemma keeps_files_resize (im : Image.t) (size : Z * Z) :
  keeps_files (PIL.resize im size).
Proof.
  unfold PIL.resize.
  destruct (_ && _); [apply keeps_files_ret|].
  destruct (_ || _); [apply keeps_files_raise|].
  apply keeps_files_bind; [apply keeps_files_log|].
  intros _. apply keeps_files_ret.
Qed.

Lemma keeps_files_crop (im : Image.t) (box : Z * Z * Z * Z) :
  keeps_files (PIL.crop im box).
Proof.
  unfold PIL.crop. destruct box as [[[x0 y0] x1] y1].
  destruct (_ || _); [apply keeps_files_raise|].
  apply keeps_files_bind; [apply keeps_files_log|].
  intros _. apply keeps_files_ret.
Qed.

Lemma keeps_files_new (m : Mode) (size : Z * Z) : keeps_files (PIL.new m size).
Proof.
  unfold PIL.new.
  destruct (_ || _); [apply keeps_files_raise|].
  apply keeps_files_bind; [apply keeps_files_log|].
  intros _. apply keeps_files_ret.
Qed.

Lemma keeps_files_truetype (path : string) (size : Z) :
  keeps_files (PIL.truetype path size).
Proof.
  intros w. unfold PIL.truetype. destruct (existsb _ _); split; reflexivity.
Qed.

(** X8 ([resize_and_center_image], [generate_text_image]).  Neither
    the resizer nor the text renderer writes or removes a file or
    touches the fonts, on any input and whether they return or raise:
    only [paste_and_save_album_image] persists anything. *)
Theorem only_the_compositor_writes_files
  (image : Image.t) (target_width target_height : Z)
  (song_title artist_name : string) (colors : list Color)
  (display : Z * Z) (x y : Z) :
  keeps_files (resize_and_center_image image target_width target_height)
  /\ keeps_files
       (generate_text_image song_title artist_name colors display x y).
Proof.
  split.
  - unfold resize_and_center_image.
    apply keeps_files_bind; [apply keeps_files_lift|]. intros ratio.
    apply keeps_files_bind; [apply keeps_files_resize|]. intros resized.
    destruct (_ >? _); [apply keeps_files_crop | apply keeps_files_ret].
  - unfold generate_text_image.
    apply keeps_files_bind; [apply keeps_files_lift|]. intros c0.
    apply keeps_files_bind; [apply keeps_files_new|]. intros text.
    apply keeps_files_bind; [apply keeps_files_truetype|]. intros font.
    apply keeps_files_bind; [apply keeps_files_log|]. intros _.
    apply keeps_files_ret.
Qed.

(* ================================================================== *)
(** * Further properties of the colour functions *)

(** X9 ([find_darkest_color], lines 130-131).  A palette of fewer than
    two colours raises [IndexError]. *)
Theorem find_darkest_color_short_palette (colors : list Color) :
  (List.length colors < 2)%nat -> find_darkest_color colors = Raise IndexError.
Proof.
  intros Hlen. destruct colors as [|a [|b rest]]; cbn in Hlen; try lia;
    reflexivity.
Qed.

Lemma find_darkest_color_short_palette_witness :
  find_darkest_color [white] = Raise IndexError.
Proof.
  exact (find_darkest_color_short_palette [white] ltac:(cbn; lia)).
Defined.

(** X10 ([find_darkest_color], lines 130-136).  Whatever the length of
    the palette the result holds exactly two colours, the first two of
    the palette in one order or the other; further palette entries are
    dropped and do not influence it. *)
Theorem find_darkest_color_keeps_two
  (a b : Color) (rest : list Color) :
  valid_color a -> valid_color b ->
  find_darkest_color (a :: b :: rest) = find_darkest_color [a; b]
  /\ (find_darkest_color (a :: b :: rest) = Ok [a; b]
      \/ find_darkest_color (a :: b :: rest) = Ok [b; a]).
Proof.
  intros Ha Hb. rewrite !find_darkest_color_pair by assumption.
  split; [reflexivity|]. destruct (_ <? _); [left|right]; reflexivity.
Qed.

Lemma find_darkest_color_keeps_two_witness :
  let grey := mkColor (90, 90, 90) in
  find_darkest_color [black; white; grey] = find_darkest_color [black; white]
  /\ (find_darkest_color [black; white; grey] = Ok [black; white]
      \/ find_darkest_color [black; white; grey] = Ok [white; black]).
Proof.
  intros grey.
  apply (find_darkest_color_keeps_two black white [grey]);
    unfold valid_color, channel; cbn; lia.
Defined.

(** X11 ([find_darkest_color], lines 133-136).  Applied to its own
    result the function changes nothing when the two colours are at
    different distances from black; when they are at the same distance
    it swaps them back, so two applications restore the palette. *)
Theorem find_darkest_color_twice (a b : Color) :
  valid_color a -> valid_color b ->
  exists once,
    find_darkest_color [a; b] = Ok once
    /\ find_darkest_color once
       = Ok (if sum_of_squares (rgb a) =? sum_of_squares (rgb b)
             then [a; b] else once).
Proof.
  intros Ha Hb. rewrite find_darkest_color_pair by assumption.
  destruct (Z.ltb_spec (sum_of_squares (rgb b)) (sum_of_squares (rgb a)))
    as [L|G]; eexists; (split; [reflexivity|]);
    rewrite find_darkest_color_pair by assumption.
  - replace (sum_of_squares (rgb b) <? sum_of_squares (rgb a)) with true
      by (symmetry; apply Z.ltb_lt; lia).
    destruct (Z.eqb_spec (sum_of_squares (rgb a)) (sum_of_squares (rgb b)));
      [lia | reflexivity].
  - destruct (Z.eqb_spec (sum_of_squares (rgb a)) (sum_of_squares (rgb b)))
      as [E|E].
    + rewrite E, Z.ltb_irrefl. reflexivity.
    + replace (sum_of_squares (rgb a) <? sum_of_squares (rgb b)) with true
        by (symmetry; apply Z.ltb_lt; lia).
      reflexivity.
Qed.

Lemma find_darkest_color_twice_witness :
  let red1 := mkColor (1, 0, 0) in
  let green1 := mkColor (0, 1, 0) in
  exists once,
    find_darkest_color [red1; green1] = Ok once
    /\ find_darkest_color once = Ok [red1; green1].
Proof.
  intros red1 green1.
  apply (find_darkest_color_twice red1 green1);
    unfold valid_color, channel; cbn; lia.
Defined.

(** X12 ([find_darkest_color], lines 130-133).  On colours the test
    [distance1 > distance2] on the rounded square roots decides
    exactly as the integers under the roots do: it holds when and only
    when the first sum of squares is the larger, and two colours are
    tied when and only when their sums of squares are equal. *)
Theorem distance_test_is_exact (a b : Color) :
  valid_color a -> valid_color b ->
  let da := distance_from_black (rgb a) in
  let db := distance_from_black (rgb b) in
  (F64.gtb da db = true <-> sum_of_squares (rgb b) < sum_of_squares (rgb a))
  /\ (F64.gtb da db = false /\ F64.gtb db da = false
      <-> sum_of_squares (rgb a) = sum_of_squares (rgb b)).
Proof.
  intros Ha Hb da db. unfold da, db.
  rewrite (distance_gtb a b), (distance_gtb b a) by assumption.
  rewrite Z.ltb_lt, !Z.ltb_ge. split; [tauto|lia].
Qed.

Lemma distance_test_is_exact_witness :
  let a := mkColor (3, 4, 0) in
  let b := mkColor (0, 0, 5) in
  (F64.gtb (distance_from_black (rgb a)) (distance_from_black (rgb b)) = true
   <-> sum_of_squares (rgb b) < sum_of_squares (rgb a))
  /\ (F64.gtb (distance_from_black (rgb a)) (distance_from_black (rgb b))
      = false
      /\ F64.gtb (distance_from_black (rgb b)) (distance_from_black (rgb a))
         = false
      <-> sum_of_squares (rgb a) = sum_of_squares (rgb b)).
Proof.
  intros a b.
  apply (distance_test_is_exact a b); unfold valid_color, channel; cbn; lia.
Defined.

Lemma text_color_eq (c e : Z * Z * Z) :
  (let '(r, g, b) := c in
   let '(er, eg, eb) := e in
   (r =? er) && (g =? eg) && (b =? eb)) = true -> c = e.
Proof.
  destruct c as [[r g] b], e as [[er eg] eb]. intros H.
  apply andb_prop in H as [H Hb]. apply andb_prop in H as [Hr Hg].
  apply Z.eqb_eq in Hr, Hg, Hb. congruence.
Qed.

(** X13 ([generate_text_image], lines 59-62).  On a grey (v, v, v) the
    rounding plays no part: the text is black exactly from v = 187 on
    and white up to v = 186.  On a pure red, green or blue of any
    strength the text is always white. *)
Theorem text_color_of_greys_and_primaries (v : Z) :
  channel v ->
  contrasting_text_color (v, v, v)
  = (if 186 <? v then (0, 0, 0) else (255, 255, 255))
  /\ contrasting_text_color (v, 0, 0) = (255, 255, 255)
  /\ contrasting_text_color (0, v, 0) = (255, 255, 255)
  /\ contrasting_text_color (0, 0, v) = (255, 255, 255).
Proof.
  intros Hv. apply channel_in_levels in Hv.
  assert (Hgrey : forallb grey_rule levels = true) by (vm_compute; reflexivity).
  assert (Hprim : forallb primary_rule levels = true)
    by (vm_compute; reflexivity).
  pose proof (proj1 (forallb_forall _ _) Hgrey v Hv) as Hg.
  pose proof (proj1 (forallb_forall _ _) Hprim v Hv) as Hp.
  unfold grey_rule in Hg. unfold primary_rule in Hp.
  apply andb_prop in Hp as [Hp Hp3]. apply andb_prop in Hp as [Hp1 Hp2].
  split; [|split; [|split]].
  - apply text_color_eq.
    destruct (contrasting_text_color (v, v, v)) as [[r g] b].
    destruct (186 <? v); exact Hg.
  - apply (text_color_eq _ (255, 255, 255)).
    destruct (contrasting_text_color (v, 0, 0)) as [[r g] b]. exact Hp1.
  - apply (text_color_eq _ (255, 255, 255)).
    destruct (contrasting_text_color (0, v, 0)) as [[r g] b]. exact Hp2.
  - apply (text_color_eq _ (255, 255, 255)).
    destruct (contrasting_text_color (0, 0, v)) as [[r g] b]. exact Hp3.
Qed.

Lemma text_color_of_greys_and_primaries_witness :
  contrasting_text_color (187, 187, 187) = (0, 0, 0)
  /\ contrasting_text_color (187, 0, 0) = (255, 255, 255)
  /\ contrasting_text_color (0, 187, 0) = (255, 255, 255)
  /\ contrasting_text_color (0, 0, 187) = (255, 255, 255).
Proof.
  exact (text_color_of_greys_and_primaries 187 ltac:(unfold channel; lia)).
Defined.

(* ================================================================== *)
(** * The Spotify client *)

Lemma replies_succ (w : Spotify.net) (req : Spotify.request) (n : nat) :
  Spotify.replies w req (S n)
  = Spotify.server w (List.length (Spotify.sent w)) req
    :: Spotify.replies
         (Spotify.mkNet (Spotify.grant w) (Spotify.server w)
                        (Spotify.sent w ++ [req]) (Spotify.printed w))
         req n.
Proof.
  unfold Spotify.replies. cbn [seq map Spotify.server Spotify.sent].
  rewrite Nat.add_0_r. f_equal.
  rewrite <- seq_shift, map_map. apply map_ext. intros i.
  rewrite length_app. cbn [List.length]. f_equal. lia.
Qed.

Lemma failure_lines_app (xs ys : list Spotify.reply) :
  Spotify.failure_lines (xs ++ ys)
  = Spotify.failure_lines xs ++ Spotify.failure_lines ys.
Proof.
  induction xs as [|[msg|r] xs IH]; cbn [app Spotify.failure_lines].
  - reflexivity.
  - rewrite IH. reflexivity.
  - exact IH.
Qed.

(** One iteration of the loop on a reply that is retried. *)
Lemma get_current_song_step_retry
  (self : Spotify.client) (n : nat) (w : Spotify.net) :
  let req := Spotify.current_song_request self in
  let r := Spotify.server w (List.length (Spotify.sent w)) req in
  Spotify.retried r = true ->
  Spotify.get_current_song_from self (S n) w
  = Spotify.get_current_song_from self n
      (Spotify.mkNet (Spotify.grant w) (Spotify.server w)
                     (Spotify.sent w ++ [req])
                     (Spotify.printed w ++ Spotify.failure_lines [r])).
Proof.
  intros req r Hr. subst r. cbn [Spotify.get_current_song_from].
  unfold Spotify.requests_get.
  change (Spotify.mkRequest Spotify.currently_playing_url _) with req.
  destruct (Spotify.server w (List.length (Spotify.sent w)) req)
    as [msg|resp]; cbn [Spotify.retried] in Hr.
  - unfold Spotify.bind, Spotify.print.
    cbn [Spotify.grant Spotify.server Spotify.sent Spotify.printed
         Spotify.failure_lines].
    reflexivity.
  - apply negb_true_iff in Hr. rewrite Hr.
    cbn [Spotify.failure_lines]. rewrite app_nil_r.
    destruct w; reflexivity.
Qed.

(** All replies retried: the loop runs out. *)
Lemma get_current_song_runs_out
  (self : Spotify.client) (n : nat) (w : Spotify.net) :
  let req := Spotify.current_song_request self in
  forallb Spotify.retried (Spotify.replies w req n) = true ->
  Spotify.get_current_song_from self n w
  = (Spotify.Return Spotify.VNone,
     Spotify.mkNet (Spotify.grant w) (Spotify.server w)
                   (Spotify.sent w ++ repeat req n)
                   (Spotify.printed w
                    ++ Spotify.failure_lines (Spotify.replies w req n))).
Proof.
  intros req. revert w. induction n as [|n IH]; intros w Hall.
  - cbn. rewrite !app_nil_r. destruct w; reflexivity.
  - rewrite replies_succ in Hall |- *. cbn [forallb] in Hall.
    apply andb_prop in Hall as [Hr Hrest].
    rewrite get_current_song_step_retry by exact Hr. fold req.
    rewrite IH by exact Hrest.
    cbn [Spotify.grant Spotify.server Spotify.sent Spotify.printed].
    f_equal. f_equal.
    + rewrite <- app_assoc. reflexivity.
    + rewrite <- app_assoc. f_equal.
      exact (eq_sym (failure_lines_app [_] _)).
Qed.

(** The first reply that is not retried ends the loop. *)
Lemma get_current_song_stops_at
  (self : Spotify.client) (k : nat) :
  let req := Spotify.current_song_request self in
  forall (n : nat) (w : Spotify.net) (resp : Spotify.response),
    (k < n)%nat ->
    forallb Spotify.retried (Spotify.replies w req k) = true ->
    Spotify.server w (List.length (Spotify.sent w) + k)%nat req
    = Spotify.Responds resp ->
    Spotify.status_code resp = 200 ->
    Spotify.get_current_song_from self n w
    = (Spotify.andthen (Spotify.json_of resp) Spotify.song_data,
       Spotify.mkNet (Spotify.grant w) (Spotify.server w)
                     (Spotify.sent w ++ repeat req (S k))
                     (Spotify.printed w
                      ++ Spotify.failure_lines (Spotify.replies w req k))).
Proof.
  intros req. induction k as [|k IH]; intros n w resp Hkn Hall Hk H200.
  - destruct n as [|n]; [lia|]. cbn [Spotify.get_current_song_from].
    unfold Spotify.requests_get.
    change (Spotify.mkRequest Spotify.currently_playing_url _) with req.
    rewrite Nat.add_0_r in Hk. rewrite Hk, H200.
    cbn [Z.eqb Pos.eqb repeat Spotify.replies seq map Spotify.failure_lines].
    rewrite app_nil_r. reflexivity.
  - destruct n as [|n]; [lia|].
    rewrite replies_succ in Hall |- *. cbn [forallb] in Hall.
    apply andb_prop in Hall as [Hr Hrest].
    rewrite get_current_song_step_retry by exact Hr. fold req.
    assert (Hk' : Spotify.server w
                    (List.length (Spotify.sent w ++ [req]) + k)%nat req
                  = Spotify.Responds resp).
    { rewrite length_app. cbn [List.length]. rewrite <- Hk. f_equal. lia. }
    match goal with
    | |- context [Spotify.get_current_song_from self n ?w1] =>
        rewrite (IH n w1 resp ltac:(lia) Hrest Hk' H200)
    end.
    cbn [Spotify.grant Spotify.server Spotify.sent Spotify.printed].
    f_equal. f_equal.
    + rewrite <- app_assoc. reflexivity.
    + rewrite <- app_assoc. f_equal.
      exact (eq_sym (failure_lines_app [_] _)).
Qed.

(** The trace of the loop, whatever the endpoint answers: the same
    request sent [n] times, and one line printed per failed one. *)
Lemma get_current_song_from_trace (self : Spotify.client) (tries : nat) :
  forall w : Spotify.net,
  exists n : nat,
    (n <= tries)%nat
    /\ snd (Spotify.get_current_song_from self tries w)
       = Spotify.mkNet
           (Spotify.grant w) (Spotify.server w)
           (Spotify.sent w ++ repeat (Spotify.current_song_request self) n)
           (Spotify.printed w
            ++ Spotify.failure_lines
                 (Spotify.replies w (Spotify.current_song_request self) n)).
Proof.
  set (req := Spotify.current_song_request self).
  induction tries as [|tries IH]; intros w.
  - exists 0%nat. split; [lia|]. cbn. rewrite !app_nil_r.
    destruct w; reflexivity.
  - destruct (Spotify.retried
                (Spotify.server w (List.length (Spotify.sent w)) req))
      eqn:Hr.
    + pose proof (get_current_song_step_retry self tries w Hr) as Hstep.
      cbv zeta in Hstep. fold req in Hstep. rewrite Hstep.
      match goal with
      | |- context [Spotify.get_current_song_from self tries ?w1] =>
          destruct (IH w1) as (n & Hn & Hw)
      end.
      exists (S n). split; [lia|]. rewrite Hw, replies_succ.
      cbn [Spotify.grant Spotify.server Spotify.sent Spotify.printed].
      f_equal.
      * rewrite <- app_assoc. reflexivity.
      * rewrite <- app_assoc. f_equal.
        exact (eq_sym (failure_lines_app [_] _)).
    + exists 1%nat. split; [lia|]. cbn [Spotify.get_current_song_from].
      unfold Spotify.requests_get, Spotify.replies.
      change (Spotify.mkRequest Spotify.currently_playing_url _) with req.
      cbn [seq map repeat]. rewrite Nat.add_0_r.
      destruct (Spotify.server w (List.length (Spotify.sent w)) req)
        as [msg|resp]; [discriminate Hr|].
      cbn [Spotify.retried] in Hr. apply negb_false_iff in Hr. rewrite Hr.
      cbn [snd Spotify.failure_lines]. rewrite app_nil_r. reflexivity.
Qed.

(** X14 ([get_current_song], lines 80-109). When the endpoint fails or
    answers with another status than 200 to each of the [max_tries]
    requests, [get_current_song] returns [None] after sending exactly
    [max_tries] requests, and has printed one line per failed request
    and none for the responses. *)
Theorem get_current_song_gives_up
  (self : Spotify.client) (w : Spotify.net) :
  let req := Spotify.current_song_request self in
  let tries := Z.to_nat (Spotify.max_tries self) in
  forallb Spotify.retried (Spotify.replies w req tries) = true ->
  Spotify.get_current_song self w
  = (Spotify.Return Spotify.VNone,
     Spotify.mkNet (Spotify.grant w) (Spotify.server w)
                   (Spotify.sent w ++ repeat req tries)
                   (Spotify.printed w
                    ++ Spotify.failure_lines (Spotify.replies w req tries))).
Proof.
  intros req tries Hall. unfold Spotify.get_current_song.
  exact (get_current_song_runs_out self tries w Hall).
Qed.

Lemma get_current_song_gives_up_witness :
  let req := Spotify.current_song_request example_client in
  forallb Spotify.retried (Spotify.replies unreachable req 3) = true
  /\ Spotify.get_current_song example_client unreachable
     = (Spotify.Return Spotify.VNone,
        Spotify.mkNet (Spotify.grant unreachable)
                      (Spotify.server unreachable)
                      [req; req; req]
                      ["Error while getting current song: timed out"%string;
                       "Error while getting current song: timed out"%string;
                       "Error while getting current song: timed out"%string]).
Proof.
  split; [reflexivity|].
  exact (get_current_song_gives_up example_client unreachable eq_refl).
Defined.

(** X15 ([get_current_song], lines 80-104). When the first reply that is
    not retried comes within [max_tries] requests and carries a track,
    [get_current_song] returns the six fields of that track under the
    keys song_title, artist_name, image_url, song_id, song_length and
    playing, and sends no request after that reply. *)
Theorem get_current_song_first_success
  (self : Spotify.client) (w : Spotify.net) (k : nat)
  (resp : Spotify.response)
  (name artist image id : string) (length_ms : Z) (playing : bool) :
  let req := Spotify.current_song_request self in
  Z.of_nat k < Spotify.max_tries self ->
  forallb Spotify.retried (Spotify.replies w req k) = true ->
  Spotify.server w (List.length (Spotify.sent w) + k)%nat req
  = Spotify.Responds resp ->
  Spotify.status_code resp = 200 ->
  Spotify.body resp
  = Some (Spotify.track name artist image id length_ms playing) ->
  Spotify.get_current_song self w
  = (Spotify.Return
       (Spotify.VDict
          [("song_title"%string, Spotify.VStr name);
           ("artist_name"%string, Spotify.VStr artist);
           ("image_url"%string, Spotify.VStr image);
           ("song_id"%string, Spotify.VStr id);
           ("song_length"%string, Spotify.VInt length_ms);
           ("playing"%string, Spotify.VBool playing)]),
     Spotify.mkNet (Spotify.grant w) (Spotify.server w)
                   (Spotify.sent w ++ repeat req (S k))
                   (Spotify.printed w
                    ++ Spotify.failure_lines (Spotify.replies w req k))).
Proof.
  intros req Hk Hall Hresp H200 Hbody. unfold Spotify.get_current_song.
  rewrite (get_current_song_stops_at self k
             (Z.to_nat (Spotify.max_tries self)) w resp
             ltac:(lia) Hall Hresp H200).
  unfold Spotify.json_of. rewrite Hbody. reflexivity.
Qed.

Lemma get_current_song_first_success_witness :
  let resp :=
    Spotify.mkResponse
      200 (Some (Spotify.track "Song" "Artist" "https://i.scdn.co/image/1"
                               "4uLU6hMCjMI75M1A2tKUQC" 213000 true)) in
  let req := Spotify.current_song_request example_client in
  Spotify.get_current_song example_client (flaky resp)
  = (Spotify.Return
       (Spotify.VDict
          [("song_title"%string, Spotify.VStr "Song");
           ("artist_name"%string, Spotify.VStr "Artist");
           ("image_url"%string, Spotify.VStr "https://i.scdn.co/image/1");
           ("song_id"%string, Spotify.VStr "4uLU6hMCjMI75M1A2tKUQC");
           ("song_length"%string, Spotify.VInt 213000);
           ("playing"%string, Spotify.VBool true)]),
     Spotify.mkNet (Spotify.grant (flaky resp)) (Spotify.server (flaky resp))
                   [req; req; req]
                   ["Error while getting current song: timed out"%string]).
Proof.
  intros resp req.
  exact (get_current_song_first_success
           example_client (flaky resp) 2 resp
           "Song" "Artist" "https://i.scdn.co/image/1"
           "4uLU6hMCjMI75M1A2tKUQC" 213000 true
           ltac:(cbn; lia) eq_refl eq_refl eq_refl eq_refl).
Defined.

(** X16 ([get_current_song], lines 77-109). Whatever the endpoint
    answers, [get_current_song] sends the same request (the
    currently-playing URL with the bearer token as its only header) at
    most [max_tries] times, prints exactly one line per failed request,
    and leaves the rest of the world alone. *)
Theorem get_current_song_request_bound
  (self : Spotify.client) (w : Spotify.net) :
  let req := Spotify.current_song_request self in
  exists n : nat,
    Z.of_nat n <= Z.max 0 (Spotify.max_tries self)
    /\ snd (Spotify.get_current_song self w)
       = Spotify.mkNet
           (Spotify.grant w) (Spotify.server w)
           (Spotify.sent w ++ repeat req n)
           (Spotify.printed w
            ++ Spotify.failure_lines (Spotify.replies w req n)).
Proof.
  intros req. unfold Spotify.get_current_song.
  destruct (get_current_song_from_trace
              self (Z.to_nat (Spotify.max_tries self)) w) as (n & Hn & Hw).
  exists n. split; [lia | exact Hw].
Qed.

(** X17 ([get_current_song], lines 86-88). A 200 response whose content
    has no item, or a null one, is not handled: [get_current_song]
    raises [AttributeError] instead of returning [None], and does not
    try again. *)
Theorem get_current_song_null_item_raises
  (self : Spotify.client) (w : Spotify.net) (k : nat)
  (resp : Spotify.response) (content : list (string * Spotify.value)) :
  let req := Spotify.current_song_request self in
  Z.of_nat k < Spotify.max_tries self ->
  forallb Spotify.retried (Spotify.replies w req k) = true ->
  Spotify.server w (List.length (Spotify.sent w) + k)%nat req
  = Spotify.Responds resp ->
  Spotify.status_code resp = 200 ->
  Spotify.body resp = Some (Spotify.VDict content) ->
  Spotify.field "item" content = Spotify.VNone ->
  fst (Spotify.get_current_song self w) = Spotify.Raises Spotify.AttributeError
  /\ Spotify.sent (snd (Spotify.get_current_song self w))
     = Spotify.sent w ++ repeat req (S k).
Proof.
  intros req Hk Hall Hresp H200 Hbody Hitem. unfold Spotify.get_current_song.
  rewrite (get_current_song_stops_at self k
             (Z.to_nat (Spotify.max_tries self)) w resp
             ltac:(lia) Hall Hresp H200).
  cbn [fst snd Spotify.sent]. split; [|reflexivity].
  unfold Spotify.json_of. rewrite Hbody.
  unfold Spotify.field in Hitem.
  cbn [Spotify.andthen]. unfold Spotify.song_data, Spotify.get.
  destruct (Spotify.assoc "is_playing" content);
    destruct (Spotify.assoc "item" content) as [item|];
    cbn [Spotify.andthen]; try subst item; reflexivity.
Qed.

Lemma get_current_song_null_item_raises_witness :
  let resp :=
    Spotify.mkResponse
      200 (Some (Spotify.VDict [("is_playing"%string, Spotify.VBool true);
                                ("item"%string, Spotify.VNone)])) in
  let req := Spotify.current_song_request example_client in
  fst (Spotify.get_current_song example_client (flaky resp))
  = Spotify.Raises Spotify.AttributeError
  /\ Spotify.sent (snd (Spotify.get_current_song example_client (flaky resp)))
     = [req; req; req].
Proof.
  intros resp req.
  exact (get_current_song_null_item_raises
           example_client (flaky resp) 2 resp
           [("is_playing"%string, Spotify.VBool true);
            ("item"%string, Spotify.VNone)]
           ltac:(cbn; lia) eq_refl eq_refl eq_refl eq_refl eq_refl).
Defined.

(** X18 ([get_current_song], lines 84 and 105). A 200 response whose
    text is not JSON makes [get_current_song] raise the decoder's error:
    it is not a [RequestException], so nothing is printed for it and no
    further request is sent. *)
Theorem get_current_song_bad_json_raises
  (self : Spotify.client) (w : Spotify.net) (k : nat)
  (resp : Spotify.response) :
  let req := Spotify.current_song_request self in
  Z.of_nat k < Spotify.max_tries self ->
  forallb Spotify.retried (Spotify.replies w req k) = true ->
  Spotify.server w (List.length (Spotify.sent w) + k)%nat req
  = Spotify.Responds resp ->
  Spotify.status_code resp = 200 ->
  Spotify.body resp = None ->
  Spotify.get_current_song self w
  = (Spotify.Raises Spotify.JSONDecodeError,
     Spotify.mkNet (Spotify.grant w) (Spotify.server w)
                   (Spotify.sent w ++ repeat req (S k))
                   (Spotify.printed w
                    ++ Spotify.failure_lines (Spotify.replies w req k))).
Proof.
  intros req Hk Hall Hresp H200 Hbody. unfold Spotify.get_current_song.
  rewrite (get_current_song_stops_at self k
             (Z.to_nat (Spotify.max_tries self)) w resp
             ltac:(lia) Hall Hresp H200).
  unfold Spotify.json_of. rewrite Hbody. reflexivity.
Qed.

Lemma get_current_song_bad_json_raises_witness :
  let resp := Spotify.mkResponse 200 None in
  let req := Spotify.current_song_request example_client in
  Spotify.get_current_song example_client (flaky resp)
  = (Spotify.Raises Spotify.JSONDecodeError,
     Spotify.mkNet (Spotify.grant (flaky resp)) (Spotify.server (flaky resp))
                   [req; req; req]
                   ["Error while getting current song: timed out"%string]).
Proof.
  intros resp req.
  exact (get_current_song_bad_json_raises
           example_client (flaky resp) 2 resp
           ltac:(cbn; lia) eq_refl eq_refl eq_refl eq_refl).
Defined.

(** X19 ([get_current_song], lines 86-101). The fields are read with
    [get], so once the item and its album are objects and the album's
    artists and images are lists that start with an object, every field
    the content lacks comes out as [None] in the result instead of
    raising. *)
Theorem song_data_missing_fields
  (content item album artist image : list (string * Spotify.value))
  (artists images : list Spotify.value) :
  Spotify.field "item" content = Spotify.VDict item ->
  Spotify.field "album" item = Spotify.VDict album ->
  Spotify.field "artists" album
  = Spotify.VList (Spotify.VDict artist :: artists) ->
  Spotify.field "images" album
  = Spotify.VList (Spotify.VDict image :: images) ->
  Spotify.song_data (Spotify.VDict content)
  = Spotify.Return
      (Spotify.VDict
         [("song_title"%string, Spotify.field "name" item);
          ("artist_name"%string, Spotify.field "name" artist);
          ("image_url"%string, Spotify.field "url" image);
          ("song_id"%string, Spotify.field "id" item);
          ("song_length"%string, Spotify.field "duration_ms" item);
          ("playing"%string, Spotify.field "is_playing" content)]).
Proof.
  intros Hitem Halbum Hartists Himages.
  assert (Hget : forall key d,
             Spotify.get (Spotify.VDict d) key
             = Spotify.Return (Spotify.field key d)).
  { intros key d. unfold Spotify.get, Spotify.field.
    destruct (Spotify.assoc key d); reflexivity. }
  unfold Spotify.song_data.
  rewrite !Hget, Hitem. cbn [Spotify.andthen].
  rewrite !Hget, Halbum. cbn [Spotify.andthen].
  rewrite !Hget, Hartists, Himages. cbn [Spotify.andthen Spotify.first].
  rewrite !Hget. reflexivity.
Qed.

Lemma song_data_missing_fields_witness :
  Spotify.song_data
    (Spotify.VDict
       [("item"%string,
         Spotify.VDict
           [("album"%string,
             Spotify.VDict
               [("artists"%string, Spotify.VList [Spotify.VDict []]);
                ("images"%string,
                 Spotify.VList
                   [Spotify.VDict [("url"%string, Spotify.VStr "u")]])])])])
  = Spotify.Return
      (Spotify.VDict
         [("song_title"%string, Spotify.VNone);
          ("artist_name"%string, Spotify.VNone);
          ("image_url"%string, Spotify.VStr "u");
          ("song_id"%string, Spotify.VNone);
          ("song_length"%string, Spotify.VNone);
          ("playing"%string, Spotify.VNone)]).
Proof.
  pose (image := [("url"%string, Spotify.VStr "u")]).
  pose (album := [("artists"%string, Spotify.VList [Spotify.VDict []]);
                  ("images"%string, Spotify.VList [Spotify.VDict image])]).
  pose (item := [("album"%string, Spotify.VDict album)]).
  exact (song_data_missing_fields
           [("item"%string, Spotify.VDict item)] item album [] image [] []
           eq_refl eq_refl eq_refl eq_refl).
Defined.

(** X20 ([__init__], [authenticate], [get_current_song]). A client built
    with [SpotifyClient(...)] and asked for the current song: when the
    token service returns no token, or an empty one, the constructor
    raises [RequestException] with the message Authentication failed and
    no request is sent; otherwise at most three requests are sent, each
    with the header Authorization: Bearer <token>. *)
Theorem new_client_sends_at_most_three_requests
  (client_id client_secret username : string) (w : Spotify.net) :
  let t := Spotify.grant w username "user-read-currently-playing"
                         client_id client_secret "https://www.google.com/" in
  let run := Spotify.bind (Spotify.init client_id client_secret username)
                          Spotify.get_current_song w in
  if Spotify.falsy t
  then run = (Spotify.Raises
                (Spotify.RequestException "Authentication failed"), w)
  else exists n : nat,
      (n <= 3)%nat
      /\ Spotify.sent (snd run)
         = Spotify.sent w
           ++ repeat
                (Spotify.mkRequest
                   Spotify.currently_playing_url
                   [("Authorization"%string,
                     ("Bearer " ++ Spotify.token_text t)%string)])
                n.
Proof.
  intros t run. subst run.
  unfold Spotify.bind, Spotify.init, Spotify.authenticate.
  cbn [Spotify.client_id Spotify.client_secret Spotify.username
       Spotify.scope Spotify.token Spotify.max_tries Spotify.retry_delay].
  fold t. destruct (Spotify.falsy t) eqn:Ht; [reflexivity|].
  unfold Spotify.get_current_song. cbn [Spotify.max_tries].
  match goal with
  | |- context [Spotify.get_current_song_from ?c ?n w] =>
      destruct (get_current_song_from_trace c n w) as (k & Hk & Hw)
  end.
  exists k. split; [exact Hk|]. rewrite Hw. reflexivity.
Qed.

(** X21 ([get_audio_analysis], lines 125-136). [get_audio_analysis]
    makes a single attempt. Whatever the endpoint answers, exactly one
    request is sent, to the audio-analysis URL of the song with the
    three headers; a failed request is not caught, a 200 response gives
    its decoded content, and any other response prints a line and gives
    [None]. *)
Theorem get_audio_analysis_single_attempt
  (self : Spotify.client) (song_id : string) (w : Spotify.net) :
  let req := audio_analysis_request self song_id in
  let run := Spotify.get_audio_analysis self song_id w in
  Spotify.sent (snd run) = Spotify.sent w ++ [req]
  /\ (forall msg,
         Spotify.server w (List.length (Spotify.sent w)) req
         = Spotify.Fails msg ->
         run = (Spotify.Raises (Spotify.RequestException msg),
                after_request w req))
  /\ (forall resp,
         Spotify.server w (List.length (Spotify.sent w)) req
         = Spotify.Responds resp ->
         run = if Spotify.status_code resp =? 200
               then (Spotify.json_of resp, after_request w req)
               else (Spotify.Return Spotify.VNone,
                     Spotify.mkNet
                       (Spotify.grant w) (Spotify.server w)
                       (Spotify.sent w ++ [req])
                       (Spotify.printed w ++ ["Error during request"%string]))).
Proof.
  intros req run. subst run.
  unfold Spotify.get_audio_analysis, Spotify.bind, Spotify.requests_get.
  change (Spotify.mkRequest _ _) with req.
  destruct (Spotify.server w (List.length (Spotify.sent w)) req)
    as [msg|resp].
  - split; [reflexivity|]. split.
    + intros msg' [= <-]. reflexivity.
    + intros resp [=].
  - destruct (Spotify.status_code resp =? 200) eqn:H200.
    + split; [reflexivity|]. split; [intros msg [=]|].
      intros resp' [= <-]. rewrite H200. reflexivity.
    + split; [reflexivity|]. split; [intros msg [=]|].
      intros resp' [= <-]. rewrite H200. reflexivity.
Qed.

Lemma get_audio_analysis_single_attempt_witness :
  let req := audio_analysis_request example_client "4uLU6hMCjMI75M1A2tKUQC" in
  Spotify.get_audio_analysis example_client "4uLU6hMCjMI75M1A2tKUQC"
                             unreachable
  = (Spotify.Raises (Spotify.RequestException "timed out"),
     Spotify.mkNet (Spotify.grant unreachable) (Spotify.server unreachable)
                   [req] []).
Proof.
  intros req.
  exact (proj1 (proj2 (get_audio_analysis_single_attempt
                         example_client "4uLU6hMCjMI75M1A2tKUQC"
                         unreachable))
               "timed out"%string eq_refl).
Defined.
